(** * db-yaml (KagoDB): cursor pipeline, predicate compiler, update operators
    and the in-memory storage index

  A shallow embedding of the JavaScript sources

    - [core/cursor.js]      (condition parser, first-generation cursor)
    - [lib/core/cursor.js]  (stage-based cursor: Source, Condition,
                             Projection, Sort, Offset, Limit)
    - [update.js]           (update-operator compiler)
    - [memory.js]           (volatile storage mixin)
    - [core/base.js]        (classes and instances with parameters)
    - [deny.js]             (mixin of methods that are not allowed)
    - [webapi.js]           (request pipeline of the Web API)

  Callback-passing code is modelled in direct style: every storage call in
  the sources invokes its callback exactly once, so a function taking a
  callback [function(err, x)] becomes a function returning [error + x],
  and the state the callee mutates is returned next to the result. *)

From Stdlib Require Import ZArith List String Ascii Bool Lia Floats.
From Stdlib Require Import DecimalString Setoid.
Import ListNotations.

Set Warnings "-register-all".

Local Open Scope string_scope.
Local Open Scope list_scope.

(* ================================================================== *)
(** * JavaScript values *)

Module JS.

(** Data values as documents hold them (JSON / YAML data).  Functions are
    kept apart (see [arg]): no document contains one. *)
Inductive value : Type :=
| VUndefined
| VNull
| VBool (b : bool)
| VNum (n : float)
| VStr (s : string)
| VArr (l : list value)
| VObj (o : list (string * value)).

(** An object is an association list in enumeration order; the first
    binding of a key is the live one. *)
Definition obj : Type := list (string * value).

(** An argument that may be a function ([typeof x == 'function']) or data. *)
Inductive arg (F : Type) : Type :=
| AFun (f : F)
| AVal (v : value).
Arguments AFun {F} f.
Arguments AVal {F} v.

(** [new Error(message + culprit)]: the message prefix and the value that
    was concatenated to it are kept apart. *)
Record error : Type := Error { message : string; culprit : option value }.

(** ToBoolean *)
Definition truthy (v : value) : bool :=
  match v with
  | VUndefined | VNull => false
  | VBool b => b
  | VNum n => negb (PrimFloat.is_zero n || PrimFloat.is_nan n)
  | VStr s => negb (String.eqb s "")
  | VArr _ | VObj _ => true
  end.

(** [typeof] on data values *)
Definition typeof (v : value) : string :=
  match v with
  | VUndefined => "undefined"
  | VNull | VArr _ | VObj _ => "object"
  | VBool _ => "boolean"
  | VNum _ => "number"
  | VStr _ => "string"
  end.

(** [a || b] *)
Definition or_else (a b : value) : value := if truthy a then a else b.

Definition index_key (i : nat) : string :=
  NilZero.string_of_uint (Nat.to_uint i).

(** Own enumerable properties: the fields of an object, the indexed
    elements of an array.  (Inherited members and an array's [length] are
    not enumerable and are left out.) *)
Definition props (v : value) : obj :=
  match v with
  | VObj o => o
  | VArr l => combine (map index_key (seq 0 (List.length l))) l
  | _ => []
  end.

Fixpoint lookup (o : obj) (k : string) : option value :=
  match o with
  | [] => None
  | (k', v) :: o' => if String.eqb k k' then Some v else lookup o' k
  end.

(** [o[k]] on an object: [undefined] when the key is absent *)
Definition get (o : obj) (k : string) : value :=
  match lookup o k with Some v => v | None => VUndefined end.

(** [v[k]] on a value *)
Definition get_prop (v : value) (k : string) : value := get (props v) k.

(** [o.hasOwnProperty(k)] *)
Definition has (o : obj) (k : string) : bool :=
  match lookup o k with Some _ => true | None => false end.

(** [o[k] = v]: overwrite the live binding or append a new one *)
Fixpoint set (o : obj) (k : string) (v : value) : obj :=
  match o with
  | [] => [(k, v)]
  | (k', v') :: o' =>
      if String.eqb k k' then (k, v) :: o' else (k', v') :: set o' k v
  end.

(** [delete o[k]] *)
Definition delete (o : obj) (k : string) : obj :=
  filter (fun kv => negb (String.eqb k (fst kv))) o.

(** The key list of [Object.keys(o)] and of [for (key in o)]: every key
    once, in order of first appearance. *)
Fixpoint keys (o : obj) : list string :=
  match o with
  | [] => []
  | (k, _) :: o' => k :: filter (fun k' => negb (String.eqb k k')) (keys o')
  end.

Definition own_keys (v : value) : list string := keys (props v).

(** ** Numbers: [parseFloat] *)

(** The binary64 value nearest to [(-1)^neg * m * 10^e] (ties to even). *)
Definition dec2float (neg : bool) (m e : Z) : float :=
  match m with
  | Zpos p =>
      if (0 <=? e)%Z
      then SF2Prim (binary_round prec emax neg (Z.to_pos (Zpos p * 10 ^ e)) 0)
      else
        let '(q, e', l) :=
          SFdiv_core_binary prec emax (Zpos p) 0 (10 ^ (- e))%Z 0 in
        SF2Prim (binary_round_aux prec emax neg q e' l)
  | _ => if neg then neg_zero else zero
  end.

Definition is_space (c : ascii) : bool :=
  let n := nat_of_ascii c in
  ((9 <=? n) && (n <=? 13) || (n =? 32))%nat.

Definition is_digit (c : ascii) : bool :=
  let n := nat_of_ascii c in ((48 <=? n) && (n <=? 57))%nat.

Definition digit_val (c : ascii) : Z := Z.of_nat (nat_of_ascii c) - 48.

Fixpoint trim_left (s : string) : string :=
  match s with
  | String c s' => if is_space c then trim_left s' else s
  | EmptyString => s
  end.

(** Reads a run of decimal digits: the number read so far, how many digits
    were read, and the rest of the string. *)
Fixpoint read_digits (s : string) (acc cnt : Z) : Z * Z * string :=
  match s with
  | String c s' =>
      if is_digit c
      then read_digits s' (10 * acc + digit_val c)%Z (cnt + 1)%Z
      else (acc, cnt, s)
  | EmptyString => (acc, cnt, s)
  end.

Definition read_sign (s : string) : bool * string :=
  match s with
  | String "-" r => (true, r)
  | String "+" r => (false, r)
  | _ => (false, s)
  end.

(** The exponent part [e[+-]digits]; ignored unless a digit follows. *)
Definition read_exponent (s : string) : Z :=
  match s with
  | String c r =>
      if (Ascii.eqb c "e" || Ascii.eqb c "E")%bool then
        let '(neg, r1) := read_sign r in
        let '(n, cnt, _) := read_digits r1 0 0 in
        if (cnt =? 0)%Z then 0%Z else if neg then (- n)%Z else n
      else 0%Z
  | EmptyString => 0%Z
  end.

(** [parseFloat] on a string: leading white space is dropped and the
    longest prefix that is a decimal literal is converted; [NaN] when
    there is none. *)
Definition parseFloat_string (s : string) : float :=
  let '(neg, s0) := read_sign (trim_left s) in
  if String.prefix "Infinity" s0 then
    if neg then neg_infinity else infinity
  else
    let '(ip, icnt, s1) := read_digits s0 0 0 in
    let '(m, fcnt, s2) :=
      match s1 with
      | String "." r => read_digits r ip 0
      | _ => (ip, 0%Z, s1)
      end in
    if (icnt + fcnt =? 0)%Z then nan
    else dec2float neg m (read_exponent s2 - fcnt).

(** [parseFloat(v)] = [parseFloat(ToString(v))].  A number prints to a
    literal that reads back as itself ([-0] prints as ["0"]); [true],
    [null], [undefined] and ["[object Object]"] hold no literal; an array
    prints its elements joined by commas, so only its first element
    counts, and [null] and [undefined] elements print as nothing. *)
Fixpoint parseFloat (v : value) : float :=
  match v with
  | VNum n => if PrimFloat.is_zero n then zero else n
  | VStr s => parseFloat_string s
  | VArr (x :: _) =>
      match x with
      | VNull | VUndefined => nan
      | _ => parseFloat x
      end
  | _ => nan
  end.

(** An instance of [==] for the examples: operands of the same primitive
    type are compared as [==] compares them, [null == undefined] holds,
    and no coercion between types is attempted. *)
Definition prim_eq (a b : value) : bool :=
  match a, b with
  | (VUndefined | VNull), (VUndefined | VNull) => true
  | VBool x, VBool y => Bool.eqb x y
  | VNum x, VNum y => PrimFloat.eqb x y
  | VStr x, VStr y => String.eqb x y
  | _, _ => false
  end.

End JS.

Export JS.

(* ================================================================== *)
(** * update.js: the update-operator compiler *)

Module Update.

(** The [ope] table: an object literal with the six operators. *)
Definition ope : list string :=
  ["$set"; "$unset"; "$rename"; "$push"; "$pull"; "$inc"].

(** Members every object literal inherits from [Object.prototype]. *)
Definition object_prototype : list string :=
  ["constructor"; "toString"; "toLocaleString"; "valueOf";
   "hasOwnProperty"; "isPrototypeOf"; "propertyIsEnumerable";
   "__proto__"; "__defineGetter__"; "__defineSetter__";
   "__lookupGetter__"; "__lookupSetter__"].

Definition mem (k : string) (l : list string) : bool :=
  existsb (String.eqb k) l.

(** Truthiness of [ope[key]]: the lookup goes through the prototype
    chain of the literal. *)
Definition ope_lookup (key : string) : bool :=
  mem key ope || mem key object_prototype.

(** The test [ope[key] && 'object' === typeof update[key]] *)
Definition passes (update : value) (key : string) : bool :=
  ope_lookup key && String.eqb "object" (typeof (get_prop update key)).

(** The checking loop [for (var key in update) { ... throw ... }] over the
    enumerated keys: [None] when every key passes, else the offending
    key. *)
Fixpoint check_operators (update : value) (ks : list string)
  : option string :=
  match ks with
  | [] => None
  | key :: ks' =>
      if passes update key
      then check_operators update ks'
      else Some key
  end.

Section Mutator.

(** The [==] operator of the language, used by [$pull]. *)
Variable loose_eq : value -> value -> bool.

Definition fold_keys (spec : value) (step : obj -> string -> obj)
  (item : obj) : obj :=
  fold_left step (own_keys spec) item.

(** [if (update.$op) { for (key in update.$op) ... }] *)
Definition when_present (update : value) (op : string)
  (step : value -> obj -> string -> obj) (item : obj) : obj :=
  let spec := get_prop update op in
  if truthy spec then fold_keys spec (step spec) item else item.

Definition set_step (spec : value) (item : obj) (key : string) : obj :=
  set item key (get_prop spec key).

Definition unset_step (spec : value) (item : obj) (key : string) : obj :=
  delete item key.

(** [val = update.$rename[key]; item[val] = item[key]; delete item[key]].
    The new name is used as a property key; only string names are
    followed here, any other value leaves the key under its printed
    form, which is not modelled: the field is then only deleted. *)
Definition rename_step (spec : value) (item : obj) (key : string) : obj :=
  match get_prop spec key with
  | VStr val => delete (set item val (get item key)) key
  | _ => delete item key
  end.

Definition push_step (spec : value) (item : obj) (key : string) : obj :=
  let old := get item key in
  let arr :=
    match old with
    | VArr l => l
    | VUndefined => []
    | _ => [old]
    end in
  set item key (VArr (arr ++ [get_prop spec key])).

Definition pull_step (spec : value) (item : obj) (key : string) : obj :=
  let val := get_prop spec key in
  let old := get item key in
  match old with
  | VArr l =>
      set item key (VArr (filter (fun test => negb (loose_eq val test)) l))
  | _ => if loose_eq val old then set item key (VArr []) else item
  end.

(** [parseFloat(x) || 0] *)
Definition number_or_zero (x : value) : float :=
  let n := parseFloat x in
  if truthy (VNum n) then n else zero.

Definition inc_step (spec : value) (item : obj) (key : string) : obj :=
  let val := number_or_zero (get_prop spec key) in
  let old := number_or_zero (get item key) in
  set item key (VNum (old + val)%float).

(** The body of the returned function on a document. *)
Definition apply_operators (update : value) (item : obj) : obj :=
  let item := when_present update "$set" set_step item in
  let item := when_present update "$unset" unset_step item in
  let item := when_present update "$rename" rename_step item in
  let item := when_present update "$push" push_step item in
  let item := when_present update "$pull" pull_step item in
  when_present update "$inc" inc_step item.

(** [function(item) { if (!item) return item; ...; return item; }].
    Documents are objects; any other truthy item is handed back as it
    came. *)
Definition mutator (update : value) (item : value) : value :=
  if negb (truthy item) then item
  else match item with
       | VObj o => VObj (apply_operators update o)
       | _ => item
       end.

(** [exports.update].  The result is the compiled function, or [None]
    for the [return null] of the source.  ([Object.keys] of a primitive is
    an array as well from ES2015 on; before, it throws a [TypeError]
    instead of the error below.) *)
Definition update (u : arg (value -> value))
  : error + option (value -> value) :=
  match u with
  | AFun f => inr (Some f)
  | AVal u0 =>
      let upd := or_else u0 (VObj []) in
      (* [Object.keys(update)] is an array, and an array is truthy *)
      if negb (truthy (VArr (map VStr (own_keys upd)))) then inr None
      else if negb (String.eqb "object" (typeof upd))
      then inl (Error "invalid update: " (Some upd))
      else match check_operators upd (own_keys upd) with
           | Some key =>
               inl (Error "invalid update operator: " (Some (VStr key)))
           | None => inr (Some (mutator upd))
           end
  end.

End Mutator.

End Update.

(* ================================================================== *)
(** * The storage contract *)

Module Storage.

(** A call the cursor makes into its collection. *)
Inductive call : Type :=
| Index
| Read (id : string).

(** What a collection answers while a cursor is drained: the identifier
    list handed to the callback of [index] ([keys] in core/cursor.js) and
    the item or error handed to the callback of [read]. *)
Record collection : Type := {
  index : error + list string;
  read : string -> error + value
}.

(** The arguments [(err, item)] of a [nextObject] callback; [callback()] is
    [Got VUndefined]. *)
Inductive outcome : Type :=
| Failed (err : error)
| Got (item : value).

(** Every identifier of the list reads back a truthy item. *)
Definition readable (coll : collection) (ids : list string) : Prop :=
  forall id, In id ids -> exists d, read coll id = inr d /\ truthy d = true.

(** The item an identifier reads back. *)
Definition item_of (coll : collection) (id : string) : value :=
  match read coll id with inr d => d | inl _ => VUndefined end.

End Storage.

Export Storage.

(* ================================================================== *)
(** * core/cursor.js: condition parser and first-generation cursor *)

Module Core.

Section Core.

(** The [==] operator of the language. *)
Variable loose_eq : value -> value -> bool.

(** [for (var key in condition) { if (item[key] != condition[key]) return
    next(false); } next(true);] *)
Fixpoint all_match (condition item : value) (ks : list string) : bool :=
  match ks with
  | [] => true
  | key :: ks' =>
      if negb (loose_eq (get_prop item key) (get_prop condition key))
      then false
      else all_match condition item ks'
  end.

(** [parseConditoin]; a condition function [function(item, next)] that
    answers [next(b)] is the function returning [b]. *)
Definition parseConditoin (condition : arg (value -> bool))
  : error + (value -> bool) :=
  match condition with
  | AFun f => inr f
  | AVal c =>
      let c := or_else c (VObj []) in
      if negb (String.eqb "object" (typeof c))
      then inl (Error "unknown condition: " (Some c))
      else
        match own_keys c with
        | [] => inr (fun _ => true)
        | [key] =>
            let val := get_prop c key in
            inr (fun item => loose_eq (get_prop item key) val)
        | _ => inr (fun item => all_match c item (own_keys c))
        end
  end.

Variable coll : collection.

(** [this.filters]: the list transformers installed by [sort], [offset]
    and [limit]. *)
Record filters : Type := {
  f_sort : option (list value -> list value);
  f_offset : option (list value -> list value);
  f_limit : option (list value -> list value)
}.

Record Cursor : Type := {
  condition : value -> bool;
  cfilters : filters;
  _keys : option (list string);
  _values : option (list value)
}.

(** [new Cursor(collection, condition)] *)
Definition new_Cursor (func : value -> bool) : Cursor :=
  {| condition := func;
     cfilters := {| f_sort := None; f_offset := None; f_limit := None |};
     _keys := None;
     _values := None |}.

(** [find(condition)]: an exception of [parseConditoin] escapes. *)
Definition find (cond : arg (value -> bool)) : error + Cursor :=
  match parseConditoin cond with
  | inl e => inl e
  | inr func => inr (new_Cursor func)
  end.

(** [list.splice(start)]: the elements from [start] on; a negative [start]
    counts from the end. *)
Definition splice_from (start : Z) (l : list value) : list value :=
  let len := Z.of_nat (List.length l) in
  let from := if (start <? 0)%Z then Z.max (len + start) 0 else Z.min start len in
  skipn (Z.to_nat from) l.

(** [list.splice(0, count)]: the first [count] elements. *)
Definition splice_first (count : Z) (l : list value) : list value :=
  firstn (Z.to_nat count) l.

Definition Cursor_offset (c : Cursor) (offset : Z) : Cursor :=
  {| condition := condition c;
     cfilters := {| f_sort := f_sort (cfilters c);
                    f_offset := Some (splice_from offset);
                    f_limit := f_limit (cfilters c) |};
     _keys := _keys c; _values := _values c |}.

Definition Cursor_limit (c : Cursor) (limit : Z) : Cursor :=
  {| condition := condition c;
     cfilters := {| f_sort := f_sort (cfilters c);
                    f_offset := f_offset (cfilters c);
                    f_limit := Some (splice_first limit) |};
     _keys := _keys c; _values := _values c |}.

(** [Cursor.prototype.sort] installs [list.sort(func)] for a comparator
    built from the parameter's keys; it fills [f_sort] and is not spelled
    out here. *)

(** The arguments [(err, list)] handed to a callback. *)
Record answer (A : Type) : Type :=
  Answer { err : option error; result : option A }.
Arguments Answer {A} err result.
Arguments err {A} a.
Arguments result {A} a.

(** [Cursor.prototype.keys] *)
Definition Cursor_keys (c : Cursor) (w : list call)
  : answer (list string) * Cursor * list call :=
  match _keys c with
  | Some l => (Answer None (Some l), c, w)
  | None =>
      match index coll with
      | inl e =>
          (Answer (Some e) None, c, w ++ [Index])
      | inr l =>
          (Answer None (Some l),
           {| condition := condition c; cfilters := cfilters c;
              _keys := Some l; _values := _values c |},
           w ++ [Index])
      end
  end.

(** Modelled from the spec: [utils.eachSeries] is not part of the sources at
    hand.  Per the propagation policy of section 7 (a per-item error aborts
    the drain at once and is handed on) it runs [each] over the list one
    element after the other, stops at the first error, and hands the error,
    or nothing, to [end]. *)
Fixpoint eachSeries {A S : Type} (l : list A)
  (each : A -> S -> option error * S) (s : S) : option error * S :=
  match l with
  | [] => (None, s)
  | x :: l' =>
      match each x s with
      | (Some e, s') => (Some e, s')
      | (None, s') => eachSeries l' each s'
      end
  end.

(** The [each] function of [toArray]: the state is the buffer and the log
    of storage calls. *)
Definition toArray_each (c : Cursor) (id : string)
  (s : list value * list call) : option error * (list value * list call) :=
  let '(buf, w) := s in
  match read coll id with
  | inl e => (Some e, (buf, w ++ [Read id]))
  | inr item =>
      if condition c item
      then (None, (buf ++ [item], w ++ [Read id]))
      else (None, (buf, w ++ [Read id]))
  end.

Definition apply_filter (f : option (list value -> list value))
  (buf : list value) : list value :=
  match f with Some g => g buf | None => buf end.

(** The [end] function of [toArray]:
    [callback(err, self._values = buf)] after the filters. *)
Definition toArray_end (c : Cursor) (e : option error) (buf : list value)
  : answer (list value) * Cursor :=
  let buf := apply_filter (f_sort (cfilters c)) buf in
  let buf := apply_filter (f_offset (cfilters c)) buf in
  let buf := apply_filter (f_limit (cfilters c)) buf in
  (Answer e (Some buf),
   {| condition := condition c; cfilters := cfilters c;
      _keys := _keys c; _values := Some buf |}).

(** [Cursor.prototype.toArray] *)
Definition Cursor_toArray (c : Cursor) (w : list call)
  : answer (list value) * Cursor * list call :=
  match _values c with
  | Some l => (Answer None (Some l), c, w)
  | None =>
      let '(a, c1, w1) := Cursor_keys c w in
      match err a, result a with
      | Some e, _ => (Answer (Some e) None, c1, w1)
      | None, None => (Answer None None, c1, w1)
      | None, Some l =>
          let '(e, (buf, w2)) := eachSeries l (toArray_each c1) ([], w1) in
          let '(ans, c2) := toArray_end c1 e buf in
          (ans, c2, w2)
      end
  end.

(** [Cursor.prototype.count] *)
Definition Cursor_count (c : Cursor) (w : list call)
  : answer nat * Cursor * list call :=
  let '(a, c1, w1) := Cursor_keys c w in
  match err a, result a with
  | Some e, _ => (Answer (Some e) None, c1, w1)
  | None, l => (Answer None (option_map (@List.length string) l), c1, w1)
  end.

(** [count(condition, callback)] of the mixin:
    [this.find(condition).count(callback)]. *)
Definition count (cond : arg (value -> bool)) (w : list call)
  : error + (answer nat * Cursor * list call) :=
  match find cond with
  | inl e => inl e
  | inr cursor => inr (Cursor_count cursor w)
  end.

End Core.

Arguments Answer {A} err result.
Arguments err {A} a.
Arguments result {A} a.

End Core.

(* ================================================================== *)
(** * lib/core/cursor.js: the stage-based cursor *)

Module Lib.

(** ** Stages over an arbitrary upstream

    Every stage pulls from the stage it wraps through [source.nextObject].
    The upstream is a state [U] with a pull function; [None] stands for a
    pull that does not come back within the fuel at hand. *)

Definition pull (U : Type) : Type := U -> option (outcome * U).

Section Stages.

Context {U : Type}.
Variable next : pull U.

(** The helper [toArray(source, callback)]: [buf] collects the items up to
    the first falsy one. *)
Fixpoint toArray (fuel : nat) (u : U) (buf : list value)
  : option ((error + list value) * U) :=
  match fuel with
  | O => None
  | S fuel' =>
      match next u with
      | None => None
      | Some (Failed e, u') => Some (inl e, u')
      | Some (Got item, u') =>
          if negb (truthy item) then Some (inr buf, u')
          else toArray fuel' u' (buf ++ [item])
      end
  end.

(** [Condition.prototype.nextObject] once the condition is known to be a
    function: the inner [next] retries until an item passes. *)
Fixpoint Condition_nextObject (fuel : nat) (condition : value -> bool)
  (u : U) : option (outcome * U) :=
  match fuel with
  | O => None
  | S fuel' =>
      match next u with
      | None => None
      | Some (Failed e, u') => Some (Failed e, u')
      | Some (Got item, u') =>
          if negb (truthy item) then Some (Got VUndefined, u')
          else if condition item then Some (Got item, u')
          else Condition_nextObject fuel' condition u'
      end
  end.

(** [Projection.prototype.nextObject] for a projection function *)
Definition Projection_nextObject (projection : value -> value) (u : U)
  : option (outcome * U) :=
  match next u with
  | None => None
  | Some (Failed e, u') => Some (Failed e, u')
  | Some (Got item, u') =>
      if negb (truthy item) then Some (Got VUndefined, u')
      else Some (Got (projection item), u')
  end.

(** The [iterator] of [Offset.prototype.nextObject]; [n] is [rest - 1] at
    the time the pulled item arrives, so [--rest > 0] reads [n = S _].
    The answer carries the new value of [ready]. *)
Fixpoint Offset_iterator (n : nat) (u : U) : option (outcome * (bool * U)) :=
  match next u with
  | None => None
  | Some (Failed e, u') => Some (Failed e, (false, u'))
  | Some (Got item, u') =>
      if negb (truthy item) then Some (Got VUndefined, (false, u'))
      else
        match n with
        | S n' => Offset_iterator n' u'
        | O =>
            match next u' with
            | None => None
            | Some (o, u'') => Some (o, (true, u''))
            end
        end
  end.

(** [Offset.prototype.nextObject] *)
Definition Offset_nextObject (offset : Z) (st : bool * U)
  : option (outcome * (bool * U)) :=
  let '(ready, u) := st in
  if (ready || (offset <=? 0)%Z)%bool then
    match next u with
    | None => None
    | Some (o, u') => Some (o, (ready, u'))
    end
  else Offset_iterator (Z.to_nat (offset - 1)) u.

(** [Limit.prototype.nextObject]: [this.rest-- > 0] *)
Definition Limit_nextObject (st : Z * U) : option (outcome * (Z * U)) :=
  let '(rest, u) := st in
  if (0 <? rest)%Z then
    match next u with
    | None => None
    | Some (o, u') => Some (o, ((rest - 1)%Z, u'))
    end
  else Some (Got VUndefined, ((rest - 1)%Z, u)).

End Stages.

(** ** The stage chain of a cursor *)

Section Cursor.

Variable coll : collection.

(** The compilers of the [obop] module, which the sources at hand do not
    include: [obop.where], [obop.view] and [obop.order] return the compiled
    value or throw.  [sorter] is whatever [obop.order] returns and [array_sort] is
    [list.sort(sorter)]. *)
Variable obop_where : arg (value -> bool) -> error + arg (value -> bool).
Variable obop_view : arg (value -> value) -> error + arg (value -> value).
Variable sorter : Type.
Variable obop_order : value -> error + sorter.
Variable array_sort : sorter -> list value -> list value.

Inductive stage : Type :=
| Source (slist : option (list string))
| Condition (source : stage) (condition : arg (value -> bool))
| Projection (source : stage) (projection : arg (value -> value))
| Sort (source : stage) (sort_by : error + sorter) (buffer : option (list value))
| Offset (source : stage) (offset : Z) (ready : bool)
| Limit (source : stage) (limit rest : Z).

(** The state a pull runs in: the stage and the log of storage calls. *)
Definition state : Type := stage * list call.

(** [Source.prototype.nextObject] once [this.list] is set *)
Definition Source_serve (l : list string) (w : list call) : outcome * state :=
  match l with
  | [] => (Got VUndefined, (Source (Some l), w))
  | id :: l' =>
      (match read coll id with inl e => Failed e | inr item => Got item end,
       (Source (Some l'), w ++ [Read id]))
  end.

(** [Source.prototype.nextObject] *)
Definition Source_nextObject (slist : option (list string)) (w : list call)
  : outcome * state :=
  match slist with
  | Some l => Source_serve l w
  | None =>
      match index coll with
      | inl e => (Failed e, (Source None, w ++ [Index]))
      | inr l => Source_serve l (w ++ [Index])
      end
  end.

Definition rewrap {A : Type} (f : A -> stage)
  (r : option (outcome * (A * list call))) : option (outcome * state) :=
  match r with
  | None => None
  | Some (o, (a, w)) => Some (o, (f a, w))
  end.

(** A stage state next to the upstream state, for the stages that keep
    fields of their own. *)
Definition with_field {A : Type} (r : option (outcome * (A * state)))
  : option (outcome * ((A * stage) * list call)) :=
  match r with
  | None => None
  | Some (o, (a, (s, w))) => Some (o, ((a, s), w))
  end.

(** [nextObject] of a stage *)
Fixpoint nextObject (fuel : nat) (st : state) {struct fuel}
  : option (outcome * state) :=
  match fuel with
  | O => None
  | S fuel' =>
      let '(s, w) := st in
      match s with
      | Source slist => Some (Source_nextObject slist w)
      | Condition source condition =>
          match condition with
          | AVal v => Some (Failed (Error "invalid condition: " (Some v)), st)
          | AFun f =>
              rewrap (fun source' => Condition source' condition)
                (Condition_nextObject (nextObject fuel') fuel' f (source, w))
          end
      | Projection source projection =>
          match projection with
          | AVal v => Some (Failed (Error "invalid projection: " (Some v)), st)
          | AFun f =>
              rewrap (fun source' => Projection source' projection)
                (Projection_nextObject (nextObject fuel') f (source, w))
          end
      | Sort source sort_by buffer =>
          match sort_by with
          | inl e => Some (Failed e, st)
          | inr by_ =>
              match buffer with
              | Some [] => Some (Got VUndefined, st)
              | Some (item :: l') =>
                  Some (Got item, (Sort source sort_by (Some l'), w))
              | None =>
                  match toArray (nextObject fuel') fuel' (source, w) [] with
                  | None => None
                  | Some (inl e, (source', w')) =>
                      Some (Failed e, (Sort source' sort_by None, w'))
                  | Some (inr l, (source', w')) =>
                      match array_sort by_ l with
                      | [] =>
                          Some (Got VUndefined,
                                (Sort source' sort_by (Some []), w'))
                      | item :: l' =>
                          Some (Got item, (Sort source' sort_by (Some l'), w'))
                      end
                  end
              end
          end
      | Offset source offset ready =>
          rewrap (fun a => Offset (snd a) offset (fst a))
            (with_field
               (Offset_nextObject (nextObject fuel') offset
                  (ready, (source, w))))
      | Limit source limit rest =>
          rewrap (fun a => Limit (snd a) limit (fst a))
            (with_field
               (Limit_nextObject (nextObject fuel') (rest, (source, w))))
      end
  end.

(** [rewind] of a stage *)
Fixpoint stage_rewind (s : stage) : stage :=
  match s with
  | Source _ => Source None
  | Condition source condition => Condition (stage_rewind source) condition
  | Projection source projection => Projection (stage_rewind source) projection
  | Sort source sort_by _ => Sort (stage_rewind source) sort_by None
  | Offset source offset _ => Offset (stage_rewind source) offset false
  | Limit source limit _ => Limit (stage_rewind source) limit limit
  end.

(** The cursor: [this.source] is the chain head; [this._source] is the
    [Source] the chain ends in. *)
Record Cursor : Type := {
  source : stage;
  _index : option (list string);
  _toArray : option (list value);
  _error : option error
}.

Definition set_source (c : Cursor) (s : stage) : Cursor :=
  {| source := s; _index := _index c; _toArray := _toArray c;
     _error := _error c |}.

Definition set_error (c : Cursor) (e : error) : Cursor :=
  {| source := source c; _index := _index c; _toArray := _toArray c;
     _error := Some e |}.

(** Truthiness of an argument: a function is truthy. *)
Definition truthy_arg {F : Type} (a : arg F) : bool :=
  match a with AFun _ => true | AVal v => truthy v end.

(** [function Cursor(collection, condition, projection)] *)
Definition new_Cursor (condition : arg (value -> bool))
  (projection : arg (value -> value)) : Cursor :=
  let c0 := {| source := Source None; _index := None; _toArray := None;
               _error := None |} in
  let c1 :=
    if truthy_arg condition then
      match obop_where condition with
      | inl e => set_error c0 e
      | inr condition' =>
          if truthy_arg condition'
          then set_source c0 (Condition (source c0) condition')
          else c0
      end
    else c0 in
  if truthy_arg projection then
    match obop_view projection with
    | inl e => set_error c1 e
    | inr projection' =>
        if truthy_arg projection'
        then set_source c1 (Projection (source c1) projection')
        else c1
    end
  else c1.

(** [this.source === this._source]: no stage was put on the [Source]. *)
Definition is_source (s : stage) : bool :=
  match s with Source _ => true | _ => false end.

(** [Cursor.prototype.index] *)
Definition Cursor_index (c : Cursor) (w : list call)
  : (error + list string) * (Cursor * list call) :=
  match _error c with
  | Some e => (inl e, (c, w))
  | None =>
      match _index c with
      | Some l => (inr l, (c, w))
      | None =>
          match index coll with
          | inl e => (inl e, (c, w ++ [Index]))
          | inr l =>
              (inr l,
               ({| source := source c; _index := Some l;
                   _toArray := _toArray c; _error := _error c |},
                w ++ [Index]))
          end
      end
  end.

(** [Cursor.prototype.toArray] *)
Definition Cursor_toArray (fuel : nat) (c : Cursor) (w : list call)
  : option ((error + list value) * (Cursor * list call)) :=
  match _error c with
  | Some e => Some (inl e, (c, w))
  | None =>
      match _toArray c with
      | Some l => Some (inr l, (c, w))
      | None =>
          match toArray (nextObject fuel) fuel (source c, w) [] with
          | None => None
          | Some (inl e, (s', w')) => Some (inl e, (set_source c s', w'))
          | Some (inr l, (s', w')) =>
              Some (inr l,
                    ({| source := s'; _index := _index c;
                        _toArray := Some l; _error := _error c |}, w'))
          end
      end
  end.

(** The [iterator] of [Cursor.prototype.each]: the outcomes handed to the
    callback, in order. *)
Fixpoint each_iterator (fuel : nat) (st : state) (seen : list outcome)
  : option (list outcome * state) :=
  match fuel with
  | O => None
  | S fuel' =>
      match nextObject fuel' st with
      | None => None
      | Some (Failed e, st') => Some (seen ++ [Failed e], st')
      | Some (Got item, st') =>
          if truthy item
          then each_iterator fuel' st' (seen ++ [Got item])
          else Some (seen ++ [Got item], st')
      end
  end.

(** [Cursor.prototype.each] *)
Definition Cursor_each (fuel : nat) (c : Cursor) (w : list call)
  : option (list outcome * (Cursor * list call)) :=
  match _error c with
  | Some e => Some ([Failed e], (c, w))
  | None =>
      match each_iterator fuel (source c, w) [] with
      | None => None
      | Some (seen, (s', w')) => Some (seen, (set_source c s', w'))
      end
  end.

(** [Cursor.prototype.count] *)
Definition Cursor_count (fuel : nat) (c : Cursor) (w : list call)
  : option ((error + nat) * (Cursor * list call)) :=
  match _error c with
  | Some e => Some (inl e, (c, w))
  | None =>
      if is_source (source c) then
        match Cursor_index c w with
        | (inl e, cw) => Some (inl e, cw)
        | (inr l, cw) => Some (inr (List.length l), cw)
        end
      else
        match Cursor_toArray fuel c w with
        | None => None
        | Some (inl e, cw) => Some (inl e, cw)
        | Some (inr l, cw) => Some (inr (List.length l), cw)
        end
  end.

(** [Cursor.prototype.sort], [offset], [limit], [rewind] *)
Definition Cursor_sort (c : Cursor) (o : value) : Cursor :=
  set_source c (Sort (source c) (obop_order o) None).

Definition Cursor_offset (c : Cursor) (offset : Z) : Cursor :=
  set_source c (Offset (source c) offset false).

Definition Cursor_limit (c : Cursor) (limit : Z) : Cursor :=
  set_source c (Limit (source c) limit limit).

Definition Cursor_rewind (c : Cursor) : Cursor :=
  set_source c (stage_rewind (source c)).

End Cursor.

Arguments Source {sorter} slist.
Arguments Condition {sorter} source condition.
Arguments Projection {sorter} source projection.
Arguments Sort {sorter} source sort_by buffer.
Arguments Offset {sorter} source offset ready.
Arguments Limit {sorter} source limit rest.
Arguments nextObject coll {sorter} array_sort fuel st.
Arguments stage_rewind {sorter} s.
Arguments source {sorter} c.
Arguments _index {sorter} c.
Arguments _toArray {sorter} c.
Arguments _error {sorter} c.
Arguments set_source {sorter} c s.
Arguments new_Cursor obop_where obop_view {sorter} condition projection.
Arguments is_source {sorter} s.
Arguments Cursor_index coll {sorter} c w.
Arguments Cursor_toArray coll {sorter} array_sort fuel c w.
Arguments each_iterator coll {sorter} array_sort fuel st seen.
Arguments Cursor_each coll {sorter} array_sort fuel c w.
Arguments Cursor_count coll {sorter} array_sort fuel c w.
Arguments Cursor_sort {sorter} obop_order c o.
Arguments Cursor_offset {sorter} c offset.
Arguments Cursor_limit {sorter} c limit.
Arguments Cursor_rewind {sorter} c.

End Lib.

(* ================================================================== *)
(** * memory.js: the volatile storage mixin *)

Module Memory.

Section Memory.

(** Methods the mixin calls on [this] and that other mixins provide:
    [escape], [unescape] (an identifier, or an [Error] instance as its
    return value), [encode] and, when present, [decode]. *)
Variable escape : string -> string.
Variable unescape : string -> error + string.
Variable encode : value -> error + value.
Variable decode : option (value -> error + value).

(** [SharedStore]: the stores shared in the process, by namespace. *)
Definition shared : Type := list (string * obj).

(** What [this._memory_store] refers to. *)
Inductive store_ref : Type :=
| Own (store : obj)
| Shared (ns : string).

Record instance : Type := {
  namespace : option string;
  _memory_store : option store_ref
}.

Definition world : Type := shared * instance.

Fixpoint shared_get (sh : shared) (ns : string) : option obj :=
  match sh with
  | [] => None
  | (n, o) :: sh' => if String.eqb ns n then Some o else shared_get sh' ns
  end.

Fixpoint shared_set (sh : shared) (ns : string) (o : obj) : shared :=
  match sh with
  | [] => [(ns, o)]
  | (n, o') :: sh' =>
      if String.eqb ns n then (n, o) :: sh' else (n, o') :: shared_set sh' ns o
  end.

(** [memory_store()]; an empty namespace is falsy. *)
Definition memory_store (sh : shared) (ns : option string)
  : store_ref * shared :=
  match ns with
  | Some n =>
      if truthy (VStr n) then
        match shared_get sh n with
        | Some _ => (Shared n, sh)
        | None => (Shared n, shared_set sh n [])
        end
      else (Own [], sh)
  | None => (Own [], sh)
  end.

Definition deref (sh : shared) (r : store_ref) : obj :=
  match r with
  | Own o => o
  | Shared n => match shared_get sh n with Some o => o | None => [] end
  end.

(** [var store = this._memory_store || (this._memory_store =
    this.memory_store())]: the store's content and the world in which the
    reference is bound. *)
Definition the_store (wd : world) : obj * world :=
  let '(sh, inst) := wd in
  match _memory_store inst with
  | Some r => (deref sh r, wd)
  | None =>
      let '(r, sh') := memory_store sh (namespace inst) in
      (deref sh' r,
       (sh', {| namespace := namespace inst; _memory_store := Some r |}))
  end.

(** Writing the content back through the reference. *)
Definition put_store (wd : world) (o : obj) : world :=
  let '(sh, inst) := wd in
  match _memory_store inst with
  | Some (Own _) =>
      (sh, {| namespace := namespace inst; _memory_store := Some (Own o) |})
  | Some (Shared n) => (shared_set sh n o, inst)
  | None => wd
  end.

Definition not_found : error := Error "Item not found" None.

Definition read (id : string) (wd : world) : (error + value) * world :=
  let '(store, wd') := the_store wd in
  let id := escape id in
  match decode with
  | Some dec => if has store id then (dec (get store id), wd')
                else (inl not_found, wd')
  | None => (inl not_found, wd')
  end.

Definition write (id : string) (item : value) (wd : world)
  : option error * world :=
  let '(store, wd') := the_store wd in
  let id := escape id in
  match encode item with
  | inl e => (Some e, wd')
  | inr item' => (None, put_store wd' (set store id item'))
  end.

Definition erase (id : string) (wd : world) : option error * world :=
  let '(store, wd') := the_store wd in
  let id := escape id in
  if has store id then (None, put_store wd' (delete store id))
  else (Some not_found, wd').

Definition exist (id : string) (wd : world) : bool * world :=
  let '(store, wd') := the_store wd in
  (has store (escape id), wd').

Definition is_Error (x : error + string) : bool :=
  match x with inl _ => true | inr _ => false end.

(** [index]: the list handed to the callback still has the type of what
    [unescape] returns. *)
Definition index (wd : world) : list (error + string) * world :=
  let '(store, wd') := the_store wd in
  let list := keys store in
  let list := map unescape list in
  let list := filter (fun id => negb (is_Error id)) list in
  (list, wd').

End Memory.

End Memory.

(* ================================================================== *)
(** * Result sequences of a stage *)

Module Runs.

Section Runs.

Context {U : Type}.
Variable next : Lib.pull U.

(** [serves u l u']: successive pulls from [u] hand over the items [l],
    each of them truthy, and leave the stage in [u']. *)
Inductive serves : U -> list value -> U -> Prop :=
| serves_nil : forall u, serves u [] u
| serves_cons : forall u item u1 l u',
    next u = Some (Got item, u1) ->
    truthy item = true ->
    serves u1 l u' ->
    serves u (item :: l) u'.

(** [ends u u']: the pull from [u] reports the end of the sequence, a
    falsy item and no error. *)
Definition ends (u u' : U) : Prop :=
  exists item, next u = Some (Got item, u') /\ truthy item = false.

(** [drains u l u']: the result sequence from [u] is [l]. *)
Definition drains (u : U) (l : list value) (u' : U) : Prop :=
  exists u1, serves u l u1 /\ ends u1 u'.

End Runs.

End Runs.

(* ================================================================== *)
(** * Instances used by the examples *)

Module Examples.

(** Modelled from the spec: [obop.where], the predicate compiler of
    section 4.1, is not part of the sources at hand.  A [null] or absent
    condition gives the predicate that is always true, a map the predicate
    that compares every declared field with [==], a function is returned
    unchanged, and any other type fails with the offending value. *)
Definition where_spec (condition : arg (value -> bool))
  : error + arg (value -> bool) :=
  match condition with
  | AFun f => inr (AFun f)
  | AVal VNull | AVal VUndefined => inr (AFun (fun _ => true))
  | AVal (VObj o) =>
      inr (AFun (fun d =>
                   forallb (fun k => prim_eq (get_prop d k) (get o k)) (keys o)))
  | AVal v => inl (Error "invalid condition: " (Some v))
  end.

(** An instance of [obop.view] that lets projection functions through and
    rejects every other projection. *)
Definition view_functions (projection : arg (value -> value))
  : error + arg (value -> value) :=
  match projection with
  | AFun f => inr (AFun f)
  | AVal v => inl (Error "invalid projection: " (Some v))
  end.

(** An instance of [obop.order] and [list.sort] that leaves the order of
    the items as it is. *)
Definition order_none (o : value) : error + unit := inr tt.
Definition sort_none (by_ : unit) (l : list value) : list value := l.

Definition doc (name : string) (price : float) : value :=
  VObj [("name", VStr name); ("price", VNum price)].

(** A collection of five items. *)
Definition shop : collection :=
  {| index := inr ["a"; "b"; "c"; "d"; "e"];
     read := fun id =>
       if String.eqb id "a" then inr (doc "apple" 1)
       else if String.eqb id "b" then inr (doc "bean" 2)
       else if String.eqb id "c" then inr (doc "corn" 3)
       else if String.eqb id "d" then inr (doc "date" 4)
       else if String.eqb id "e" then inr (doc "egg" 5)
       else inl (Error "Item not found" None) |}.

(** A collection whose second item cannot be read. *)
Definition broken : collection :=
  {| index := inr ["a"; "b"; "c"];
     read := fun id =>
       if String.eqb id "a" then inr (doc "apple" 1)
       else if String.eqb id "c" then inr (doc "corn" 3)
       else inl (Error "Item not found" None) |}.


(** An instance of [unescape] that fails on keys starting with a dot. *)
Definition unescape_dot (key : string) : error + string :=
  if String.prefix "." key
  then inl (Error "invalid key: " (Some (VStr key)))
  else inr key.

End Examples.

(* ================================================================== *)
(** * The wording of the specification *)

Module Wording.

(** Section 4.4: an operator's value is itself a map. *)
Definition spec_is_map (v : value) : bool :=
  match v with VObj _ => true | _ => false end.

(** Section 4.4: every top-level key is one of the six operators and holds
    a map. *)
Definition spec_valid_update (o : obj) : bool :=
  forallb (fun k => Update.mem k Update.ope && spec_is_map (get o k)) (keys o).

End Wording.

(* ================================================================== *)
(** * Property names that a document field can carry *)

Module Fields.

(** A plain field name: none of the names an object inherits from
    [Object.prototype].  Reading such a field of an object that does not
    own it gives [undefined], and assigning to it creates or overwrites an
    own property (an assignment to [__proto__] does not). *)
Definition plain (k : string) : Prop :=
  Update.mem k Update.object_prototype = false.

Definition all_plain (ks : list string) : Prop :=
  forall k, In k ks -> plain k.

(** The array that [$push] appends to: the field's array, a fresh one for
    an absent field, the one-element array of any other value. *)
Definition as_array (old : value) : list value :=
  match old with
  | VArr l => l
  | VUndefined => []
  | _ => [old]
  end.

End Fields.

(* ================================================================== *)
(** * core/base.js: classes and instances with parameters *)

Module Base.

(** What [for (key in v)] visits, with [v[key]]: the fields of an object,
    the elements of an array, the characters of a string; nothing for
    any other value. *)
Definition chars (s : string) : list value :=
  map (fun c => VStr (String c EmptyString)) (list_ascii_of_string s).

Definition enumerate (v : value) : obj :=
  match v with
  | VStr s => combine (map index_key (seq 0 (String.length s))) (chars s)
  | _ => props v
  end.

(** [for (key in args) { opts[key] = args[key]; }] *)
Definition assign_all (opts : obj) (args : value) : obj :=
  fold_left (fun o key => set o key (get (enumerate args) key))
    (keys (enumerate args)) opts.

(** [copy(parent)] *)
Definition copy (parent : value) : obj := assign_all [] parent.

(** The [options] property of a class or of an instance: an object, or
    absent. *)
Definition options_value (o : option obj) : value :=
  match o with Some opts => VObj opts | None => VUndefined end.

(** [x.options || (x.options = {})] *)
Definition opts_of (o : option obj) : obj :=
  match o with Some opts => opts | None => [] end.

(** A class made by [inherit]: the state it carries is [child.options]. *)
Record class : Type := { options : option obj }.

(** [function KagoDB() {}]: the root has no [options]. *)
Definition KagoDB : class := {| options := None |}.

(** [inherit(parent)]: [child.options = copy(parent.options)] *)
Definition inherit (parent : class) : class :=
  {| options := Some (copy (options_value (options parent))) |}.

(** [child.get(key)] and [child.set(key, val)] *)
Definition child_get (child : class) (key : string) : value * class :=
  let opts := opts_of (options child) in
  (get opts key, {| options := Some opts |}).

Definition child_set (child : class) (key : string) (val : value) : class :=
  let opts := opts_of (options child) in
  {| options := Some (set opts key val) |}.

(** An instance: the state it carries is [this.options]. *)
Record instance : Type := { this_options : option obj }.

(** [KagoDB.prototype.get] *)
Definition prototype_get (this : instance) (key : string)
  : value * instance :=
  let opts := opts_of (this_options this) in
  (get opts key, {| this_options := Some opts |}).

(** The arguments of a call of [set]: a parameter name and a value, one
    argument, or any other number of arguments. *)
Inductive arguments : Type :=
| Pair (key : string) (val : value)
| Single (key : value)
| Other.

(** [KagoDB.prototype.set] *)
Definition prototype_set (this : instance) (args : arguments) : instance :=
  let opts := opts_of (this_options this) in
  match args with
  | Pair key val =>
      if truthy (VStr key)
      then {| this_options := Some (set opts key val) |}
      else {| this_options := Some opts |}
  | Single key =>
      if truthy key
      then {| this_options := Some (assign_all opts key) |}
      else {| this_options := Some opts |}
  | Other => {| this_options := Some opts |}
  end.

(** [new child(options)], which is also [child(options)] and
    [child.build(options)]: [this.set(child.options); this.set(options)] *)
Definition build (child : class) (opts : value) : instance :=
  let this := {| this_options := None |} in
  let this := prototype_set this (Single (options_value (options child))) in
  prototype_set this (Single opts).

End Base.

(* ================================================================== *)
(** * deny.js: methods that are not allowed *)

Module Deny.



Section Deny.

(** [parseInt(col, 10)]; [None] stands for [NaN]. *)
Variable parseInt : value -> option Z.






End Deny.

End Deny.

(* ================================================================== *)
(** * webapi.js: the request pipeline

    A job [function(req, res, next)] either calls [next()], perhaps after
    changing the request, calls [next(err)], answers with [res.send], or
    does none of these.  Events emitted on the collection have no
    listener in these sources and are left out. *)

Module Webapi.

Record request : Type := {
  method : string;
  param : string -> value;
  body : value
}.

(** The argument of [res.send]: a status code or the data to send. *)
Inductive sent : Type :=
| Code (status : Z)
| Payload (data : value).

Inductive step : Type :=
| Next (req : request)
| NextErr (err : error)
| Sent (r : sent)
| Stray.

(** The end of a run: [next()], [next(err)], an answer, or nothing. *)
Inductive ending : Type :=
| Passed
| PassedErr (err : error)
| Answered (r : sent)
| Silent.

Definition lower_ascii (c : ascii) : ascii :=
  let n := nat_of_ascii c in
  if ((65 <=? n) && (n <=? 90))%nat then ascii_of_nat (n + 32) else c.

(** [toLowerCase] on the letters of a request method *)
Fixpoint toLowerCase (s : string) : string :=
  match s with
  | EmptyString => EmptyString
  | String c s' => String (lower_ascii c) (toLowerCase s')
  end.

(** [var success = { success: true }] *)
Definition success : value := VObj [("success", VBool true)].

Section Webapi.

(** The state of the storage behind the collection. *)
Variable S : Type.

(** The storage methods of the collection that the handlers call; the
    identifier is handed over as the request has it. *)
Record kagodb : Type := {
  db_exist : value -> S -> (error + bool) * S;
  db_read : value -> S -> (error + value) * S;
  db_write : value -> value -> S -> option error * S;
  db_erase : value -> S -> option error * S;
  db_index : S -> (error + value) * S
}.

Variable collection : kagodb.

(** [JSON.parse], which returns the value or throws. *)
Variable JSON_parse : string -> error + value.

(** How a value that is no string prints when it is used as a property
    name. *)
Variable print : value -> string.

Definition job : Type := request -> S -> step * S.

(** [express.bodyParser()] *)
Variable bodyParser : job.

(** The handlers of [WebapiMethods] that are not spelled out here
    ([find], [findOne], [count], [insert], [save], [update],
    [findAndModify], [remove]) and whatever else a name finds in the
    table. *)
Variable other_methods : string -> option job.

(** [function NOOP(req, res, next) { next(); }] *)
Definition NOOP : job := fun req s => (Next req, s).

(** [MiniApp.prototype.verb] *)
Definition verb (v : string) (j : job) : job :=
  fun req s =>
    if String.eqb (toLowerCase (method req)) v then j req s
    else (Next req, s).

(** [MiniApp.prototype.run] over the queue that [use] and [verb] filled;
    [None] is a job that is falsy. *)
Fixpoint run (queue : list (option job)) (req : request) (s : S)
  : ending * S :=
  match queue with
  | [] => (Passed, s)
  | None :: _ => (Passed, s)
  | Some j :: queue' =>
      match j req s with
      | (Next req', s') => run queue' req' s'
      | (NextErr e, s') => (PassedErr e, s')
      | (Sent r, s') => (Answered r, s')
      | (Stray, s') => (Silent, s')
      end
  end.

(** [api.parse] *)
Definition api_parse (v : value) : error + value :=
  match v with
  | VStr s => JSON_parse s
  | _ => inr v
  end.

(** [parse_content(req, res, next)] *)
Definition parse_content (req : request) (next : value -> S -> step * S)
  (s : S) : step * S :=
  let content := param req "content" in
  let content :=
    if negb (truthy content) && String.eqb (toLowerCase (method req)) "put"
    then body req
    else content in
  match api_parse content with
  | inl _ => (Sent (Code 400), s)
  | inr content =>
      if negb (truthy content) || negb (String.eqb "object" (typeof content))
      then (Sent (Code 400), s)
      else
        match own_keys content with
        | [] => (Sent (Code 400), s)
        | _ => next content s
        end
  end.

(** [res.send(err ? 500 : data)] *)
Definition answer (err : option error) (data : value) : step :=
  match err with
  | Some _ => Sent (Code 500)
  | None => Sent (Payload data)
  end.

(** [WebapiMethods.prototype.read] *)
Definition read : job :=
  fun req s =>
    let id := param req "id" in
    if negb (truthy id) then (Next req, s)
    else
      match db_exist collection id s with
      | (inl _, s1) => (Sent (Code 500), s1)
      | (inr false, s1) => (Sent (Code 404), s1)
      | (inr true, s1) =>
          match db_read collection id s1 with
          | (inl _, s2) => (Sent (Code 500), s2)
          | (inr item, s2) => (Sent (Payload item), s2)
          end
      end.

(** [WebapiMethods.prototype.write] *)
Definition write : job :=
  fun req s =>
    let id := param req "id" in
    if negb (truthy id) then (Next req, s)
    else
      parse_content req
        (fun content s1 =>
           let '(err, s2) := db_write collection id content s1 in
           (answer err success, s2))
        s.

(** [WebapiMethods.prototype.erase] *)
Definition erase : job :=
  fun req s =>
    let id := param req "id" in
    if negb (truthy id) then (Next req, s)
    else
      let '(err, s1) := db_erase collection id s in
      (answer err success, s1).

(** [WebapiMethods.prototype.exist] *)
Definition exist : job :=
  fun req s =>
    let id := param req "id" in
    if negb (truthy id) then (Next req, s)
    else
      match db_exist collection id s with
      | (inl _, s1) => (Sent (Code 500), s1)
      | (inr b, s1) => (Sent (Payload (VObj [("exist", VBool b)])), s1)
      end.

(** [WebapiMethods.prototype.index] *)
Definition index : job :=
  fun req s =>
    match db_index collection s with
    | (inl _, s1) => (Sent (Code 500), s1)
    | (inr l, s1) => (Sent (Payload (VObj [("index", l)])), s1)
    end.

(** [api.methods]: the table of handlers by name. *)
Definition methods (name : string) : option job :=
  if String.eqb name "read" then Some read
  else if String.eqb name "write" then Some write
  else if String.eqb name "erase" then Some erase
  else if String.eqb name "exist" then Some exist
  else if String.eqb name "index" then Some index
  else other_methods name.

(** [api.dispatch(methods)] *)
Definition dispatch (table : string -> option job) : job :=
  fun req s =>
    let m := param req "method" in
    if negb (truthy m) then (Next req, s)
    else
      let name := match m with VStr name => name | _ => print m end in
      match table name with
      | Some func => func req s
      | None => (Next req, s)
      end.

(** [api.error(code)]: [res.send(code || 500)] *)
Definition error_job (code : Z) : job :=
  fun req s => (Sent (Code (if (code =? 0)%Z then 500%Z else code)), s).

(** The function [api] that [webapi()] returns.  [api.prepare()] and
    [api.cleanup()] attach the collection and the api to the request and
    detach them again; the handlers here take both from the section, so
    the two jobs only pass the request on. *)
Definition api (req : request) (s : S) : ending * S :=
  run [Some bodyParser;
       Some NOOP;
       Some NOOP;
       Some (verb "put" write);
       Some (verb "delete" erase);
       Some (dispatch methods);
       Some (verb "head" read);
       Some (verb "get" read);
       Some NOOP;
       Some (error_job 400)] req s.

End Webapi.

Arguments db_exist {S} k id s.
Arguments db_read {S} k id s.
Arguments db_write {S} k id item s.
Arguments db_erase {S} k id s.
Arguments db_index {S} k s.

End Webapi.

(* ================================================================== *)
(** * More instances for the examples *)

Module Samples.

(** [d.price] as a number *)
Definition price (d : value) : float :=
  match get_prop d "price" with VNum n => n | _ => zero end.

Fixpoint insert_by (before : value -> value -> bool) (x : value)
  (l : list value) : list value :=
  match l with
  | [] => [x]
  | y :: l' => if before y x then y :: insert_by before x l' else x :: l
  end.

(** An instance of [list.sort(sorter)]: insertion sort. *)
Definition sort_by (before : value -> value -> bool) (l : list value)
  : list value :=
  fold_right (insert_by before) [] l.

(** An instance of [obop.order]: [{price: 1}] and [{price: -1}] order by
    price, upwards and downwards; anything else is refused. *)
Definition order_by_price (o : value) : error + (value -> value -> bool) :=
  match get_prop o "price" with
  | VNum n =>
      if PrimFloat.ltb n zero
      then inr (fun a b => PrimFloat.leb (price b) (price a))
      else inr (fun a b => PrimFloat.leb (price a) (price b))
  | _ => inl (Error "invalid order: " (Some o))
  end.

(** A collection over the memory storage: identifiers are strings, kept
    as they are, and items are stored as they are. *)
Definition ident (s : string) : string := s.

Definition memory_db : Webapi.kagodb Memory.world :=
  {| Webapi.db_exist := fun id wd =>
       match id with
       | VStr i => let '(b, wd') := Memory.exist ident i wd in (inr b, wd')
       | _ => (inl (Error "invalid id: " (Some id)), wd)
       end;
     Webapi.db_read := fun id wd =>
       match id with
       | VStr i => Memory.read ident (Some inr) i wd
       | _ => (inl (Error "invalid id: " (Some id)), wd)
       end;
     Webapi.db_write := fun id item wd =>
       match id with
       | VStr i => Memory.write ident inr i item wd
       | _ => (Some (Error "invalid id: " (Some id)), wd)
       end;
     Webapi.db_erase := fun id wd =>
       match id with
       | VStr i => Memory.erase ident i wd
       | _ => (Some (Error "invalid id: " (Some id)), wd)
       end;
     Webapi.db_index := fun wd =>
       let '(l, wd') := Memory.index (fun k => inr k) wd in
       (inr (VArr (flat_map (fun x => match x with
                                      | inr id => [VStr id]
                                      | inl _ => []
                                      end) l)), wd') |}.

(** A request with the given method, parameters and body. *)
Definition request_of (verb : string) (params : obj) (content : value)
  : Webapi.request :=
  {| Webapi.method := verb;
     Webapi.param := get params;
     Webapi.body := content |}.

End Samples.

(* ================================================================== *)
(** * Pulls that come to an end *)

Module Halting.

Section Halting.

Context {U : Type}.
Variable next : Lib.pull U.

(** An outcome after which no consumer pulls again: an error or a falsy
    item. *)
Definition stops (o : outcome) : Prop :=
  match o with
  | Failed _ => True
  | Got item => truthy item = false
  end.

(** [halts_in n u]: pulling from [u] again and again, every pull comes
    back, and one of the first [n] pulls stops. *)
Inductive halts_in : nat -> U -> Prop :=
| halts_stop : forall n u o u',
    next u = Some (o, u') -> stops o -> halts_in (S n) u
| halts_step : forall n u item u',
    next u = Some (Got item, u') ->
    truthy item = true ->
    halts_in n u' ->
    halts_in (S n) u.

End Halting.

End Halting.

(* ================================================================== *)
(** * Properties *)

(** ** Objects as association lists *)

Lemma mem_In (k : string) (l : list string) : Update.mem k l = true <-> In k l.
Proof.
  unfold Update.mem. rewrite existsb_exists. split.
  - intros [x [Hin Heq]]. apply String.eqb_eq in Heq. now subst.
  - intros Hin. exists k. split; [assumption | apply String.eqb_refl].
Qed.

Lemma mem_not_In (k : string) (l : list string) :
  Update.mem k l = false <-> ~ In k l.
Proof.
  rewrite <- mem_In. destruct (Update.mem k l); split; congruence.
Qed.

Lemma keys_NoDup (o : obj) : NoDup (keys o).
Proof.
  induction o as [|[k v] o IH]; simpl.
  - constructor.
  - constructor.
    + rewrite filter_In. intros [_ H]. now rewrite String.eqb_refl in H.
    + now apply NoDup_filter.
Qed.

Lemma get_set_same (o : obj) (k : string) (v : value) : get (set o k v) k = v.
Proof.
  unfold get. induction o as [|[k' v'] o IH]; simpl.
  - now rewrite String.eqb_refl.
  - destruct (String.eqb k k') eqn:E; simpl.
    + now rewrite String.eqb_refl.
    + now rewrite E.
Qed.

Lemma get_set_other (o : obj) (k k' : string) (v : value) :
  k <> k' -> get (set o k v) k' = get o k'.
Proof.
  intros Hne. unfold get. induction o as [|[k0 v0] o IH]; simpl.
  - apply String.eqb_neq in Hne. rewrite String.eqb_sym in Hne. now rewrite Hne.
  - destruct (String.eqb k k0) eqn:E; simpl.
    + apply String.eqb_eq in E. subst k0.
      apply String.eqb_neq in Hne. rewrite String.eqb_sym in Hne.
      now rewrite Hne.
    + destruct (String.eqb k' k0); [reflexivity | exact IH].
Qed.

(** ** update.js *)

Section UpdateFacts.

Variable loose_eq : value -> value -> bool.

Lemma check_operators_None (u : value) (ks : list string) :
  Update.check_operators u ks = None <->
  forall k, In k ks -> Update.passes u k = true.
Proof.
  induction ks as [|k ks IH]; cbn [Update.check_operators].
  - split; [intros _ k [] | reflexivity].
  - destruct (Update.passes u k) eqn:E.
    + rewrite IH. split.
      * intros H k' [<-|Hin]; [exact E | now apply H].
      * intros H k' Hin. apply H. now right.
    + split; [discriminate|].
      intros H. specialize (H k (or_introl eq_refl)). congruence.
Qed.

Lemma check_operators_Some (u : value) (ks : list string) (key : string) :
  Update.check_operators u ks = Some key ->
  exists before after,
    ks = before ++ key :: after /\ Update.passes u key = false /\
    forall k, In k before -> Update.passes u k = true.
Proof.
  induction ks as [|k ks IH]; cbn [Update.check_operators];
    [discriminate|].
  destruct (Update.passes u k) eqn:E.
  - intros H. destruct (IH H) as (b & a & -> & Hk & Hb).
    exists (k :: b), a. split; [reflexivity|]. split; [exact Hk|].
    intros k' [<-|Hin]; [exact E | now apply Hb].
  - intros [= <-]. exists [], ks. split; [reflexivity|]. split; [exact E|].
    intros k' [].
Qed.


End UpdateFacts.

(** C7, as stated, fails: [{$set: null}] compiles although [null] is no map
    ([typeof null] is ['object']); the compiled function then skips [$set]. *)
Lemma update_accepts_null_operand :
  Wording.spec_valid_update [("$set", VNull)] = false /\
  Update.update prim_eq (AVal (VObj [("$set", VNull)])) =
    inr (Some (Update.mutator prim_eq (VObj [("$set", VNull)]))) /\
  Update.mutator prim_eq (VObj [("$set", VNull)]) (VObj [("a", VNum 1)]) =
    VObj [("a", VNum 1)].
Proof. repeat split; reflexivity. Qed.

(** A key that names a member of [Object.prototype] passes the test
    [ope[key]] although it is none of the six operators. *)
Lemma update_accepts_inherited_name :
  Update.mem "constructor" Update.ope = false /\
  Update.update prim_eq (AVal (VObj [("constructor", VObj [])])) =
    inr (Some (Update.mutator prim_eq (VObj [("constructor", VObj [])]))) /\
  Update.update prim_eq (AVal (VObj [("$add", VObj [])])) =
    inl (Error "invalid update operator: " (Some (VStr "$add"))).
Proof. repeat split; reflexivity. Qed.

(** C7 (amended): for an update specification object none of whose keys
    names a member of [Object.prototype], compilation succeeds exactly when
    every top-level key is one of the six operators and its value has
    [typeof] ['object'] (a map, an array or [null]); otherwise it throws
    ['invalid update operator: ' + key] for the first key, in enumeration
    order, that is no operator or whose value is no such object. *)
Theorem update_operator_validation :
  forall (loose_eq : value -> value -> bool) (o : obj),
    (forall k, In k (keys o) -> Update.mem k Update.object_prototype = false) ->
    match Update.update loose_eq (AVal (VObj o)) with
    | inr r =>
        r = Some (Update.mutator loose_eq (VObj o)) /\
        forall k, In k (keys o) ->
          Update.mem k Update.ope = true /\ typeof (get o k) = "object"
    | inl e =>
        exists key before after,
          keys o = before ++ key :: after /\
          e = Error "invalid update operator: " (Some (VStr key)) /\
          (Update.mem key Update.ope = false \/ typeof (get o key) <> "object") /\
          forall k, In k before ->
            Update.mem k Update.ope = true /\ typeof (get o k) = "object"
    end.
Proof.
  intros loose_eq o Hproto.
  assert (Hpass : forall k, In k (keys o) ->
            (Update.passes (VObj o) k = true <->
             Update.mem k Update.ope = true /\ typeof (get o k) = "object")).
  { intros k Hin. unfold Update.passes, Update.ope_lookup.
    rewrite (Hproto k Hin).
    rewrite orb_false_r, andb_true_iff, String.eqb_eq.
    unfold get_prop; cbn [props]. intuition congruence. }
  unfold Update.update, or_else. cbn [truthy negb typeof].
  change (own_keys (VObj o)) with (keys o).
  rewrite String.eqb_refl. cbn [negb].
  destruct (Update.check_operators (VObj o) (keys o)) as [key|] eqn:E.
  - apply check_operators_Some in E.
    destruct E as (before & after & Hks & Hkey & Hbefore).
    exists key, before, after. split; [exact Hks|]. split; [reflexivity|].
    assert (Hin : In key (keys o)).
    { rewrite Hks. apply in_or_app. right. now left. }
    split.
    + destruct (Update.mem key Update.ope) eqn:Em; [right | now left].
      intros Hty.
      assert (Hp : Update.passes (VObj o) key = true).
      { apply (Hpass key Hin). split; [exact Em | exact Hty]. }
      congruence.
    + intros k Hk. apply Hpass.
      * rewrite Hks. apply in_or_app. now left.
      * now apply Hbefore.
  - split; [reflexivity|].
    intros k Hin. apply Hpass; [exact Hin|].
    now apply (proj1 (check_operators_None (VObj o) (keys o)) E).
Qed.

Lemma update_operator_validation_witness :
  let o := [("$set", VObj [("a", VNum 1)]); ("$inc", VNull)] in
  (forall k, In k (keys o) -> Update.mem k Update.object_prototype = false) /\
  (forall k, In k (keys o) ->
     Update.mem k Update.ope = true /\ typeof (get o k) = "object").
Proof.
  intros o.
  assert (H : forall k, In k (keys o) ->
                Update.mem k Update.object_prototype = false).
  { intros k [<-|[<-|[]]]; reflexivity. }
  split; [exact H|].
  pose proof (update_operator_validation prim_eq o H) as T.
  destruct (Update.update prim_eq (AVal (VObj o))) as [e|r] eqn:E.
  - cbv in E. discriminate E.
  - exact (proj2 T).
Defined.


(** ** core/cursor.js: the condition parser *)



(** C9, as stated, fails on the falsy values: [0], [false] and the empty
    string are replaced by [{}] ([condition || {}]) and compile to the
    predicate that is always true. *)
Lemma parseConditoin_accepts_falsy :
  Core.parseConditoin prim_eq (AVal (VNum 0)) = inr (fun _ => true) /\
  Core.parseConditoin prim_eq (AVal (VBool false)) = inr (fun _ => true) /\
  Core.parseConditoin prim_eq (AVal (VStr "")) = inr (fun _ => true).
Proof. repeat split; reflexivity. Qed.

(** C9 (amended): a condition value that is neither an object nor [null]
    nor a function makes the parser throw ['unknown condition: ' + value]
    when it is truthy ([true], a number other than 0 and NaN, a non-empty
    string); when it is falsy it is treated like an absent condition and
    compiles to the predicate that is always true. *)
Theorem parseConditoin_other_types :
  forall (loose_eq : value -> value -> bool) (c : value),
    typeof c <> "object" ->
    Core.parseConditoin loose_eq (AVal c) =
    if truthy c
    then inl (Error "unknown condition: " (Some c))
    else inr (fun _ => true).
Proof.
  intros loose_eq c Hty. unfold Core.parseConditoin, or_else.
  destruct (truthy c) eqn:Et.
  - destruct c; cbn [typeof] in *; try reflexivity; try discriminate;
      now contradiction Hty.
  - reflexivity.
Qed.

Lemma parseConditoin_other_types_witness :
  typeof (VStr "x") <> "object" /\
  Core.parseConditoin prim_eq (AVal (VStr "x")) =
    inl (Error "unknown condition: " (Some (VStr "x"))).
Proof.
  split; [discriminate|].
  apply (parseConditoin_other_types prim_eq (VStr "x")). discriminate.
Defined.

(** ** memory.js: [index] *)

Lemma index_filter_map (unescape : string -> error + string) (ks : list string) :
  filter (fun id => negb (Memory.is_Error id)) (map unescape ks) =
  map inr (flat_map (fun k => match unescape k with
                              | inl _ => []
                              | inr id => [id]
                              end) ks).
Proof.
  induction ks as [|k ks IH]; cbn [map filter flat_map]; [reflexivity|].
  destruct (unescape k) as [e|id]; cbn [Memory.is_Error negb app map].
  - exact IH.
  - now rewrite IH.
Qed.

(** C10: [index] of the in-memory backend hands back, in unescaped form
    and in the order of the keys, exactly the stored keys on which
    [unescape] does not return an [Error]:
    every element of the list is an identifier, an identifier is listed iff
    it is the unescaped form of a stored key, a key on which [unescape]
    fails contributes nothing, and the list is never longer, and with such
    a key strictly shorter, than the number of stored keys. *)
Theorem memory_index_lists_unescaped_keys :
  forall (unescape : string -> error + string) (wd : Memory.world),
    let store := fst (Memory.the_store wd) in
    let listed := fst (Memory.index unescape wd) in
    snd (Memory.index unescape wd) = snd (Memory.the_store wd) /\
    listed = map inr (flat_map (fun k => match unescape k with
                                         | inl _ => []
                                         | inr id => [id]
                                         end) (keys store)) /\
    (forall x, In x listed -> exists id, x = inr id) /\
    (forall id, In (inr id) listed <->
                exists k, In k (keys store) /\ unescape k = inr id) /\
    (forall e, ~ In (inl e) listed) /\
    (List.length listed <= List.length (keys store))%nat /\
    ((exists k e, In k (keys store) /\ unescape k = inl e) ->
     (List.length listed < List.length (keys store))%nat).
Proof.
  intros unescape wd store listed.
  assert (Hl : listed =
               filter (fun id => negb (Memory.is_Error id))
                      (map unescape (keys store))).
  { unfold listed, store, Memory.index.
    now destruct (Memory.the_store wd) as [st wd']. }
  split.
  { unfold Memory.index. now destruct (Memory.the_store wd). }
  split.
  { rewrite Hl. apply index_filter_map. }
  split.
  { intros x Hx. rewrite Hl in Hx. apply filter_In in Hx.
    destruct Hx as [_ Hx]. destruct x as [e|id]; [discriminate|now exists id]. }
  split.
  { intros id. rewrite Hl, filter_In, in_map_iff. split.
    - intros [(k & Hk & Hin) _]. now exists k.
    - intros (k & Hin & Hk). split; [now exists k | reflexivity]. }
  split.
  { intros e He. rewrite Hl in He. apply filter_In in He.
    now destruct He as [_ He]. }
  split.
  { rewrite Hl. etransitivity; [apply filter_length_le|].
    now rewrite length_map. }
  intros (k & e & Hin & Hk). rewrite Hl. clear Hl listed.
  induction (keys store) as [|k0 ks IH]; [contradiction|].
  cbn [map filter List.length].
  destruct Hin as [->|Hin].
  - rewrite Hk. cbn [Memory.is_Error negb].
    apply Nat.lt_succ_r. etransitivity; [apply filter_length_le|].
    now rewrite length_map.
  - specialize (IH Hin).
    destruct (negb (Memory.is_Error (unescape k0))); cbn [List.length]; lia.
Qed.

(** ** Fuel

    An answer obtained with some fuel is the answer with any larger fuel. *)

Section FuelFacts.

Context {U : Type}.
Variables next1 next2 : Lib.pull U.
Hypothesis next_extends : forall u r, next1 u = Some r -> next2 u = Some r.

Lemma toArray_more_fuel (fuel fuel' : nat) (u : U) (buf : list value) r :
  Lib.toArray next1 fuel u buf = Some r ->
  (fuel <= fuel')%nat ->
  Lib.toArray next2 fuel' u buf = Some r.
Proof.
  revert fuel' u buf. induction fuel as [|fuel IH]; intros fuel' u buf H Hle;
    cbn [Lib.toArray] in H; [discriminate|].
  destruct fuel' as [|fuel']; [lia|]. cbn [Lib.toArray].
  destruct (next1 u) as [[[e|item] u']|] eqn:E; try discriminate;
    rewrite (next_extends _ _ E); [exact H|].
  destruct (negb (truthy item)); [exact H|].
  apply (IH fuel' u' _ H). lia.
Qed.

Lemma Condition_more_fuel (fuel fuel' : nat) (g : value -> bool) (u : U) r :
  Lib.Condition_nextObject next1 fuel g u = Some r ->
  (fuel <= fuel')%nat ->
  Lib.Condition_nextObject next2 fuel' g u = Some r.
Proof.
  revert fuel' u. induction fuel as [|fuel IH]; intros fuel' u H Hle;
    cbn [Lib.Condition_nextObject] in H; [discriminate|].
  destruct fuel' as [|fuel']; [lia|]. cbn [Lib.Condition_nextObject].
  destruct (next1 u) as [[[e|item] u']|] eqn:E; try discriminate;
    rewrite (next_extends _ _ E); [exact H|].
  destruct (negb (truthy item)); [exact H|].
  destruct (g item); [exact H|].
  apply (IH fuel' u' H). lia.
Qed.

Lemma Projection_extends (p : value -> value) (u : U) r :
  Lib.Projection_nextObject next1 p u = Some r ->
  Lib.Projection_nextObject next2 p u = Some r.
Proof.
  unfold Lib.Projection_nextObject.
  destruct (next1 u) as [[[e|item] u']|] eqn:E; try discriminate;
    now rewrite (next_extends _ _ E).
Qed.

Lemma Offset_iterator_extends (n : nat) (u : U) r :
  Lib.Offset_iterator next1 n u = Some r ->
  Lib.Offset_iterator next2 n u = Some r.
Proof.
  revert u. induction n as [|n IH]; intros u; cbn [Lib.Offset_iterator];
    destruct (next1 u) as [[[e|item] u']|] eqn:E; try discriminate;
    rewrite (next_extends _ _ E); try (intros H; exact H);
    destruct (negb (truthy item)); try (intros H; exact H).
  - destruct (next1 u') as [[o u'']|] eqn:E'; [|discriminate].
    now rewrite (next_extends _ _ E').
  - apply IH.
Qed.

Lemma Offset_extends (offset : Z) (st : bool * U) r :
  Lib.Offset_nextObject next1 offset st = Some r ->
  Lib.Offset_nextObject next2 offset st = Some r.
Proof.
  destruct st as [ready u]. cbn [Lib.Offset_nextObject].
  destruct (ready || (offset <=? 0)%Z)%bool.
  - destruct (next1 u) as [[o u']|] eqn:E; [|discriminate].
    now rewrite (next_extends _ _ E).
  - apply Offset_iterator_extends.
Qed.

Lemma Limit_extends (st : Z * U) r :
  Lib.Limit_nextObject next1 st = Some r ->
  Lib.Limit_nextObject next2 st = Some r.
Proof.
  destruct st as [rest u]. cbn [Lib.Limit_nextObject].
  destruct (0 <? rest)%Z; [|intros H; exact H].
  destruct (next1 u) as [[o u']|] eqn:E; [|discriminate].
  now rewrite (next_extends _ _ E).
Qed.

End FuelFacts.

Lemma nextObject_more_fuel (coll : collection) (sorter : Type)
  (array_sort : sorter -> list value -> list value) (fuel fuel' : nat)
  (st : Lib.state sorter) r :
  Lib.nextObject coll array_sort fuel st = Some r ->
  (fuel <= fuel')%nat ->
  Lib.nextObject coll array_sort fuel' st = Some r.
Proof.
  revert fuel' st r. induction fuel as [|fuel IH]; intros fuel' st r H Hle;
    [discriminate|].
  destruct fuel' as [|fuel']; [lia|].
  assert (Hext : forall u x,
             Lib.nextObject coll array_sort fuel u = Some x ->
             Lib.nextObject coll array_sort fuel' u = Some x).
  { intros u x Hx. apply (IH fuel' u x Hx). lia. }
  destruct st as [s w]. cbn [Lib.nextObject] in H |- *.
  destruct s as [slist | src cond | src proj | src by_ buffer
                | src offset ready | src limit rest].
  - exact H.
  - destruct cond as [g|v]; [|exact H].
    unfold Lib.rewrap in *.
    destruct (Lib.Condition_nextObject (Lib.nextObject coll array_sort fuel) fuel g (src, w))
      as [x|] eqn:E;
      [|discriminate].
    rewrite (Condition_more_fuel _ _ Hext fuel fuel' g _ x E) by lia.
    exact H.
  - destruct proj as [p|v]; [|exact H].
    unfold Lib.rewrap in *.
    destruct (Lib.Projection_nextObject (Lib.nextObject coll array_sort fuel) p (src, w))
      as [x|] eqn:E;
      [|discriminate].
    rewrite (Projection_extends _ _ Hext p _ x E). exact H.
  - destruct by_ as [e|by_]; [exact H|].
    destruct buffer as [[|item l']|]; try exact H.
    destruct (Lib.toArray (Lib.nextObject coll array_sort fuel) fuel (src, w) [])
      as [x|] eqn:E; [|discriminate].
    rewrite (toArray_more_fuel _ _ Hext fuel fuel' _ _ x E) by lia.
    exact H.
  - unfold Lib.rewrap, Lib.with_field in *.
    destruct (Lib.Offset_nextObject (Lib.nextObject coll array_sort fuel) offset
                (ready, (src, w))) as [x|] eqn:E;
      [|discriminate].
    rewrite (Offset_extends _ _ Hext offset _ x E). exact H.
  - unfold Lib.rewrap, Lib.with_field in *.
    destruct (Lib.Limit_nextObject (Lib.nextObject coll array_sort fuel) (rest, (src, w)))
      as [x|] eqn:E;
      [|discriminate].
    rewrite (Limit_extends _ _ Hext _ x E). exact H.
Qed.

(** [toArray] on a cursor: more fuel, same answer. *)
Lemma Cursor_toArray_more_fuel (coll : collection) (sorter : Type)
  (array_sort : sorter -> list value -> list value) (fuel fuel' : nat)
  (c : Lib.Cursor sorter) (w : list call) r :
  Lib.Cursor_toArray coll array_sort fuel c w = Some r ->
  (fuel <= fuel')%nat ->
  Lib.Cursor_toArray coll array_sort fuel' c w = Some r.
Proof.
  intros H Hle. unfold Lib.Cursor_toArray in *.
  destruct (Lib._error c); [exact H|].
  destruct (Lib._toArray c); [exact H|].
  destruct (Lib.toArray (Lib.nextObject coll array_sort fuel) fuel (Lib.source c, w) [])
    as [x|] eqn:E;
    [|discriminate].
  rewrite (toArray_more_fuel _ _
             (fun u y Hy => nextObject_more_fuel coll sorter array_sort
                              fuel fuel' u y Hy Hle)
             fuel fuel' _ _ x E Hle).
  exact H.
Qed.

(** ** lib/core/cursor.js: memoization and the latched error *)

Section CursorFacts.

Variable coll : collection.
Variable obop_where : arg (value -> bool) -> error + arg (value -> bool).
Variable obop_view : arg (value -> value) -> error + arg (value -> value).
Variable sorter : Type.
Variable array_sort : sorter -> list value -> list value.

(** A cursor with a latched error answers every terminal operation with
    that error and leaves the cursor and the call log as they are. *)
Lemma latched_error_short_circuits (c : Lib.Cursor sorter) (e : error) :
  Lib._error c = Some e ->
  forall fuel w,
    Lib.Cursor_toArray coll array_sort fuel c w = Some (inl e, (c, w)) /\
    Lib.Cursor_each coll array_sort fuel c w = Some ([Failed e], (c, w)) /\
    Lib.Cursor_count coll array_sort fuel c w = Some (inl e, (c, w)) /\
    Lib.Cursor_index coll c w = (inl e, (c, w)).
Proof.
  intros He fuel w.
  unfold Lib.Cursor_toArray, Lib.Cursor_each, Lib.Cursor_count,
    Lib.Cursor_index.
  rewrite He. repeat split; reflexivity.
Qed.

End CursorFacts.

(** C1: once [toArray] has handed a list to its callback, a second
    [toArray] on the cursor, whatever the fuel, hands over the same list and
    leaves the cursor and the log of [index] and [read] calls unchanged. *)
Theorem toArray_twice :
  forall (coll : collection) (sorter : Type)
         (array_sort : sorter -> list value -> list value)
         (fuel : nat) (c c' : Lib.Cursor sorter) (w w' : list call)
         (l : list value),
    Lib.Cursor_toArray coll array_sort fuel c w = Some (inr l, (c', w')) ->
    forall fuel',
      Lib.Cursor_toArray coll array_sort fuel' c' w' = Some (inr l, (c', w')).
Proof.
  intros coll sorter array_sort fuel c c' w w' l H fuel'.
  unfold Lib.Cursor_toArray in H.
  destruct (Lib._error c) as [e|] eqn:Ee; [discriminate|].
  destruct (Lib._toArray c) as [l0|] eqn:Em.
  - injection H as <- <- <-. unfold Lib.Cursor_toArray. now rewrite Ee, Em.
  - destruct (Lib.toArray (Lib.nextObject coll array_sort fuel) fuel
                (Lib.source c, w) []) as [[[e|l1] [s1 w1]]|];
      try discriminate.
    injection H as <- <- <-. reflexivity.
Qed.

Lemma toArray_twice_witness :
  let c := Lib.new_Cursor Examples.where_spec Examples.view_functions
             (sorter := unit) (AVal VUndefined) (AVal VUndefined) in
  exists c' w' l,
    Lib.Cursor_toArray Examples.shop Examples.sort_none 8 c [] =
      Some (inr l, (c', w')) /\
    List.length l = 5%nat /\
    w' = [Index; Read "a"; Read "b"; Read "c"; Read "d"; Read "e"] /\
    Lib.Cursor_toArray Examples.shop Examples.sort_none 0 c' w' =
      Some (inr l, (c', w')).
Proof.
  intros c.
  destruct (Lib.Cursor_toArray Examples.shop Examples.sort_none 8 c [])
    as [[[e|l] [c' w']]|] eqn:E; try (cbv in E; discriminate E).
  exists c', w', l. split; [reflexivity|].
  split; [cbv in E; injection E as <- _ _; reflexivity|].
  split; [cbv in E; injection E as _ _ <-; reflexivity|].
  exact (toArray_twice Examples.shop unit Examples.sort_none 8 c c' [] w' l E 0).
Defined.

(** C2, as stated, fails on the falsy values: the constructor tests
    [if (condition)] before it calls the compiler, so with the condition [0]
    no error is latched, although the compiler rejects [0], and [toArray]
    goes to the collection. *)
Lemma falsy_condition_not_latched :
  let c := Lib.new_Cursor Examples.where_spec Examples.view_functions
             (sorter := unit) (AVal (VNum 0)) (AVal VUndefined) in
  Examples.where_spec (AVal (VNum 0)) =
    inl (Error "invalid condition: " (Some (VNum 0))) /\
  Lib._error c = None /\
  exists l c',
    Lib.Cursor_toArray Examples.shop Examples.sort_none 8 c [] =
      Some (inr l, (c', [Index; Read "a"; Read "b"; Read "c"; Read "d";
                         Read "e"])).
Proof.
  intros c. split; [reflexivity|]. split; [reflexivity|].
  eexists. eexists. reflexivity.
Qed.

(** C2 (amended): for every truthy value [c] that the condition compiler
    rejects (a value that is neither an object nor a function), the cursor
    built with condition [c] has an error latched, and [toArray], [each],
    [count] and [index] hand that error to their callback without a
    single call to the collection.  The latched error is the compiler's
    error for [c] unless the projection is rejected too, in which case it is
    the error of the projection. *)
Theorem invalid_condition_latched :
  forall (coll : collection)
         (obop_where : arg (value -> bool) -> error + arg (value -> bool))
         (obop_view : arg (value -> value) -> error + arg (value -> value))
         (sorter : Type) (array_sort : sorter -> list value -> list value)
         (c : value) (p : arg (value -> value)) (e : error),
    truthy c = true ->
    obop_where (AVal c) = inl e ->
    let cur := Lib.new_Cursor obop_where obop_view (sorter := sorter)
                 (AVal c) p in
    exists e',
      Lib._error cur = Some e' /\
      e' = (if Lib.truthy_arg p
            then match obop_view p with inl ep => ep | inr _ => e end
            else e) /\
      forall fuel w,
        Lib.Cursor_toArray coll array_sort fuel cur w = Some (inl e', (cur, w)) /\
        Lib.Cursor_each coll array_sort fuel cur w =
          Some ([Failed e'], (cur, w)) /\
        Lib.Cursor_count coll array_sort fuel cur w = Some (inl e', (cur, w)) /\
        Lib.Cursor_index coll cur w = (inl e', (cur, w)).
Proof.
  intros coll obop_where obop_view sorter array_sort c p e Ht Hw cur.
  assert (He : exists e',
             Lib._error cur = Some e' /\
             e' = (if Lib.truthy_arg p
                   then match obop_view p with inl ep => ep | inr _ => e end
                   else e)).
  { unfold cur, Lib.new_Cursor. cbn [Lib.truthy_arg]. rewrite Ht, Hw.
    destruct (Lib.truthy_arg p).
    - destruct (obop_view p) as [ep|p'].
      + exists ep. split; reflexivity.
      + exists e. split; [|reflexivity].
        now destruct (Lib.truthy_arg p').
    - exists e. split; reflexivity. }
  destruct He as (e' & He' & Heq). exists e'.
  split; [exact He'|]. split; [exact Heq|].
  intros fuel w. now apply latched_error_short_circuits.
Qed.

Lemma invalid_condition_latched_witness :
  let cur := Lib.new_Cursor Examples.where_spec Examples.view_functions
               (sorter := unit) (AVal (VStr "x")) (AVal VUndefined) in
  truthy (VStr "x") = true /\
  Examples.where_spec (AVal (VStr "x")) =
    inl (Error "invalid condition: " (Some (VStr "x"))) /\
  exists e',
    Lib._error cur = Some e' /\
    e' = Error "invalid condition: " (Some (VStr "x")) /\
    forall fuel w,
      Lib.Cursor_toArray Examples.shop Examples.sort_none fuel cur w =
        Some (inl e', (cur, w)) /\
      Lib.Cursor_each Examples.shop Examples.sort_none fuel cur w =
        Some ([Failed e'], (cur, w)) /\
      Lib.Cursor_count Examples.shop Examples.sort_none fuel cur w =
        Some (inl e', (cur, w)) /\
      Lib.Cursor_index Examples.shop cur w = (inl e', (cur, w)).
Proof.
  intros cur. split; [reflexivity|]. split; [reflexivity|].
  exact (invalid_condition_latched Examples.shop Examples.where_spec
           Examples.view_functions unit Examples.sort_none (VStr "x")
           (AVal VUndefined) (Error "invalid condition: " (Some (VStr "x")))
           eq_refl eq_refl).
Defined.

(** ** lib/core/cursor.js: the stages over an arbitrary upstream *)

Section StageFacts.

Context {U : Type}.
Variable next : Lib.pull U.

Lemma serves_app (u um u' : U) (l1 l2 : list value) :
  Runs.serves next u l1 um -> Runs.serves next um l2 u' ->
  Runs.serves next u (l1 ++ l2) u'.
Proof.
  induction 1 as [|u item u1 l um Hn Ht Hs IH]; intros H2; cbn [app].
  - exact H2.
  - econstructor; eauto.
Qed.

Lemma serves_split (u u' : U) (l : list value) (k : nat) :
  Runs.serves next u l u' ->
  exists um, Runs.serves next u (firstn k l) um /\
             Runs.serves next um (skipn k l) u'.
Proof.
  intros H. revert k.
  induction H as [|u item u1 l u' Hn Ht Hs IH]; intros k.
  - exists u. rewrite firstn_nil, skipn_nil. split; constructor.
  - destruct k as [|k]; cbn [firstn skipn].
    + exists u. split; [constructor | econstructor; eauto].
    + destruct (IH k) as (um & H1 & H2). exists um.
      split; [econstructor; eauto | exact H2].
Qed.

(** The helper [toArray] collects the result sequence. *)
Lemma toArray_drains (u u' : U) (l : list value) :
  Runs.drains next u l u' ->
  forall fuel buf,
    (List.length l < fuel)%nat ->
    Lib.toArray next fuel u buf = Some (inr (buf ++ l), u').
Proof.
  intros (u1 & Hs & item & Hn & Ht).
  induction Hs as [|u i u2 l u1 Hn' Ht' Hs IH]; intros fuel buf Hf.
  - destruct fuel as [|fuel]; [inversion Hf|].
    cbn [Lib.toArray]. rewrite Hn, Ht. cbn [negb].
    now rewrite app_nil_r.
  - destruct fuel as [|fuel]; [inversion Hf|].
    cbn [Lib.toArray]. rewrite Hn', Ht'. cbn [negb].
    rewrite (IH Hn fuel (buf ++ [i])).
    + now rewrite <- app_assoc.
    + cbn [List.length] in Hf. lia.
Qed.

(** *** Offset *)

Lemma offset_through_serves (offset : Z) (ready : bool) (u u' : U)
  (l : list value) :
  (ready || (offset <=? 0)%Z)%bool = true ->
  Runs.serves next u l u' ->
  Runs.serves (Lib.Offset_nextObject next offset) (ready, u) l (ready, u').
Proof.
  intros Hr. induction 1 as [|u item u1 l u' Hn Ht Hs IH].
  - constructor.
  - econstructor; [|exact Ht|exact IH].
    cbn [Lib.Offset_nextObject]. now rewrite Hr, Hn.
Qed.

Lemma offset_through_ends (offset : Z) (ready : bool) (u u' : U) :
  (ready || (offset <=? 0)%Z)%bool = true ->
  Runs.ends next u u' ->
  Runs.ends (Lib.Offset_nextObject next offset) (ready, u) (ready, u').
Proof.
  intros Hr (item & Hn & Ht). exists item. split; [|exact Ht].
  cbn [Lib.Offset_nextObject]. now rewrite Hr, Hn.
Qed.

Lemma offset_iterator_short (u u1 u' : U) (l : list value) :
  Runs.serves next u l u1 -> Runs.ends next u1 u' ->
  forall n, (List.length l <= n)%nat ->
    Lib.Offset_iterator next n u = Some (Got VUndefined, (false, u')).
Proof.
  intros Hs (item & Hn & Ht).
  induction Hs as [|u i u2 l u1 Hn' Ht' Hs IH]; intros n Hl.
  - destruct n; cbn [Lib.Offset_iterator]; now rewrite Hn, Ht.
  - cbn [List.length] in Hl. destruct n as [|n]; [lia|].
    cbn [Lib.Offset_iterator]. rewrite Hn', Ht'. cbn [negb].
    apply (IH Hn). lia.
Qed.

Lemma offset_iterator_long (u u1 : U) (l : list value) :
  Runs.serves next u l u1 ->
  forall n, List.length l = S n ->
    Lib.Offset_iterator next n u =
    match next u1 with
    | None => None
    | Some (o, u'') => Some (o, (true, u''))
    end.
Proof.
  induction 1 as [|u i u2 l u1 Hn' Ht' Hs IH]; intros n Hl;
    cbn [List.length] in Hl; [discriminate|].
  destruct n as [|n]; cbn [Lib.Offset_iterator]; rewrite Hn', Ht'; cbn [negb].
  - destruct l; [|discriminate]. now inversion Hs; subst.
  - apply IH. lia.
Qed.

Lemma offset_drains (u u' : U) (l : list value) (offset : Z) :
  Runs.drains next u l u' ->
  exists ready',
    Runs.drains (Lib.Offset_nextObject next offset) (false, u)
      (skipn (Z.to_nat offset) l) (ready', u').
Proof.
  intros (u1 & Hs & He).
  destruct (Z.leb_spec offset 0) as [Hle|Hgt].
  - (* nothing to skip *)
    replace (Z.to_nat offset) with 0%nat by lia. cbn [skipn].
    assert (Hr : (false || (offset <=? 0)%Z)%bool = true).
    { cbn [orb]. now apply Z.leb_le. }
    exists false, (false, u1).
    split; [now apply offset_through_serves | now apply offset_through_ends].
  - assert (Hnr : (false || (offset <=? 0)%Z)%bool = false).
    { cbn [orb]. apply Z.leb_gt. lia. }
    remember (Z.to_nat (offset - 1)) as n eqn:En.
    replace (Z.to_nat offset) with (S n) by lia.
    assert (Hoff : Lib.Offset_nextObject next offset (false, u) =
                   Lib.Offset_iterator next n u).
    { cbn [Lib.Offset_nextObject]. now rewrite Hnr, <- En. }
    clear En Hnr Hgt.
    destruct (Nat.le_gt_cases (List.length l) n) as [Hshort|Hlong].
    + (* the upstream ends while items are skipped *)
      rewrite skipn_all2 by lia.
      exists false, (false, u). split; [constructor|].
      exists VUndefined. split; [|reflexivity].
      rewrite Hoff. now apply (offset_iterator_short u u1 u' l).
    + destruct (serves_split u u1 l (S n) Hs) as (um & H1 & H2).
      assert (Hlen : List.length (firstn (S n) l) = S n).
      { rewrite length_firstn. lia. }
      pose proof (offset_iterator_long u um _ H1 n Hlen) as Hit.
      rewrite <- Hoff in Hit. clear Hoff H1 Hlen Hs.
      exists true.
      destruct (skipn (S n) l) as [|item l2].
      * (* exactly the skipped items: the next pull reports the end *)
        inversion H2; subst.
        destruct He as (item & Hn & Ht). rewrite Hn in Hit.
        exists (false, u). split; [constructor|].
        exists item. split; [exact Hit|exact Ht].
      * inversion H2 as [|u0 item0 u2 l0 u3 Hn Ht Hs2]; subst.
        rewrite Hn in Hit.
        exists (true, u1). split.
        -- econstructor; [exact Hit|exact Ht|].
           now apply offset_through_serves.
        -- now apply offset_through_ends.
Qed.

(** *** Limit *)

Lemma limit_serves (u u' : U) (l : list value) :
  Runs.serves next u l u' ->
  forall rest : Z,
    (Z.of_nat (List.length l) <= rest)%Z ->
    Runs.serves (Lib.Limit_nextObject next) (rest, u) l
      ((rest - Z.of_nat (List.length l))%Z, u').
Proof.
  induction 1 as [|u item u1 l u' Hn Ht Hs IH]; intros rest Hl.
  - cbn [List.length]. replace (rest - Z.of_nat 0)%Z with rest by lia.
    constructor.
  - cbn [List.length] in *.
    econstructor; [|exact Ht|].
    + cbn [Lib.Limit_nextObject].
      replace (0 <? rest)%Z with true by (symmetry; apply Z.ltb_lt; lia).
      rewrite Hn. reflexivity.
    + replace (rest - Z.of_nat (S (List.length l)))%Z
        with (rest - 1 - Z.of_nat (List.length l))%Z by lia.
      apply IH. lia.
Qed.

(** Past the limit the stage reports the end and does not call its
    upstream: whatever [next] is, the upstream state is handed back. *)
Lemma limit_exhausted (rest : Z) (u : U) :
  (rest <= 0)%Z ->
  Lib.Limit_nextObject next (rest, u) =
  Some (Got VUndefined, ((rest - 1)%Z, u)).
Proof.
  intros Hr. cbn [Lib.Limit_nextObject].
  now replace (0 <? rest)%Z with false by (symmetry; apply Z.ltb_ge; lia).
Qed.

Lemma limit_drains (u u' : U) (l : list value) (limit : Z) :
  Runs.drains next u l u' ->
  exists um rest',
    Runs.serves next u (firstn (Z.to_nat limit) l) um /\
    Runs.drains (Lib.Limit_nextObject next) (limit, u)
      (firstn (Z.to_nat limit) l)
      (rest', if (limit <=? Z.of_nat (List.length l))%Z then um else u').
Proof.
  intros (u1 & Hs & He).
  destruct (Z.leb_spec limit 0) as [Hneg|Hpos].
  { (* nothing is served *)
    replace (Z.to_nat limit) with 0%nat by lia. cbn [firstn].
    replace (limit <=? Z.of_nat (List.length l))%Z with true
      by (symmetry; apply Z.leb_le; lia).
    exists u. eexists. split; [constructor|].
    exists (limit, u). split; [constructor|].
    exists VUndefined. split; [|reflexivity].
    now apply limit_exhausted. }
  destruct (Z.leb_spec limit (Z.of_nat (List.length l))) as [Hle|Hgt].
  - destruct (serves_split u u1 l (Z.to_nat limit) Hs) as (um & H1 & _).
    exists um. eexists. split; [exact H1|].
    exists ((limit - Z.of_nat (List.length (firstn (Z.to_nat limit) l)))%Z, um).
    split.
    + apply limit_serves; [exact H1|]. rewrite length_firstn. lia.
    + exists VUndefined. split; [|reflexivity].
      apply limit_exhausted. rewrite length_firstn. lia.
  - rewrite firstn_all2 by lia.
    exists u1. eexists. split; [exact Hs|].
    exists ((limit - Z.of_nat (List.length l))%Z, u1).
    split; [apply limit_serves; [exact Hs|lia]|].
    destruct He as (item & Hn & Ht). exists item. split; [|exact Ht].
    cbn [Lib.Limit_nextObject].
    replace (0 <? limit - Z.of_nat (List.length l))%Z with true
      by (symmetry; apply Z.ltb_lt; lia).
    now rewrite Hn.
Qed.

End StageFacts.

(** *** Condition and Projection *)

Section MoreStageFacts.

Context {U : Type}.
Variable next : Lib.pull U.






(** Result sequences carry over along an embedding of states. *)
Lemma drains_embedded {V : Type} (pull2 : Lib.pull V) (pack : U -> V)
  (u u' : U) (l : list value) :
  (forall x, pull2 (pack x) =
             match next x with
             | None => None
             | Some (o, x') => Some (o, pack x')
             end) ->
  Runs.drains next u l u' -> Runs.drains pull2 (pack u) l (pack u').
Proof.
  intros Hsim (u1 & Hs & item & Hn & Ht).
  exists (pack u1). split.
  - clear Hn. induction Hs as [|u i u2 l u1 Hn' Ht' Hs IH].
    + constructor.
    + econstructor; [|exact Ht'|exact IH]. now rewrite Hsim, Hn'.
  - exists item. split; [|exact Ht]. now rewrite Hsim, Hn.
Qed.

End MoreStageFacts.

(** *** The stages inside the chain of a cursor *)

Section ChainFacts.

Variable coll : collection.
Variable sorter : Type.
Variable array_sort : sorter -> list value -> list value.

Local Abbreviation next := (Lib.nextObject coll array_sort).



Lemma chain_offset (fuel : nat) (offset : Z)
  (src src' : Lib.stage sorter) (w w' : list call) (l : list value) :
  Runs.drains (next fuel) (src, w) l (src', w') ->
  exists ready',
    Runs.drains (next (S fuel)) (Lib.Offset src offset false, w)
      (skipn (Z.to_nat offset) l) (Lib.Offset src' offset ready', w').
Proof.
  intros Hd.
  destruct (offset_drains (next fuel) _ _ _ offset Hd) as (ready' & Ho).
  exists ready'.
  apply (drains_embedded (Lib.Offset_nextObject (next fuel) offset)
           (next (S fuel))
           (fun x => (Lib.Offset (fst (snd x)) offset (fst x), snd (snd x)))
           (false, (src, w)) (ready', (src', w'))); [|exact Ho].
  intros [r [s x]]. cbn [Lib.nextObject fst snd].
  unfold Lib.rewrap, Lib.with_field, Lib.state.
  match goal with
  | |- _ = match ?t with _ => _ end =>
      destruct t as [[o [r1 [s1 x1]]]|]; reflexivity
  end.
Qed.

Lemma chain_limit (fuel : nat) (limit : Z)
  (src src' : Lib.stage sorter) (w w' : list call) (l : list value) :
  Runs.drains (next fuel) (src, w) l (src', w') ->
  exists rest' s1 w1,
    Runs.drains (next (S fuel)) (Lib.Limit src limit limit, w)
      (firstn (Z.to_nat limit) l) (Lib.Limit s1 limit rest', w1).
Proof.
  intros Hd.
  destruct (limit_drains (next fuel) _ _ _ limit Hd) as (um & rest' & _ & Hl).
  destruct (if (limit <=? Z.of_nat (List.length l))%Z then um else (src', w'))
    as [s1 w1] eqn:E.
  exists rest', s1, w1.
  apply (drains_embedded (Lib.Limit_nextObject (next fuel))
           (next (S fuel))
           (fun x => (Lib.Limit (fst (snd x)) limit (fst x), snd (snd x)))
           (limit, (src, w)) (rest', (s1, w1))); [|exact Hl].
  intros [r [s x]]. cbn [Lib.nextObject fst snd].
  unfold Lib.rewrap, Lib.with_field, Lib.state.
  match goal with
  | |- _ = match ?t with _ => _ end =>
      destruct t as [[o [r1 [s2 x2]]]|]; reflexivity
  end.
Qed.

(** [cursor.offset(offset).limit(limit).toArray()] on a cursor whose chain
    yields [l]. *)
Lemma cursor_offset_limit_toArray (fuel : nat) (c : Lib.Cursor sorter)
  (w w' : list call) (s' : Lib.stage sorter) (l : list value)
  (offset limit : Z) :
  Lib._error c = None -> Lib._toArray c = None ->
  Runs.drains (next fuel) (Lib.source c, w) l (s', w') ->
  (List.length l < fuel)%nat ->
  exists c1 w1,
    Lib.Cursor_toArray coll array_sort (S (S fuel))
      (Lib.Cursor_limit (Lib.Cursor_offset c offset) limit) w =
    Some (inr (firstn (Z.to_nat limit) (skipn (Z.to_nat offset) l)), (c1, w1)).
Proof.
  intros He Hm Hd Hf.
  destruct (chain_offset fuel offset _ _ _ _ _ Hd) as (ready' & Ho).
  destruct (chain_limit (S fuel) limit _ _ _ _ _ Ho) as (rest' & s1 & w1 & Hl).
  unfold Lib.Cursor_toArray, Lib.Cursor_limit, Lib.Cursor_offset,
    Lib.set_source.
  cbn [Lib._error Lib._toArray Lib.source Lib._index]. rewrite He, Hm.
  rewrite (toArray_drains _ _ _ _ Hl (S (S fuel)) []).
  - eexists. eexists. reflexivity.
  - rewrite length_firstn, length_skipn. lia.
Qed.

End ChainFacts.

(** C6: let the upstream result sequence be [l].  An Offset stage drained
    from its initial state yields [l] without its first [offset] items,
    each passed on as it came and without an error, hence nothing when [l]
    has at most [offset] items.  A Limit stage yields the first [limit]
    items of [l], and when [l] has that many it leaves its upstream in the
    state reached after exactly [limit] pulls: past the limit it reports
    the end and hands the upstream state back untouched, whatever the
    upstream is.  On five items [offset(2).limit(1)] yields the third. *)
Theorem offset_limit_stages :
  forall (U : Type) (next : Lib.pull U) (u u' : U) (l : list value),
    Runs.drains next u l u' ->
    (forall offset : Z,
        exists ready',
          Runs.drains (Lib.Offset_nextObject next offset) (false, u)
            (skipn (Z.to_nat offset) l) (ready', u')) /\
    (forall limit : Z,
        exists um rest',
          Runs.serves next u (firstn (Z.to_nat limit) l) um /\
          Runs.drains (Lib.Limit_nextObject next) (limit, u)
            (firstn (Z.to_nat limit) l)
            (rest', if (limit <=? Z.of_nat (List.length l))%Z then um else u')) /\
    (forall (rest : Z) (u0 : U),
        (rest <= 0)%Z ->
        Lib.Limit_nextObject next (rest, u0) =
        Some (Got VUndefined, ((rest - 1)%Z, u0))) /\
    (forall a b c d e : value,
        l = [a; b; c; d; e] ->
        exists st',
          Runs.drains
            (Lib.Limit_nextObject (Lib.Offset_nextObject next 2))
            (1%Z, (false, u)) [c] st' /\
          forall fuel buf,
            (1 < fuel)%nat ->
            Lib.toArray (Lib.Limit_nextObject (Lib.Offset_nextObject next 2))
              fuel (1%Z, (false, u)) buf = Some (inr (buf ++ [c]), st')).
Proof.
  intros U next u u' l Hd.
  split; [intros offset; now apply offset_drains|].
  split; [intros limit; now apply limit_drains|].
  split; [intros rest u0; apply limit_exhausted|].
  intros a b c d e ->.
  destruct (offset_drains next u u' [a; b; c; d; e] 2 Hd) as (ready' & Ho).
  destruct (limit_drains (Lib.Offset_nextObject next 2) (false, u) (ready', u')
              _ 1 Ho) as (um & rest' & _ & Hl).
  change (skipn (Z.to_nat 2) [a; b; c; d; e]) with [c; d; e] in Hl.
  change (firstn (Z.to_nat 1) [c; d; e]) with [c] in Hl.
  eexists. split; [exact Hl|].
  intros fuel buf Hf.
  apply (toArray_drains _ _ _ [c] Hl). cbn [List.length]. lia.
Qed.

Lemma offset_limit_stages_witness :
  let next := Lib.nextObject Examples.shop Examples.sort_none 1 in
  let u : Lib.state unit := (Lib.Source None, []) in
  let l := [Examples.doc "apple" 1; Examples.doc "bean" 2;
            Examples.doc "corn" 3; Examples.doc "date" 4;
            Examples.doc "egg" 5] in
  exists u',
    Runs.drains next u l u' /\
    exists st',
      Lib.toArray (Lib.Limit_nextObject (Lib.Offset_nextObject next 2))
        2 (1%Z, (false, u)) [] = Some (inr [Examples.doc "corn" 3], st').
Proof.
  intros next u l.
  assert (Hd : Runs.drains next u l
                 (Lib.Source (Some []),
                  [Index; Read "a"; Read "b"; Read "c"; Read "d"; Read "e"])).
  { eexists. split.
    - repeat (eapply Runs.serves_cons; [reflexivity|reflexivity|]).
      apply Runs.serves_nil.
    - exists VUndefined. split; reflexivity. }
  eexists. split; [exact Hd|].
  destruct (offset_limit_stages _ next u _ l Hd) as (_ & _ & _ & H5).
  destruct (H5 _ _ _ _ _ eq_refl) as (st' & _ & Hta).
  exists st'. exact (Hta 2%nat [] (Nat.lt_succ_diag_r 1)).
Defined.

(** ** lib/core/cursor.js: [count] against [toArray] *)


Section CountFacts.

Variable coll : collection.
Variable sorter : Type.
Variable array_sort : sorter -> list value -> list value.

Lemma source_serves (fuel : nat) (l : list string) (w : list call) :
  readable coll l ->
  Runs.serves (Lib.nextObject coll array_sort (S fuel))
    (Lib.Source (Some l), w) (map (item_of coll) l)
    (Lib.Source (Some []), w ++ map Read l).
Proof.
  revert w. induction l as [|id l IH]; intros w Hr; cbn [List.map].
  - rewrite app_nil_r. constructor.
  - destruct (Hr id (or_introl eq_refl)) as (d & Hd & Ht).
    eapply Runs.serves_cons with (u1 := (Lib.Source (Some l), w ++ [Read id])).
    + cbn. now rewrite Hd; unfold item_of; rewrite Hd.
    + unfold item_of. now rewrite Hd.
    + replace (w ++ Read id :: map Read l)
        with ((w ++ [Read id]) ++ map Read l) by now rewrite <- app_assoc.
      apply IH. intros id' Hin. apply Hr. now right.
Qed.

Lemma source_drains (fuel : nat) (ids : list string) (w : list call) :
  index coll = inr ids ->
  readable coll ids ->
  Runs.drains (Lib.nextObject coll array_sort (S fuel))
    (Lib.Source None, w) (map (item_of coll) ids)
    (Lib.Source (Some []), (w ++ [Index]) ++ map Read ids).
Proof.
  intros Hi Hr.
  pose proof (source_serves fuel ids (w ++ [Index]) Hr) as Hs.
  assert (Hfirst : Lib.nextObject coll array_sort (S fuel) (Lib.Source None, w) =
                   Lib.nextObject coll array_sort (S fuel)
                     (Lib.Source (Some ids), w ++ [Index])).
  { cbn. now rewrite Hi. }
  inversion Hs as [u0 E0 E1 E2 | u0 item u1 l0 u2 Hn Ht Hs' E0 E1 E2].
  - (* no identifier at all *)
    exists (Lib.Source None, w). split; [constructor|].
    exists VUndefined. split; [|reflexivity].
    rewrite Hfirst. destruct ids; [|discriminate E1].
    cbn; rewrite ?app_nil_r; reflexivity.
  - exists (Lib.Source (Some []), (w ++ [Index]) ++ map Read ids). split.
    + econstructor; [|exact Ht|exact Hs']. now rewrite Hfirst.
    + exists VUndefined. split; reflexivity.
Qed.

End CountFacts.


Lemma new_Cursor_shape
  (obop_where : arg (value -> bool) -> error + arg (value -> bool))
  (obop_view : arg (value -> value) -> error + arg (value -> value))
  (sorter : Type) (cond : arg (value -> bool)) (proj : arg (value -> value)) :
  let s := Lib.source
             (Lib.new_Cursor obop_where obop_view (sorter := sorter) cond proj) in
  s = Lib.Source None \/
  (exists c', s = Lib.Condition (Lib.Source None) c') \/
  (exists p', s = Lib.Projection (Lib.Source None) p') \/
  (exists c' p', s = Lib.Projection (Lib.Condition (Lib.Source None) c') p').
Proof.
  unfold Lib.new_Cursor.
  destruct (Lib.truthy_arg cond); [destruct (obop_where cond) as [e|c'];
    [|destruct (Lib.truthy_arg c')]|];
  (destruct (Lib.truthy_arg proj); [destruct (obop_view proj) as [e'|p'];
    [|destruct (Lib.truthy_arg p')]|]);
  cbn; eauto 8.
Qed.

Section Termination.

Variable coll : collection.
Variable sorter : Type.
Variable array_sort : sorter -> list value -> list value.

Local Abbreviation next := (Lib.nextObject coll array_sort).

Lemma toArray_failed {U : Type} (pull1 : Lib.pull U) (u u' : U) (e : error)
  (fuel : nat) (buf : list value) :
  pull1 u = Some (Failed e, u') ->
  Lib.toArray pull1 (S fuel) u buf = Some (inl e, u').
Proof. intros H. cbn [Lib.toArray]. now rewrite H. Qed.


End Termination.



(** ** A failing [read] in the middle of a drain *)

(** In lib/core/cursor.js a drain that fails hands the error alone to the
    callback and leaves the memo of the cursor as it was. *)
Lemma lib_toArray_failure_keeps_no_items :
  forall (coll : collection) (sorter : Type)
         (array_sort : sorter -> list value -> list value)
         (fuel : nat) (c c' : Lib.Cursor sorter) (w w' : list call) (e : error),
    Lib.Cursor_toArray coll array_sort fuel c w = Some (inl e, (c', w')) ->
    Lib._toArray c' = Lib._toArray c /\ Lib._error c' = Lib._error c.
Proof.
  intros coll sorter array_sort fuel c c' w w' e H.
  unfold Lib.Cursor_toArray in H.
  destruct (Lib._error c) as [e0|] eqn:Ee.
  - injection H as _ <- _. now rewrite Ee.
  - destruct (Lib._toArray c) as [l0|] eqn:Em; [discriminate|].
    destruct (Lib.toArray (Lib.nextObject coll array_sort fuel) fuel
                (Lib.source c, w) []) as [[[e1|l1] [s1 w1]]|];
      try discriminate.
    injection H as _ <- _. cbn. now rewrite Em, Ee.
Qed.

Lemma lib_toArray_broken_read :
  let c := Lib.new_Cursor Examples.where_spec Examples.view_functions
             (sorter := unit) (AVal VUndefined) (AVal VUndefined) in
  exists c',
    Lib.Cursor_toArray Examples.broken Examples.sort_none 8 c [] =
      Some (inl (Error "Item not found" None),
            (c', [Index; Read "a"; Read "b"])) /\
    Lib._toArray c' = None.
Proof. eexists. split; reflexivity. Qed.

(** A drain of the stage-based cursor stops at the failing pull: the error
    is the answer and the upstream is left where the failure put it. *)
Lemma toArray_stops_at_failure {U : Type} (pull1 : Lib.pull U) (u u1 u' : U)
  (l : list value) (e : error) :
  Runs.serves pull1 u l u1 ->
  pull1 u1 = Some (Failed e, u') ->
  forall fuel buf,
    (List.length l < fuel)%nat ->
    Lib.toArray pull1 fuel u buf = Some (inl e, u').
Proof.
  intros Hs Hfail.
  induction Hs as [|u i u2 l u1 Hn Ht Hs IH]; intros fuel buf Hf.
  - destruct fuel as [|fuel]; [inversion Hf|]. now apply toArray_failed.
  - destruct fuel as [|fuel]; [inversion Hf|].
    cbn [Lib.toArray]. rewrite Hn, Ht. cbn [negb].
    apply (IH Hfail). cbn [List.length] in Hf. lia.
Qed.

(** In lib/core/cursor.js, when the [read] of one identifier fails after the
    earlier ones were read, [toArray] on a cursor without stages answers
    with the error alone, memoizes nothing, and has asked the collection
    for nothing past the failing identifier. *)
Lemma lib_toArray_aborts_at_failing_read :
  forall (coll : collection)
         (obop_where : arg (value -> bool) -> error + arg (value -> bool))
         (obop_view : arg (value -> value) -> error + arg (value -> value))
         (sorter : Type) (array_sort : sorter -> list value -> list value)
         (pre post : list string) (id : string) (e : error) (fuel : nat),
    index coll = inr (pre ++ id :: post) ->
    readable coll pre ->
    read coll id = inl e ->
    (List.length pre + 1 < fuel)%nat ->
    let c := Lib.new_Cursor obop_where obop_view (sorter := sorter)
               (AVal VUndefined) (AVal VUndefined) in
    exists c',
      Lib.Cursor_toArray coll array_sort fuel c [] =
        Some (inl e, (c', Index :: map Read pre ++ [Read id])) /\
      Lib._toArray c' = None.
Proof.
  intros coll obop_where obop_view sorter array_sort pre post id e fuel
         Hi Hr Hid Hf c.
  destruct fuel as [|fuel]; [lia|].
  unfold Lib.Cursor_toArray. cbn [c Lib.new_Cursor Lib.truthy_arg truthy].
  cbn [Lib._error Lib._toArray Lib.source].
  assert (Hfirst : Lib.nextObject coll array_sort (S fuel)
                     (Lib.Source None, []) =
                   Lib.nextObject coll array_sort (S fuel)
                     (Lib.Source (Some (pre ++ id :: post)), [Index])).
  { cbn. now rewrite Hi. }
  assert (Hs : forall l w,
             readable coll l ->
             Runs.serves (Lib.nextObject coll array_sort (S fuel))
               (Lib.Source (Some (l ++ id :: post)), w) (map (item_of coll) l)
               (Lib.Source (Some (id :: post)), w ++ map Read l)).
  { induction l as [|i l IH]; intros w Hl; cbn [List.map app].
    - rewrite app_nil_r. constructor.
    - destruct (Hl i (or_introl eq_refl)) as (d & Hd & Ht).
      eapply Runs.serves_cons
        with (u1 := (Lib.Source (Some (l ++ id :: post)), w ++ [Read i])).
      + cbn. rewrite Hd. unfold item_of. now rewrite Hd.
      + unfold item_of. now rewrite Hd.
      + replace (w ++ Read i :: map Read l)
          with ((w ++ [Read i]) ++ map Read l) by now rewrite <- app_assoc.
        apply IH. intros i' Hin. apply Hl. now right. }
  assert (Hta : Lib.toArray (Lib.nextObject coll array_sort (S fuel)) (S fuel)
                  (Lib.Source (Some (pre ++ id :: post)), [Index]) [] =
                Some (inl e, (Lib.Source (Some post),
                              Index :: map Read pre ++ [Read id]))).
  { apply (toArray_stops_at_failure _ _ _ _ _ e (Hs pre [Index] Hr)).
    - cbn. rewrite Hid. reflexivity.
    - rewrite length_map. lia. }
  assert (Hta0 : Lib.toArray (Lib.nextObject coll array_sort (S fuel)) (S fuel)
                   (Lib.Source None, []) [] =
                 Some (inl e, (Lib.Source (Some post),
                               Index :: map Read pre ++ [Read id]))).
  { rewrite <- Hta. cbn [Lib.toArray]. now rewrite Hfirst. }
  rewrite Hta0. eexists. split; reflexivity.
Qed.

(** [eachSeries] over a list in two parts *)
Lemma eachSeries_app {A S : Type} (l1 l2 : list A)
  (each : A -> S -> option error * S) (s : S) :
  Core.eachSeries (l1 ++ l2) each s =
  match Core.eachSeries l1 each s with
  | (Some e, s') => (Some e, s')
  | (None, s') => Core.eachSeries l2 each s'
  end.
Proof.
  revert s. induction l1 as [|x l1 IH]; intros s; cbn [app Core.eachSeries].
  - reflexivity.
  - destruct (each x s) as [[e|] s']; [reflexivity | apply IH].
Qed.

(** In core/cursor.js, when the [read] of one identifier fails after the
    earlier ones were read, [toArray] hands the error and the items that
    passed the condition so far to the callback, stores these items in
    [_values], and answers the next [toArray] with them and no error. *)
Lemma core_toArray_failure_memoizes :
  forall (coll : collection) (cond : value -> bool)
         (pre post : list string) (id : string) (e : error),
    index coll = inr (pre ++ id :: post) ->
    (forall i, In i pre -> exists d, read coll i = inr d) ->
    read coll id = inl e ->
    let buf := filter cond (map (item_of coll) pre) in
    exists c1 w1,
      Core.Cursor_toArray coll (Core.new_Cursor cond) [] =
        (Core.Answer (Some e) (Some buf), c1, w1) /\
      Core._values c1 = Some buf /\
      Core.Cursor_toArray coll c1 w1 = (Core.Answer None (Some buf), c1, w1).
Proof.
  intros coll cond pre post id e Hi Hr Hid buf.
  assert (Hpre : forall l b w c,
             Core.condition c = cond ->
             (forall i, In i l -> exists d, read coll i = inr d) ->
             Core.eachSeries l (Core.toArray_each coll c) (b, w) =
             (None, (b ++ filter cond (map (item_of coll) l),
                     w ++ map Read l))).
  { induction l as [|i l IH]; intros b w c Hc Hl;
      cbn [Core.eachSeries List.map filter].
    - now rewrite !app_nil_r.
    - destruct (Hl i (or_introl eq_refl)) as (d & Hd).
      assert (Hio : item_of coll i = d) by (unfold item_of; now rewrite Hd).
      unfold Core.toArray_each at 1. rewrite Hd, Hc, Hio.
      assert (Hl' : forall i', In i' l -> exists d', read coll i' = inr d').
      { intros i' Hin. apply Hl. now right. }
      destruct (cond d); rewrite (IH _ _ c Hc Hl'), <- !app_assoc;
        reflexivity. }
  unfold Core.Cursor_toArray, Core.Cursor_keys, Core.new_Cursor.
  cbn [Core._values Core._keys]. rewrite Hi.
  cbn [Core.err Core.result Core.condition Core.cfilters Core._values
       Core._keys].
  match goal with
  | |- context [Core.eachSeries _ (Core.toArray_each coll ?c) _] =>
      rewrite eachSeries_app, (Hpre pre [] _ c eq_refl Hr)
  end.
  cbn [Core.eachSeries]. unfold Core.toArray_each at 1. rewrite Hid.
  cbn [app]. fold buf.
  eexists. eexists. split; [reflexivity|]. split; reflexivity.
Qed.

(** C4 at the failing input, in core/cursor.js: the second [read] fails;
    [end(err)] hands the error together with the item collected so far to
    the callback and stores that partial list in [_values], so that the
    next [toArray] answers with it and without an error. *)
Theorem core_toArray_keeps_partial_results :
  exists c c1 w1,
    Core.find prim_eq (AVal VUndefined) = inr c /\
    Core.Cursor_toArray Examples.broken c [] =
      (Core.Answer (Some (Error "Item not found" None))
                   (Some [Examples.doc "apple" 1]), c1, w1) /\
    w1 = [Index; Read "a"; Read "b"] /\
    Core._values c1 = Some [Examples.doc "apple" 1] /\
    Core.Cursor_toArray Examples.broken c1 w1 =
      (Core.Answer None (Some [Examples.doc "apple" 1]), c1, w1).
Proof.
  eexists. eexists. eexists.
  split; [reflexivity|]. split; [reflexivity|].
  split; [reflexivity|]. split; reflexivity.
Qed.

(** In core/cursor.js [count] takes the number of keys, whatever the
    condition: no item of the shop matches, and [count] answers 5. *)
Lemma core_count_ignores_condition :
  exists c c1 w1 r,
    Core.find prim_eq (AFun (fun _ => false)) = inr c /\
    Core.Cursor_toArray Examples.shop c [] =
      (Core.Answer None (Some []), c1, w1) /\
    Core.count prim_eq Examples.shop (AFun (fun _ => false)) [] = inr r /\
    Core.result (fst (fst r)) = Some 5%nat.
Proof.
  eexists. eexists. eexists. eexists.
  split; [reflexivity|]. split; [reflexivity|]. split; reflexivity.
Qed.

Lemma memory_index_lists_unescaped_keys_witness :
  let wd : Memory.world :=
    ([("test", [("a", VNum 1); (".b", VNum 2); ("c", VNum 3)])],
     {| Memory.namespace := Some "test"; Memory._memory_store := None |}) in
  (exists k e, In k (keys (fst (Memory.the_store wd))) /\
               Examples.unescape_dot k = inl e) /\
  fst (Memory.index Examples.unescape_dot wd) = [inr "a"; inr "c"] /\
  (List.length (fst (Memory.index Examples.unescape_dot wd)) <
   List.length (keys (fst (Memory.the_store wd))))%nat.
Proof.
  intros wd.
  assert (H : exists k e, In k (keys (fst (Memory.the_store wd))) /\
                          Examples.unescape_dot k = inl e).
  { exists ".b". eexists. split; [right; left; reflexivity | reflexivity]. }
  split; [exact H|]. split; [reflexivity|].
  exact (proj2 (proj2 (proj2 (proj2 (proj2 (proj2
           (memory_index_lists_unescaped_keys Examples.unescape_dot wd)))))) H).
Defined.

(* ================================================================== *)
(** * Further properties *)

(** ** Objects *)

Lemma lookup_delete_same (o : obj) (k : string) : lookup (delete o k) k = None.
Proof.
  unfold delete. induction o as [|[k' v] o IH]; cbn [filter lookup fst].
  - reflexivity.
  - destruct (String.eqb k k') eqn:E; cbn [negb lookup]; [exact IH|].
    now rewrite E.
Qed.

Lemma lookup_delete_other (o : obj) (k k' : string) :
  k <> k' -> lookup (delete o k) k' = lookup o k'.
Proof.
  intros Hne. unfold delete.
  induction o as [|[k0 v] o IH]; cbn [filter lookup fst]; [reflexivity|].
  destruct (String.eqb k k0) eqn:E; cbn [negb lookup].
  - apply String.eqb_eq in E. subst k0.
    apply String.eqb_neq in Hne. rewrite String.eqb_sym in Hne.
    now rewrite Hne.
  - now rewrite IH.
Qed.

Lemma lookup_set_same (o : obj) (k : string) (v : value) :
  lookup (set o k v) k = Some v.
Proof.
  induction o as [|[k' v'] o IH]; cbn [set lookup].
  - now rewrite String.eqb_refl.
  - destruct (String.eqb k k') eqn:E; cbn [lookup].
    + now rewrite String.eqb_refl.
    + now rewrite E.
Qed.

Lemma lookup_set_other (o : obj) (k k' : string) (v : value) :
  k <> k' -> lookup (set o k v) k' = lookup o k'.
Proof.
  intros Hne. apply String.eqb_neq in Hne. rewrite String.eqb_sym in Hne.
  induction o as [|[k0 v0] o IH]; cbn [set lookup].
  - now rewrite Hne.
  - destruct (String.eqb k k0) eqn:E; cbn [lookup].
    + apply String.eqb_eq in E. subst k0. now rewrite Hne.
    + now rewrite IH.
Qed.

Lemma delete_absent (o : obj) (k : string) : has o k = false -> delete o k = o.
Proof.
  unfold has, delete. induction o as [|[k' v] o IH]; cbn [filter lookup fst].
  - reflexivity.
  - destruct (String.eqb k k') eqn:E; [discriminate|].
    cbn [negb]. intros H. now rewrite (IH H).
Qed.

(** A loop [for (key in spec) item = step(item, key)] whose step rewrites
    the field [key] alone: every listed field is rewritten once. *)
Lemma fold_step_get (step : obj -> string -> obj)
  (F : value -> string -> value) :
  (forall it key, get (step it key) key = F (get it key) key) ->
  (forall it key k, key <> k -> get (step it key) k = get it k) ->
  forall ks, NoDup ks ->
  forall item k,
    get (fold_left step ks item) k =
    if Update.mem k ks then F (get item k) k else get item k.
Proof.
  intros Hsame Hother ks Hnd.
  induction Hnd as [|a ks Hnin Hnd IH]; intros item k; cbn [fold_left].
  - reflexivity.
  - rewrite IH. unfold Update.mem at 2. cbn [existsb].
    fold (Update.mem k ks).
    destruct (String.eqb k a) eqn:E; cbn [orb].
    + apply String.eqb_eq in E. subst a.
      apply mem_not_In in Hnin. now rewrite Hnin, Hsame.
    + apply String.eqb_neq in E.
      rewrite Hother by congruence. reflexivity.
Qed.

(** ** update.js: the operators one by one *)

Section OperatorFacts.

Variable loose_eq : value -> value -> bool.

(** X1: [$set] assigns every listed field its value and leaves the other
    fields as they are. *)
Theorem set_assigns_listed_fields :
  forall (o m : obj),
    Fields.all_plain (keys m) ->
    let u := VObj [("$set", VObj m)] in
    Update.update loose_eq (AVal u) = inr (Some (Update.mutator loose_eq u)) /\
    exists o',
      Update.mutator loose_eq u (VObj o) = VObj o' /\
      forall k, get o' k = if Update.mem k (keys m) then get m k else get o k.
Proof.
  intros o m _ u. split; [reflexivity|].
  exists (fold_left (Update.set_step (VObj m)) (keys m) o).
  split; [reflexivity|]. intros k.
  apply (fold_step_get (Update.set_step (VObj m)) (fun _ key => get m key)).
  - intros it key. apply get_set_same.
  - intros it key k' Hne. now apply get_set_other.
  - apply keys_NoDup.
Qed.

(** X2: [$unset] removes every listed field, whatever value the
    specification gives it, keeps the other fields, and leaves a document
    that owns none of the listed fields exactly as it was. *)
Theorem unset_removes_listed_fields :
  forall (o m : obj),
    Fields.all_plain (keys m) ->
    let u := VObj [("$unset", VObj m)] in
    exists o',
      Update.mutator loose_eq u (VObj o) = VObj o' /\
      (forall k, has o' k = has o k && negb (Update.mem k (keys m))) /\
      (forall k, get o' k =
                 if Update.mem k (keys m) then VUndefined else get o k) /\
      ((forall k, In k (keys m) -> has o k = false) -> o' = o).
Proof.
  intros o m _ u.
  exists (fold_left (Update.unset_step (VObj m)) (keys m) o).
  split; [reflexivity|].
  assert (Hlk : forall ks item k,
             lookup (fold_left (Update.unset_step (VObj m)) ks item) k =
             if Update.mem k ks then None else lookup item k).
  { induction ks as [|a ks IH]; intros item k; cbn [fold_left].
    - reflexivity.
    - rewrite IH. unfold Update.mem at 2. cbn [existsb].
      fold (Update.mem k ks). unfold Update.unset_step.
      destruct (Update.mem k ks); [now rewrite orb_true_r|].
      rewrite orb_false_r.
      destruct (String.eqb k a) eqn:E.
      + apply String.eqb_eq in E. subst a. apply lookup_delete_same.
      + apply String.eqb_neq in E. apply lookup_delete_other. congruence. }
  split; [|split].
  - intros k. unfold has. rewrite Hlk.
    destruct (Update.mem k (keys m)); cbn [negb];
      [now rewrite andb_false_r | now rewrite andb_true_r].
  - intros k. unfold get. rewrite Hlk. now destruct (Update.mem k (keys m)).
  - generalize (keys m). intros ks. revert o.
    induction ks as [|a ks IH]; intros o Habs; cbn [fold_left]; [reflexivity|].
    unfold Update.unset_step at 2.
    rewrite (delete_absent o a) by (apply Habs; now left).
    apply IH. intros k Hin. apply Habs. now right.
Qed.

(** X3: [$rename] of one field: for different names the new field holds
    what the old one held and the old field is gone; when the document
    has no such field, the new field is still created and holds
    [undefined]; renaming a field to its own name removes it. *)
Theorem rename_moves_field :
  forall (o : obj) (old new : string),
    Fields.plain old -> Fields.plain new ->
    let u := VObj [("$rename", VObj [(old, VStr new)])] in
    exists o',
      Update.mutator loose_eq u (VObj o) = VObj o' /\
      has o' old = false /\
      (old <> new ->
       has o' new = true /\ get o' new = get o old /\
       forall k, k <> old -> k <> new -> lookup o' k = lookup o k) /\
      (old = new -> forall k, k <> old -> lookup o' k = lookup o k).
Proof.
  intros o old new _ _ u.
  exists (delete (set o new (get o old)) old).
  split.
  { unfold u, Update.mutator, Update.apply_operators. cbn.
    unfold Update.rename_step, get_prop, get. cbn [props lookup].
    now rewrite String.eqb_refl. }
  split; [unfold has; now rewrite lookup_delete_same|].
  split.
  - intros Hne. split; [|split].
    + unfold has. rewrite lookup_delete_other by congruence.
      now rewrite lookup_set_same.
    + unfold get at 1. rewrite lookup_delete_other by congruence.
      now rewrite lookup_set_same.
    + intros k Hko Hkn. rewrite lookup_delete_other by congruence.
      apply lookup_set_other. congruence.
  - intros <- k Hk. rewrite lookup_delete_other by congruence.
    apply lookup_set_other. congruence.
Qed.

(** X4: [$push] appends the value to the field's array, starts a
    one-element array on an absent field and promotes any other value to
    the first element; [{$push:{tags:"b"}}] turns [{tags:"a"}] into
    [{tags:["a","b"]}]. *)
Theorem push_appends :
  forall (o m : obj),
    Fields.all_plain (keys m) ->
    let u := VObj [("$push", VObj m)] in
    (exists o',
        Update.mutator loose_eq u (VObj o) = VObj o' /\
        forall k,
          get o' k =
          if Update.mem k (keys m)
          then VArr (Fields.as_array (get o k) ++ [get m k])
          else get o k) /\
    Update.mutator loose_eq (VObj [("$push", VObj [("tags", VStr "b")])])
      (VObj [("tags", VStr "a")]) = VObj [("tags", VArr [VStr "a"; VStr "b"])].
Proof.
  intros o m _ u. split; [|reflexivity].
  exists (fold_left (Update.push_step (VObj m)) (keys m) o).
  split; [reflexivity|]. intros k.
  apply (fold_step_get (Update.push_step (VObj m))
           (fun old key => VArr (Fields.as_array old ++ [get m key]))).
  - intros it key. unfold Update.push_step. apply get_set_same.
  - intros it key k' Hne. unfold Update.push_step. now apply get_set_other.
  - apply keys_NoDup.
Qed.

(** X5: [$pull] on an array field keeps, in order, exactly the elements
    that are not [==] to the value; a field that is no array becomes the
    empty array when it is [==] to the value and stays as it is
    otherwise. *)
Theorem pull_removes_equal_elements :
  forall (o m : obj),
    Fields.all_plain (keys m) ->
    let u := VObj [("$pull", VObj m)] in
    exists o',
      Update.mutator loose_eq u (VObj o) = VObj o' /\
      (forall k, Update.mem k (keys m) = false -> get o' k = get o k) /\
      (forall k l,
          Update.mem k (keys m) = true -> get o k = VArr l ->
          exists l',
            get o' k = VArr l' /\
            l' = filter (fun t => negb (loose_eq (get m k) t)) l /\
            forall t, In t l' <-> In t l /\ loose_eq (get m k) t = false) /\
      (forall k,
          Update.mem k (keys m) = true ->
          (forall l, get o k <> VArr l) ->
          get o' k = if loose_eq (get m k) (get o k) then VArr [] else get o k).
Proof.
  intros o m _ u.
  exists (fold_left (Update.pull_step loose_eq (VObj m)) (keys m) o).
  split; [reflexivity|].
  pose (F := fun (old : value) (key : string) =>
               match old with
               | VArr l =>
                   VArr (filter (fun t => negb (loose_eq (get m key) t)) l)
               | _ => if loose_eq (get m key) old then VArr [] else old
               end).
  assert (Hget : forall k,
             get (fold_left (Update.pull_step loose_eq (VObj m)) (keys m) o) k =
             if Update.mem k (keys m) then F (get o k) k else get o k).
  { intros k. apply (fold_step_get (Update.pull_step loose_eq (VObj m)) F).
    - intros it key. unfold Update.pull_step, F, get_prop. cbn [props].
      destruct (get it key) eqn:E; try apply get_set_same;
        destruct (loose_eq (get m key) _); try apply get_set_same;
        exact E.
    - intros it key k' Hne. unfold Update.pull_step, get_prop. cbn [props].
      destruct (get it key); try (now apply get_set_other);
        destruct (loose_eq (get m key) _); try reflexivity;
        now apply get_set_other.
    - apply keys_NoDup. }
  split; [|split].
  - intros k Hk. now rewrite Hget, Hk.
  - intros k l Hk Hl. rewrite Hget, Hk, Hl. cbn [F].
    eexists. split; [reflexivity|]. split; [reflexivity|].
    intros t. rewrite filter_In, negb_true_iff. reflexivity.
  - intros k Hk Hna. rewrite Hget, Hk. unfold F.
    destruct (get o k); try reflexivity. now contradiction (Hna l).
Qed.

End OperatorFacts.

Lemma set_assigns_listed_fields_witness :
  let o := [("a", VNum 1); ("b", VNum 2)] in
  let m := [("b", VStr "x"); ("c", VBool true)] in
  Fields.all_plain (keys m) /\
  Update.mutator prim_eq (VObj [("$set", VObj m)]) (VObj o) =
    VObj [("a", VNum 1); ("b", VStr "x"); ("c", VBool true)].
Proof.
  intros o m.
  assert (H : Fields.all_plain (keys m)).
  { intros k [<-|[<-|[]]]; reflexivity. }
  split; [exact H|].
  destruct (set_assigns_listed_fields prim_eq o m H) as (_ & o' & Ho & _).
  reflexivity.
Defined.

Lemma unset_removes_listed_fields_witness :
  let o := [("a", VNum 1); ("b", VNum 2)] in
  let m := [("b", VStr ""); ("z", VNum 1)] in
  Fields.all_plain (keys m) /\
  exists o',
    Update.mutator prim_eq (VObj [("$unset", VObj m)]) (VObj o) = VObj o' /\
    has o' "b" = false /\ has o' "a" = true.
Proof.
  intros o m.
  assert (H : Fields.all_plain (keys m)).
  { intros k [<-|[<-|[]]]; reflexivity. }
  split; [exact H|].
  destruct (unset_removes_listed_fields prim_eq o m H)
    as (o' & Ho & Hhas & _).
  exists o'. split; [exact Ho|]. split; rewrite Hhas; reflexivity.
Defined.

Lemma rename_moves_field_witness :
  let o := [("a", VNum 1); ("b", VNum 2)] in
  Fields.plain "a" /\ Fields.plain "c" /\
  exists o',
    Update.mutator prim_eq (VObj [("$rename", VObj [("a", VStr "c")])])
      (VObj o) = VObj o' /\
    has o' "a" = false /\ get o' "c" = VNum 1.
Proof.
  intros o.
  split; [reflexivity|]. split; [reflexivity|].
  destruct (rename_moves_field prim_eq o "a" "c" eq_refl eq_refl)
    as (o' & Ho & Hold & Hne & _).
  exists o'. split; [exact Ho|]. split; [exact Hold|].
  destruct (Hne ltac:(discriminate)) as (_ & Hget & _).
  rewrite Hget. reflexivity.
Defined.

Lemma push_appends_witness :
  let o := [("tags", VArr [VStr "a"]); ("n", VNum 1)] in
  let m := [("tags", VStr "b"); ("seen", VNum 3)] in
  Fields.all_plain (keys m) /\
  exists o',
    Update.mutator prim_eq (VObj [("$push", VObj m)]) (VObj o) = VObj o' /\
    get o' "tags" = VArr [VStr "a"; VStr "b"] /\
    get o' "seen" = VArr [VNum 3] /\
    get o' "n" = VNum 1.
Proof.
  intros o m.
  assert (H : Fields.all_plain (keys m)).
  { intros k [<-|[<-|[]]]; reflexivity. }
  split; [exact H|].
  destruct (push_appends prim_eq o m H) as ((o' & Ho & Hget) & _).
  exists o'. split; [exact Ho|]. repeat split; rewrite Hget; reflexivity.
Defined.

Lemma pull_removes_equal_elements_witness :
  let o := [("tags", VArr [VStr "a"; VStr "b"; VStr "a"])] in
  let m := [("tags", VStr "a")] in
  Fields.all_plain (keys m) /\
  exists o',
    Update.mutator prim_eq (VObj [("$pull", VObj m)]) (VObj o) = VObj o' /\
    get o' "tags" = VArr [VStr "b"].
Proof.
  intros o m.
  assert (H : Fields.all_plain (keys m)).
  { intros k [<-|[]]; reflexivity. }
  split; [exact H|].
  destruct (pull_removes_equal_elements prim_eq o m H)
    as (o' & Ho & _ & Harr & _).
  exists o'. split; [exact Ho|].
  destruct (Harr "tags" _ eq_refl eq_refl) as (l' & Hl' & -> & _).
  exact Hl'.
Defined.

(** ** update.js: compilation and the order of the operators *)



(** X7: [update] never returns [null]: the test [!Object.keys(update)] is
    never true.  An absent, [null] or otherwise falsy specification and
    the empty object compile to a function that hands every item back
    unchanged; a function is returned as it is; a truthy value that is no
    object is refused with ['invalid update: '] and that value; and every
    compiled function hands a falsy item back. *)
Theorem update_compile_edges :
  forall (loose_eq : value -> value -> bool),
    (forall u, Update.update loose_eq u <> inr None) /\
    (forall u0,
        truthy u0 = false \/ u0 = VObj [] ->
        Update.update loose_eq (AVal u0) =
          inr (Some (Update.mutator loose_eq (VObj []))) /\
        forall item, Update.mutator loose_eq (VObj []) item = item) /\
    (forall f, Update.update loose_eq (AFun f) = inr (Some f)) /\
    (forall u0,
        truthy u0 = true -> typeof u0 <> "object" ->
        Update.update loose_eq (AVal u0) =
          inl (Error "invalid update: " (Some u0))) /\
    (forall upd item,
        truthy item = false -> Update.mutator loose_eq upd item = item).
Proof.
  intros loose_eq. split; [|split; [|split; [|split]]].
  - intros [f|u0]; cbn [Update.update]; [discriminate|].
    cbn [truthy negb].
    destruct (negb (String.eqb "object" (typeof (or_else u0 (VObj [])))));
      [discriminate|].
    destruct (Update.check_operators _ _); discriminate.
  - intros u0 [Hf| ->].
    + split.
      * unfold Update.update, or_else. rewrite Hf. reflexivity.
      * intros item. unfold Update.mutator.
        destruct (negb (truthy item)); [reflexivity|].
        destruct item; reflexivity.
    + split; [reflexivity|].
      intros item. unfold Update.mutator.
      destruct (negb (truthy item)); [reflexivity|].
      destruct item; reflexivity.
  - reflexivity.
  - intros u0 Ht Hty. unfold Update.update, or_else. rewrite Ht.
    cbn [truthy negb].
    destruct (String.eqb "object" (typeof u0)) eqn:E; [|reflexivity].
    apply String.eqb_eq in E. now contradiction Hty.
  - intros upd item Hf. unfold Update.mutator. now rewrite Hf.
Qed.

Lemma update_compile_edges_witness :
  Update.update prim_eq (AVal (VNum 0)) =
    inr (Some (Update.mutator prim_eq (VObj []))) /\
  Update.update prim_eq (AVal (VStr "x")) =
    inl (Error "invalid update: " (Some (VStr "x"))).
Proof.
  destruct (update_compile_edges prim_eq) as (_ & Hfalsy & _ & Hbad & _).
  split.
  - exact (proj1 (Hfalsy (VNum 0) (or_introl eq_refl))).
  - apply Hbad; [reflexivity | discriminate].
Defined.

(** ** memory.js: reading back what was written *)

Lemma shared_get_set_same (sh : Memory.shared) (n : string) (o : obj) :
  Memory.shared_get (Memory.shared_set sh n o) n = Some o.
Proof.
  induction sh as [|[n' o'] sh IH]; cbn [Memory.shared_set Memory.shared_get].
  - now rewrite String.eqb_refl.
  - destruct (String.eqb n n') eqn:E; cbn [Memory.shared_get]; now rewrite E.
Qed.

(** Once the store reference is bound it stays bound to the same store,
    and what is put into the store is what the next access finds. *)
Lemma the_store_bound (wd : Memory.world) :
  let wd' := snd (Memory.the_store wd) in
  Memory.the_store wd' = (fst (Memory.the_store wd), wd') /\
  forall o, Memory.the_store (Memory.put_store wd' o) =
            (o, Memory.put_store wd' o).
Proof.
  destruct wd as [sh [ns [[o0|n]|]]]; cbn.
  - split; [reflexivity|]. intros o. reflexivity.
  - split; [reflexivity|]. intros o. cbn. now rewrite shared_get_set_same.
  - destruct ns as [n|]; [|split; [reflexivity | intros o; reflexivity]].
    unfold Memory.memory_store.
    destruct (truthy (VStr n));
      [|split; [reflexivity | intros o; reflexivity]].
    destruct (Memory.shared_get sh n) as [o1|] eqn:E; cbn.
    + rewrite E. split; [reflexivity|]. intros o.
      now rewrite shared_get_set_same.
    + rewrite shared_get_set_same. split; [reflexivity|]. intros o.
      now rewrite shared_get_set_same.
Qed.

Section MemoryFacts.

Variable escape : string -> string.
Variable encode : value -> error + value.
Variable dec : value -> error + value.

Local Abbreviation content wd := (fst (Memory.the_store wd)).

Lemma memory_write_ok (id : string) (item x : value) (wd : Memory.world) :
  encode item = inr x ->
  Memory.write escape encode id item wd =
  (None, Memory.put_store (snd (Memory.the_store wd))
           (set (content wd) (escape id) x)).
Proof.
  intros He. unfold Memory.write.
  destruct (Memory.the_store wd) as [st wd']. cbn [fst snd]. now rewrite He.
Qed.





End MemoryFacts.

(** X12: an identifier that [unescape] recovers from its key is listed by
    [index] once an item was written under it. *)
Theorem memory_index_lists_written_id :
  forall (escape : string -> string) (unescape : string -> error + string)
         (encode : value -> error + value)
         (id : string) (item x : value) (wd : Memory.world),
    Fields.plain (escape id) ->
    encode item = inr x ->
    unescape (escape id) = inr id ->
    In (inr id)
       (fst (Memory.index unescape
               (snd (Memory.write escape encode id item wd)))).
Proof.
  intros escape unescape encode id item x wd _ He Hu.
  rewrite (memory_write_ok escape encode id item x wd He). cbn [snd].
  destruct (the_store_bound wd) as [_ Hput].
  unfold Memory.index. rewrite Hput. cbn [fst].
  rewrite filter_In, in_map_iff. split; [|reflexivity].
  exists (escape id). split; [exact Hu|].
  assert (Hk : forall (o : obj) k, has o k = true -> In k (keys o)).
  { induction o as [|[k' v] o IH]; intros k; unfold has; cbn [lookup keys].
    - discriminate.
    - destruct (String.eqb k k') eqn:E.
      + apply String.eqb_eq in E. subst k'. intros _. now left.
      + intros H. right. rewrite filter_In. split.
        * apply IH. exact H.
        * rewrite String.eqb_sym. now rewrite E. }
  apply Hk. unfold has. now rewrite lookup_set_same.
Qed.




Lemma memory_index_lists_written_id_witness :
  let wd := ([("fruit", [("pear", VNum 2)])],
             {| Memory.namespace := Some "fruit";
                Memory._memory_store := None |}) in
  let ident := fun s : string => s in
  Fields.plain (ident "apple") /\
  In (inr "apple")
     (fst (Memory.index (fun k => inr k)
             (snd (Memory.write ident inr "apple" (VNum 1) wd)))).
Proof.
  intros wd ident. split; [reflexivity|].
  exact (memory_index_lists_written_id ident (fun k => inr k) inr "apple"
           (VNum 1) (VNum 1) wd eq_refl eq_refl eq_refl).
Defined.

(** ** lib/core/cursor.js: what a drained cursor yields *)

Lemma serves_truthy {U : Type} (pull1 : Lib.pull U) (u u' : U)
  (l : list value) :
  Runs.serves pull1 u l u' -> forall x, In x l -> truthy x = true.
Proof.
  induction 1 as [|u item u1 l u' Hn Ht Hs IH]; intros x Hin.
  - destruct Hin.
  - destruct Hin as [<-|Hin]; [exact Ht | now apply IH].
Qed.

Section PipelineFacts.

Variable coll : collection.
Variable sorter : Type.
Variable array_sort : sorter -> list value -> list value.

Local Abbreviation next := (Lib.nextObject coll array_sort).

Lemma serves_more_fuel (f f' : nat) (u u' : Lib.state sorter)
  (l : list value) :
  Runs.serves (next f) u l u' -> (f <= f')%nat ->
  Runs.serves (next f') u l u'.
Proof.
  intros Hs Hf.
  induction Hs as [|u item u1 l u' Hn Ht Hs IH]; [constructor|].
  econstructor; [|exact Ht|exact IH].
  now apply (nextObject_more_fuel coll sorter array_sort f f').
Qed.

Lemma drains_more_fuel (f f' : nat) (u u' : Lib.state sorter)
  (l : list value) :
  Runs.drains (next f) u l u' -> (f <= f')%nat ->
  Runs.drains (next f') u l u'.
Proof.
  intros (u1 & Hs & item & Hn & Ht) Hf.
  exists u1. split; [now apply (serves_more_fuel f f')|].
  exists item. split; [|exact Ht].
  now apply (nextObject_more_fuel coll sorter array_sort f f').
Qed.


Lemma cursor_toArray_of_drains (fuel : nat) (c : Lib.Cursor sorter)
  (w w' : list call) (s' : Lib.stage sorter) (l : list value) :
  Lib._error c = None -> Lib._toArray c = None ->
  Runs.drains (next fuel) (Lib.source c, w) l (s', w') ->
  (List.length l < fuel)%nat ->
  Lib.Cursor_toArray coll array_sort fuel c w =
  Some (inr l,
        ({| Lib.source := s'; Lib._index := Lib._index c;
            Lib._toArray := Some l; Lib._error := None |}, w')).
Proof.
  intros He Hm Hd Hf. unfold Lib.Cursor_toArray. rewrite He, Hm.
  now rewrite (toArray_drains _ _ _ _ Hd fuel [] Hf).
Qed.

End PipelineFacts.



(** ** lib/core/cursor.js: [offset], [limit] and [sort] stacked on a cursor *)

Section StackingFacts.

Variable coll : collection.
Variable sorter : Type.
Variable array_sort : sorter -> list value -> list value.

Local Abbreviation next := (Lib.nextObject coll array_sort).

Lemma sort_buffer_serves (fuel : nat) (s : Lib.stage sorter) (by_ : sorter)
  (l : list value) (w : list call) :
  (forall x, In x l -> truthy x = true) ->
  Runs.serves (next (S fuel)) (Lib.Sort s (inr by_) (Some l), w) l
    (Lib.Sort s (inr by_) (Some []), w).
Proof.
  induction l as [|a l IH]; intros Ht; [constructor|].
  econstructor.
  - reflexivity.
  - apply Ht. now left.
  - apply IH. intros x Hx. apply Ht. now right.
Qed.

Lemma chain_sort (fuel : nat) (by_ : sorter)
  (src src' : Lib.stage sorter) (w w' : list call) (l : list value) :
  Runs.drains (next fuel) (src, w) l (src', w') ->
  (List.length l < fuel)%nat ->
  (forall x, In x (array_sort by_ l) -> In x l) ->
  Runs.drains (next (S fuel)) (Lib.Sort src (inr by_) None, w)
    (array_sort by_ l) (Lib.Sort src' (inr by_) (Some []), w') /\
  exists o1 s1,
    next (S fuel) (Lib.Sort src (inr by_) None, w) = Some (o1, (s1, w')).
Proof.
  intros Hd Hf Hin.
  pose proof (toArray_drains _ _ _ _ Hd fuel [] Hf) as Hta.
  cbn [app] in Hta.
  assert (Htr : forall x, In x (array_sort by_ l) -> truthy x = true).
  { intros x Hx. destruct Hd as (u1 & Hs & _).
    apply (serves_truthy _ _ _ _ Hs). now apply Hin. }
  assert (Hfirst :
            next (S fuel) (Lib.Sort src (inr by_) None, w) =
            match array_sort by_ l with
            | [] => Some (Got VUndefined,
                          (Lib.Sort src' (inr by_) (Some []), w'))
            | item :: l' =>
                Some (Got item, (Lib.Sort src' (inr by_) (Some l'), w'))
            end).
  { cbn [Lib.nextObject]. now rewrite Hta. }
  split.
  - destruct (array_sort by_ l) as [|item l'] eqn:E.
    + exists (Lib.Sort src (inr by_) None, w). split; [constructor|].
      exists VUndefined. split; [exact Hfirst | reflexivity].
    + exists (Lib.Sort src' (inr by_) (Some []), w'). split.
      * econstructor; [exact Hfirst | apply Htr; now left |].
        apply sort_buffer_serves. intros x Hx. apply Htr. now right.
      * exists VUndefined. split; reflexivity.
  - rewrite Hfirst. destruct (array_sort by_ l); eexists; eexists; reflexivity.
Qed.

End StackingFacts.

(** X14: the stages act in the order in which they were put on the
    cursor: [offset(n).limit(m)] yields items [n+1 .. n+m] of the result
    sequence, [limit(m).offset(n)] drops [n] of the first [m]; two
    offsets add up and of two limits the smaller one wins. *)
Theorem pagination_follows_call_order :
  forall (coll : collection) (sorter : Type)
         (array_sort : sorter -> list value -> list value)
         (fuel : nat) (c : Lib.Cursor sorter) (w w' : list call)
         (s' : Lib.stage sorter) (l : list value) (n m : Z),
    Lib._error c = None -> Lib._toArray c = None ->
    Runs.drains (Lib.nextObject coll array_sort fuel) (Lib.source c, w) l
      (s', w') ->
    (List.length l < fuel)%nat ->
    let answer c0 := option_map fst
                       (Lib.Cursor_toArray coll array_sort (S (S fuel)) c0 w) in
    answer (Lib.Cursor_limit (Lib.Cursor_offset c n) m) =
      Some (inr (firstn (Z.to_nat m) (skipn (Z.to_nat n) l))) /\
    answer (Lib.Cursor_offset (Lib.Cursor_limit c m) n) =
      Some (inr (skipn (Z.to_nat n) (firstn (Z.to_nat m) l))) /\
    answer (Lib.Cursor_offset (Lib.Cursor_offset c n) m) =
      Some (inr (skipn (Z.to_nat n + Z.to_nat m) l)) /\
    answer (Lib.Cursor_limit (Lib.Cursor_limit c n) m) =
      Some (inr (firstn (Nat.min (Z.to_nat m) (Z.to_nat n)) l)).
Proof.
  intros coll sorter array_sort fuel c w w' s' l n m He Hm Hd Hf answer.
  pose proof (chain_offset coll sorter array_sort fuel) as CO.
  pose proof (chain_limit coll sorter array_sort fuel) as CL.
  pose proof (chain_offset coll sorter array_sort (S fuel)) as CO1.
  pose proof (chain_limit coll sorter array_sort (S fuel)) as CL1.
  assert (Hrun : forall (s0 s1 : Lib.stage sorter) w1 l0,
             Runs.drains (Lib.nextObject coll array_sort (S (S fuel)))
               (s0, w) l0 (s1, w1) ->
             (List.length l0 <= List.length l)%nat ->
             answer (Lib.set_source c s0) = Some (inr l0)).
  { intros s0 s1 w1 l0 H0 Hl. unfold answer.
    rewrite (cursor_toArray_of_drains coll sorter array_sort (S (S fuel))
               (Lib.set_source c s0) w w1 s1 l0); [reflexivity | | | |].
    - exact He.
    - exact Hm.
    - exact H0.
    - lia. }
  split; [|split; [|split]].
  - destruct (CO n _ _ _ _ _ Hd) as (r1 & H1).
    destruct (CL1 m _ _ _ _ _ H1) as (r2 & s2 & w2 & H2).
    apply (Hrun _ _ _ _ H2).
    rewrite length_firstn, length_skipn. lia.
  - destruct (CL m _ _ _ _ _ Hd) as (r1 & s1 & w1 & H1).
    destruct (CO1 n _ _ _ _ _ H1) as (r2 & H2).
    apply (Hrun _ _ _ _ H2).
    rewrite length_skipn, length_firstn. lia.
  - destruct (CO n _ _ _ _ _ Hd) as (r1 & H1).
    destruct (CO1 m _ _ _ _ _ H1) as (r2 & H2).
    rewrite skipn_skipn in H2. rewrite Nat.add_comm in H2.
    apply (Hrun _ _ _ _ H2).
    rewrite length_skipn. lia.
  - destruct (CL n _ _ _ _ _ Hd) as (r1 & s1 & w1 & H1).
    destruct (CL1 m _ _ _ _ _ H1) as (r2 & s2 & w2 & H2).
    rewrite firstn_firstn in H2.
    apply (Hrun _ _ _ _ H2).
    rewrite length_firstn. lia.
Qed.

Lemma pagination_follows_call_order_witness :
  let c := Lib.new_Cursor Examples.where_spec Examples.view_functions
             (sorter := unit) (AVal VUndefined) (AVal VUndefined) in
  let answer c0 :=
    option_map fst (Lib.Cursor_toArray Examples.shop Examples.sort_none 8 c0 [])
  in
  answer (Lib.Cursor_limit (Lib.Cursor_offset c 1) 2) =
    Some (inr [Examples.doc "bean" 2; Examples.doc "corn" 3]) /\
  answer (Lib.Cursor_offset (Lib.Cursor_limit c 2) 1) =
    Some (inr [Examples.doc "bean" 2]).
Proof.
  intros c answer.
  assert (Hr : readable Examples.shop ["a"; "b"; "c"; "d"; "e"]).
  { intros id [<-|[<-|[<-|[<-|[<-|[]]]]]]; eexists; split; reflexivity. }
  pose proof (source_drains Examples.shop unit Examples.sort_none 5
                ["a"; "b"; "c"; "d"; "e"] [] eq_refl Hr) as Hd.
  destruct (pagination_follows_call_order Examples.shop unit
              Examples.sort_none 6 c [] _ _ _ 1 2 eq_refl eq_refl Hd
              ltac:(cbn; lia)) as (H1 & H2 & _).
  split; [exact H1 | exact H2].
Defined.

(** X15: a [sort] stage reads its whole upstream at the first pull and
    then serves the sorted list from memory, so [sort(order).toArray()]
    is the sorted result sequence; an order that [obop.order] rejects is
    reported by the first pull, without a storage call and without
    latching an error on the cursor. *)
Theorem sort_reads_all_then_serves :
  forall (coll : collection) (sorter : Type)
         (obop_order : value -> error + sorter)
         (array_sort : sorter -> list value -> list value)
         (fuel : nat) (c : Lib.Cursor sorter) (w w' : list call)
         (s' : Lib.stage sorter) (l : list value) (order : value),
    Lib._error c = None -> Lib._toArray c = None ->
    Runs.drains (Lib.nextObject coll array_sort fuel) (Lib.source c, w) l
      (s', w') ->
    (List.length l < fuel)%nat ->
    let sorted := Lib.Cursor_sort obop_order c order in
    (forall by_,
        obop_order order = inr by_ ->
        (forall x, In x (array_sort by_ l) -> In x l) ->
        List.length (array_sort by_ l) = List.length l ->
        (exists c1,
            Lib.Cursor_toArray coll array_sort (S fuel) sorted w =
            Some (inr (array_sort by_ l), (c1, w'))) /\
        (exists o1 s1,
            Lib.nextObject coll array_sort (S fuel) (Lib.source sorted, w) =
            Some (o1, (s1, w')))) /\
    (forall e,
        obop_order order = inl e ->
        Lib._error sorted = None /\
        forall fuel',
          Lib.Cursor_toArray coll array_sort (S fuel') sorted w =
          Some (inl e, (sorted, w))).
Proof.
  intros coll sorter obop_order array_sort fuel c w w' s' l order
    He Hm Hd Hf sorted.
  split.
  - intros by_ Ho Hin Hlen.
    destruct (chain_sort coll sorter array_sort fuel by_ _ _ _ _ _ Hd Hf Hin)
      as (Hs & Hfirst).
    assert (Hsorted : sorted =
                      Lib.set_source c
                        (Lib.Sort (Lib.source c) (inr by_) None)).
    { unfold sorted, Lib.Cursor_sort. now rewrite Ho. }
    rewrite Hsorted. split; [|exact Hfirst].
    assert (Hlt : (List.length (array_sort by_ l) < S fuel)%nat) by lia.
    rewrite (cursor_toArray_of_drains coll sorter array_sort (S fuel)
               (Lib.set_source c (Lib.Sort (Lib.source c) (inr by_) None))
               w w' _ _ He Hm Hs Hlt).
    eexists. reflexivity.
  - intros e Ho. split; [exact He|]. intros fuel'.
    unfold sorted, Lib.Cursor_sort, Lib.Cursor_toArray.
    cbn [Lib._error Lib._toArray Lib.source Lib.set_source].
    rewrite He, Hm, Ho. cbn [Lib.toArray Lib.nextObject].
    unfold Lib.set_source. cbn. now rewrite He, Hm.
Qed.

Lemma sort_reads_all_then_serves_witness :
  let c := Lib.new_Cursor Examples.where_spec Examples.view_functions
             (sorter := value -> value -> bool)
             (AVal VUndefined) (AVal VUndefined) in
  let down := Lib.Cursor_limit
                (Lib.Cursor_sort Samples.order_by_price c
                   (VObj [("price", VNum (-1))])) 2 in
  Lib._error c = None /\
  option_map fst (Lib.Cursor_toArray Examples.shop Samples.sort_by 9 down [])
    = Some (inr [Examples.doc "egg" 5; Examples.doc "date" 4]) /\
  exists c1,
    Lib.Cursor_toArray Examples.shop Samples.sort_by 7
      (Lib.Cursor_sort Samples.order_by_price c (VObj [("price", VNum 1)])) []
    = Some (inr [Examples.doc "apple" 1; Examples.doc "bean" 2;
                 Examples.doc "corn" 3; Examples.doc "date" 4;
                 Examples.doc "egg" 5],
            (c1, [Index; Read "a"; Read "b"; Read "c"; Read "d"; Read "e"])).
Proof.
  intros c down. split; [reflexivity|]. split; [reflexivity|].
  assert (Hr : readable Examples.shop ["a"; "b"; "c"; "d"; "e"]).
  { intros id [<-|[<-|[<-|[<-|[<-|[]]]]]]; eexists; split; reflexivity. }
  pose proof (source_drains Examples.shop _ Samples.sort_by 5
                ["a"; "b"; "c"; "d"; "e"] [] eq_refl Hr) as Hd.
  destruct (sort_reads_all_then_serves Examples.shop _ Samples.order_by_price
              Samples.sort_by 6 c [] _ _ _ (VObj [("price", VNum 1)])
              eq_refl eq_refl Hd ltac:(cbn; lia)) as (Hsort & _).
  destruct (Hsort _ eq_refl) as ((c1 & H1) & _).
  - intros x Hx. exact Hx.
  - reflexivity.
  - exists c1. exact H1.
Defined.

(** ** lib/core/cursor.js: [each] *)

Section EachFacts.

Variable coll : collection.
Variable sorter : Type.
Variable array_sort : sorter -> list value -> list value.

Local Abbreviation next := (Lib.nextObject coll array_sort).

Lemma each_iterator_serves (f0 : nat) (u u' : Lib.state sorter)
  (l : list value) :
  Runs.serves (next f0) u l u' ->
  forall fuel seen,
    (f0 + List.length l <= fuel)%nat ->
    Lib.each_iterator coll array_sort fuel u seen =
    Lib.each_iterator coll array_sort (fuel - List.length l) u'
      (seen ++ map Got l).
Proof.
  induction 1 as [|u item u1 l u' Hn Ht Hs IH]; intros fuel seen Hf.
  - cbn [List.length map]. now rewrite Nat.sub_0_r, app_nil_r.
  - cbn [List.length] in Hf. destruct fuel as [|fuel]; [lia|].
    cbn [Lib.each_iterator].
    rewrite (nextObject_more_fuel coll sorter array_sort f0 fuel _ _ Hn)
      by lia.
    rewrite Ht. rewrite IH by lia.
    cbn [List.length map Nat.sub]. now rewrite <- app_assoc.
Qed.

Lemma each_iterator_last (f0 : nat) (u u' : Lib.state sorter)
  (o : outcome) (fuel : nat) (seen : list outcome) :
  next f0 u = Some (o, u') ->
  (match o with Got item => truthy item = false | Failed _ => True end) ->
  (f0 < fuel)%nat ->
  Lib.each_iterator coll array_sort fuel u seen = Some (seen ++ [o], u').
Proof.
  intros Hn Ho Hf. destruct fuel as [|fuel]; [lia|].
  cbn [Lib.each_iterator].
  rewrite (nextObject_more_fuel coll sorter array_sort f0 fuel _ _ Hn) by lia.
  destruct o as [e|item]; [reflexivity|]. now rewrite Ho.
Qed.

End EachFacts.

(** X16: [each] hands the items to the callback one by one, in order, and
    then the falsy item that ends the sequence; when a pull fails, the
    items before the failure have been delivered and the error comes
    last, whereas [toArray] on the same cursor delivers the error
    alone. *)
Theorem each_delivers_until_end_or_failure :
  forall (coll : collection) (sorter : Type)
         (array_sort : sorter -> list value -> list value)
         (f0 fuel : nat) (c : Lib.Cursor sorter) (w : list call)
         (l : list value) (u1 : Lib.state sorter),
    Lib._error c = None ->
    Runs.serves (Lib.nextObject coll array_sort f0) (Lib.source c, w) l u1 ->
    (f0 + List.length l < fuel)%nat ->
    (forall last s' w',
        Lib.nextObject coll array_sort f0 u1 = Some (Got last, (s', w')) ->
        truthy last = false ->
        Lib.Cursor_each coll array_sort fuel c w =
        Some (map Got l ++ [Got last], (Lib.set_source c s', w'))) /\
    (forall e s' w',
        Lib.nextObject coll array_sort f0 u1 = Some (Failed e, (s', w')) ->
        Lib.Cursor_each coll array_sort fuel c w =
          Some (map Got l ++ [Failed e], (Lib.set_source c s', w')) /\
        (Lib._toArray c = None ->
         Lib.Cursor_toArray coll array_sort fuel c w =
           Some (inl e, (Lib.set_source c s', w')))).
Proof.
  intros coll sorter array_sort f0 fuel c w l u1 He Hs Hf.
  assert (Heach : forall o s' w',
             Lib.nextObject coll array_sort f0 u1 = Some (o, (s', w')) ->
             (match o with
              | Got item => truthy item = false
              | Failed _ => True
              end) ->
             Lib.Cursor_each coll array_sort fuel c w =
             Some (map Got l ++ [o], (Lib.set_source c s', w'))).
  { intros o s' w' Hn Ho. unfold Lib.Cursor_each. rewrite He.
    rewrite (each_iterator_serves coll sorter array_sort f0 _ _ _ Hs fuel [])
      by lia.
    rewrite (each_iterator_last coll sorter array_sort f0 u1 (s', w') o
               (fuel - List.length l) ([] ++ map Got l) Hn Ho) by lia.
    reflexivity. }
  split.
  - intros last s' w' Hn Hl. now apply Heach.
  - intros e s' w' Hn. split; [now apply Heach|].
    intros Hm. unfold Lib.Cursor_toArray. rewrite He, Hm.
    rewrite (toArray_stops_at_failure (Lib.nextObject coll array_sort fuel)
               (Lib.source c, w) u1 (s', w') l e).
    + reflexivity.
    + apply (serves_more_fuel coll sorter array_sort f0 fuel); [exact Hs|lia].
    + apply (nextObject_more_fuel coll sorter array_sort f0 fuel _ _ Hn). lia.
    + lia.
Qed.

Lemma each_delivers_until_end_or_failure_witness :
  let c := Lib.new_Cursor Examples.where_spec Examples.view_functions
             (sorter := unit) (AVal VUndefined) (AVal VUndefined) in
  Runs.serves (Lib.nextObject Examples.broken Examples.sort_none 1)
    (Lib.source c, []) [Examples.doc "apple" 1]
    (Lib.Source (Some ["b"; "c"]), [Index; Read "a"]) /\
  exists cw,
    Lib.Cursor_each Examples.broken Examples.sort_none 8 c [] =
      Some ([Got (Examples.doc "apple" 1);
             Failed (Error "Item not found" None)], cw) /\
    Lib.Cursor_toArray Examples.broken Examples.sort_none 8 c [] =
      Some (inl (Error "Item not found" None), cw).
Proof.
  intros c.
  assert (Hs : Runs.serves (Lib.nextObject Examples.broken Examples.sort_none 1)
                 (Lib.source c, []) [Examples.doc "apple" 1]
                 (Lib.Source (Some ["b"; "c"]), [Index; Read "a"])).
  { econstructor; [reflexivity | reflexivity | constructor]. }
  split; [exact Hs|].
  destruct (each_delivers_until_end_or_failure Examples.broken unit
              Examples.sort_none 1 8 c [] _ _ eq_refl Hs ltac:(cbn; lia))
    as (_ & Hfail).
  destruct (Hfail (Error "Item not found" None)
              (Lib.Source (Some ["c"])) [Index; Read "a"; Read "b"] eq_refl)
    as (Heach & Harr).
  eexists. split; [exact Heach | exact (Harr eq_refl)].
Defined.

(** ** lib/core/cursor.js: [rewind] *)

Section KeepFacts.

Context {U K : Type}.
Variable next : Lib.pull U.
Variable key : U -> K.
Hypothesis next_keeps : forall u o u', next u = Some (o, u') -> key u' = key u.

Lemma toArray_keeps (fuel : nat) (u u' : U) (buf : list value) r :
  Lib.toArray next fuel u buf = Some (r, u') -> key u' = key u.
Proof.
  revert u buf. induction fuel as [|fuel IH]; intros u buf H; [discriminate|].
  cbn [Lib.toArray] in H.
  destruct (next u) as [[[e|item] u1]|] eqn:E; [| |discriminate].
  - injection H as _ <-. exact (next_keeps _ _ _ E).
  - destruct (negb (truthy item)).
    + injection H as _ <-. exact (next_keeps _ _ _ E).
    + rewrite (IH _ _ H). exact (next_keeps _ _ _ E).
Qed.

Lemma Condition_keeps (fuel : nat) (g : value -> bool) (u u' : U) o :
  Lib.Condition_nextObject next fuel g u = Some (o, u') -> key u' = key u.
Proof.
  revert u. induction fuel as [|fuel IH]; intros u H; [discriminate|].
  cbn [Lib.Condition_nextObject] in H.
  destruct (next u) as [[[e|item] u1]|] eqn:E; [| |discriminate].
  - injection H as _ <-. exact (next_keeps _ _ _ E).
  - destruct (negb (truthy item)).
    + injection H as _ <-. exact (next_keeps _ _ _ E).
    + destruct (g item).
      * injection H as _ <-. exact (next_keeps _ _ _ E).
      * rewrite (IH _ H). exact (next_keeps _ _ _ E).
Qed.

Lemma Projection_keeps (p : value -> value) (u u' : U) o :
  Lib.Projection_nextObject next p u = Some (o, u') -> key u' = key u.
Proof.
  unfold Lib.Projection_nextObject. intros H.
  destruct (next u) as [[[e|item] u1]|] eqn:E; [| |discriminate].
  - injection H as _ <-. exact (next_keeps _ _ _ E).
  - destruct (negb (truthy item)); injection H as _ <-;
      exact (next_keeps _ _ _ E).
Qed.

Lemma Offset_iterator_keeps (n : nat) (u u' : U) o (b : bool) :
  Lib.Offset_iterator next n u = Some (o, (b, u')) -> key u' = key u.
Proof.
  revert u. induction n as [|n IH]; intros u H; cbn [Lib.Offset_iterator] in H;
    destruct (next u) as [[[e|item] u1]|] eqn:E; try discriminate.
  - injection H as _ _ <-. exact (next_keeps _ _ _ E).
  - destruct (negb (truthy item)).
    + injection H as _ _ <-. exact (next_keeps _ _ _ E).
    + destruct (next u1) as [[o2 u2]|] eqn:E2; [|discriminate].
      injection H as _ _ <-.
      rewrite (next_keeps _ _ _ E2). exact (next_keeps _ _ _ E).
  - injection H as _ _ <-. exact (next_keeps _ _ _ E).
  - destruct (negb (truthy item)).
    + injection H as _ _ <-. exact (next_keeps _ _ _ E).
    + rewrite (IH _ H). exact (next_keeps _ _ _ E).
Qed.

Lemma Offset_keeps (offset : Z) (b b' : bool) (u u' : U) o :
  Lib.Offset_nextObject next offset (b, u) = Some (o, (b', u')) ->
  key u' = key u.
Proof.
  unfold Lib.Offset_nextObject. intros H.
  destruct (b || (offset <=? 0)%Z)%bool.
  - destruct (next u) as [[o1 u1]|] eqn:E; [|discriminate].
    injection H as _ _ <-. exact (next_keeps _ _ _ E).
  - exact (Offset_iterator_keeps _ _ _ _ _ H).
Qed.

Lemma Limit_keeps (rest rest' : Z) (u u' : U) o :
  Lib.Limit_nextObject next (rest, u) = Some (o, (rest', u')) ->
  key u' = key u.
Proof.
  unfold Lib.Limit_nextObject. intros H.
  destruct (0 <? rest)%Z.
  - destruct (next u) as [[o1 u1]|] eqn:E; [|discriminate].
    injection H as _ _ <-. exact (next_keeps _ _ _ E).
  - now injection H as _ _ <-.
Qed.

End KeepFacts.

Section RewindFacts.

Variable coll : collection.
Variable sorter : Type.
Variable array_sort : sorter -> list value -> list value.

Local Abbreviation next := (Lib.nextObject coll array_sort).
Local Abbreviation rewound :=
  (fun st : Lib.state sorter => Lib.stage_rewind (fst st)).

(** Pulling moves nothing that [rewind] does not put back. *)
Lemma nextObject_rewind (fuel : nat) :
  forall (st : Lib.state sorter) o (st' : Lib.state sorter),
    next fuel st = Some (o, st') -> rewound st' = rewound st.
Proof.
  induction fuel as [|fuel IH]; intros [s w] o [s' w'] H; [discriminate|].
  cbn [fst]. destruct s as [slist | src cnd | src prj | src sb buf
                           | src off rdy | src lim rst];
    cbn [Lib.nextObject] in H.
  - injection H as H. unfold Lib.Source_nextObject, Lib.Source_serve in H.
    destruct slist as [[|id l]|];
      [| |destruct (index coll) as [e|[|id l]]];
      injection H as _ <- _; reflexivity.
  - destruct cnd as [g|v]; [|now injection H as _ <- _].
    unfold Lib.rewrap in H.
    destruct (Lib.Condition_nextObject
                (Lib.nextObject coll array_sort fuel) fuel g (src, w))
      as [[o1 [s1 w1]]|] eqn:E; [|discriminate].
    injection H as _ <- _.
    pose proof (Condition_keeps _ rewound IH
                  _ _ _ _ _ E) as Hk.
    cbn [fst] in Hk. cbn [Lib.stage_rewind]. now rewrite Hk.
  - destruct prj as [p|v]; [|now injection H as _ <- _].
    unfold Lib.rewrap in H.
    destruct (Lib.Projection_nextObject
                (Lib.nextObject coll array_sort fuel) p (src, w))
      as [[o1 [s1 w1]]|] eqn:E; [|discriminate].
    injection H as _ <- _.
    pose proof (Projection_keeps _ rewound IH
                  _ _ _ _ E) as Hk.
    cbn [fst] in Hk. cbn [Lib.stage_rewind]. now rewrite Hk.
  - destruct sb as [e|by_]; [now injection H as _ <- _|].
    destruct buf as [[|item l']|].
    + now injection H as _ <- _.
    + now injection H as _ <- _.
    + destruct (Lib.toArray (Lib.nextObject coll array_sort fuel) fuel
                  (src, w) []) as [[[e|l] [s1 w1]]|] eqn:E; [| |discriminate].
      * injection H as _ <- _.
        pose proof (toArray_keeps _ rewound IH
                      _ _ _ _ _ E) as Hk.
        cbn [fst] in Hk. cbn [Lib.stage_rewind]. now rewrite Hk.
      * pose proof (toArray_keeps _ rewound IH
                      _ _ _ _ _ E) as Hk.
        cbn [fst] in Hk.
        destruct (array_sort by_ l); injection H as _ <- _;
          cbn [Lib.stage_rewind]; now rewrite Hk.
  - unfold Lib.rewrap, Lib.with_field in H.
    destruct (Lib.Offset_nextObject (Lib.nextObject coll array_sort fuel)
                off (rdy, (src, w)))
      as [[o1 [r1 [s1 w1]]]|] eqn:E; [|discriminate].
    injection H as _ <- _.
    pose proof (Offset_keeps _ rewound IH
                  _ _ _ _ _ _ E) as Hk.
    cbn [fst snd] in *. cbn [Lib.stage_rewind]. now rewrite Hk.
  - unfold Lib.rewrap, Lib.with_field in H.
    destruct (Lib.Limit_nextObject (Lib.nextObject coll array_sort fuel)
                (rst, (src, w)))
      as [[o1 [r1 [s1 w1]]]|] eqn:E; [|discriminate].
    injection H as _ <- _.
    pose proof (Limit_keeps _ rewound IH
                  _ _ _ _ _ E) as Hk.
    cbn [fst snd] in *. cbn [Lib.stage_rewind]. now rewrite Hk.
Qed.

Lemma each_iterator_rewind (fuel : nat) :
  forall (st st' : Lib.state sorter) seen seen',
    Lib.each_iterator coll array_sort fuel st seen = Some (seen', st') ->
    rewound st' = rewound st.
Proof.
  induction fuel as [|fuel IH]; intros st st' seen seen' H; [discriminate|].
  cbn [Lib.each_iterator] in H.
  destruct (Lib.nextObject coll array_sort fuel st) as [[[e|item] st1]|] eqn:E;
    [| |discriminate].
  - injection H as _ <-. exact (nextObject_rewind _ _ _ _ E).
  - destruct (truthy item).
    + rewrite (IH _ _ _ _ H). exact (nextObject_rewind _ _ _ _ E).
    + injection H as _ <-. exact (nextObject_rewind _ _ _ _ E).
Qed.

Lemma stage_rewind_twice (s : Lib.stage sorter) :
  Lib.stage_rewind (Lib.stage_rewind s) = Lib.stage_rewind s.
Proof.
  induction s; cbn [Lib.stage_rewind]; congruence.
Qed.

End RewindFacts.

Lemma toArray_success_memoized (coll : collection) (sorter : Type)
  (array_sort : sorter -> list value -> list value) (fuel : nat)
  (c c' : Lib.Cursor sorter) (w w' : list call) (l : list value) :
  Lib.Cursor_toArray coll array_sort fuel c w = Some (inr l, (c', w')) ->
  Lib._error c' = None /\ Lib._toArray c' = Some l.
Proof.
  unfold Lib.Cursor_toArray. intros H.
  destruct (Lib._error c) as [e|] eqn:He; [discriminate|].
  destruct (Lib._toArray c) as [l0|] eqn:Hm.
  - injection H as <- <- _. now split.
  - destruct (Lib.toArray (Lib.nextObject coll array_sort fuel) fuel
                (Lib.source c, w) []) as [[[e|l1] [s1 w1]]|];
      [discriminate| |discriminate].
    injection H as <- <- _. now split.
Qed.

Lemma constructed_cursor_is_rewound
  (obop_where : arg (value -> bool) -> error + arg (value -> bool))
  (obop_view : arg (value -> value) -> error + arg (value -> value))
  (sorter : Type) (cond : arg (value -> bool)) (proj : arg (value -> value)) :
  let c := Lib.new_Cursor obop_where obop_view (sorter := sorter) cond proj in
  Lib.stage_rewind (Lib.source c) = Lib.source c.
Proof.
  intros c.
  destruct (new_Cursor_shape obop_where obop_view sorter cond proj)
    as [H|[(c' & H)|[(p' & H)|(c' & p' & H)]]];
    fold c in H; rewrite H; reflexivity.
Qed.

(** X17: pulling items moves nothing in the stage chain that [rewind]
    does not put back.  A cursor whose chain is at its start is the very
    same cursor again after [each] and [rewind], however far [each] got;
    after [toArray] and [rewind] the chain is at its start as well, but
    the list [toArray] remembered is still there and answers the next
    [toArray] without a storage call.  Putting [offset], [limit] or
    [sort] on a chain at its start leaves it at its start. *)
Theorem rewind_restores_chain :
  forall (coll : collection) (sorter : Type)
         (obop_order : value -> error + sorter)
         (array_sort : sorter -> list value -> list value)
         (c : Lib.Cursor sorter),
    Lib.stage_rewind (Lib.source c) = Lib.source c ->
    (forall fuel w seen c' w',
        Lib.Cursor_each coll array_sort fuel c w = Some (seen, (c', w')) ->
        Lib.Cursor_rewind c' = c) /\
    (forall fuel w r c' w',
        Lib.Cursor_toArray coll array_sort fuel c w = Some (r, (c', w')) ->
        Lib.source (Lib.Cursor_rewind c') = Lib.source c /\
        forall l, r = inr l ->
          forall fuel',
            Lib.Cursor_toArray coll array_sort fuel' (Lib.Cursor_rewind c') w' =
            Some (inr l, (Lib.Cursor_rewind c', w'))) /\
    (forall n m order c1,
        c1 = Lib.Cursor_offset c n \/ c1 = Lib.Cursor_limit c m \/
        c1 = Lib.Cursor_sort obop_order c order ->
        Lib.stage_rewind (Lib.source c1) = Lib.source c1).
Proof.
  intros coll sorter obop_order array_sort c Hc.
  assert (Hsame : Lib.set_source c (Lib.source c) = c) by now destruct c.
  split; [|split].
  - intros fuel w seen c' w' H. unfold Lib.Cursor_each in H.
    destruct (Lib._error c) as [e|] eqn:He.
    + injection H as _ <- _. unfold Lib.Cursor_rewind. now rewrite Hc.
    + destruct (Lib.each_iterator coll array_sort fuel (Lib.source c, w) [])
        as [[seen1 [s1 w1]]|] eqn:E; [|discriminate].
      injection H as _ <- _.
      pose proof (each_iterator_rewind coll sorter array_sort _ _ _ _ _ E)
        as Hk.
      cbn [fst] in Hk. unfold Lib.Cursor_rewind, Lib.set_source.
      cbn [Lib.source Lib._index Lib._toArray Lib._error].
      rewrite Hk, Hc. now destruct c.
  - intros fuel w r c' w' H.
    assert (Hsrc : Lib.stage_rewind (Lib.source c') = Lib.source c).
    { unfold Lib.Cursor_toArray in H.
      destruct (Lib._error c) as [e|] eqn:He;
        [injection H as _ <- _; exact Hc|].
      destruct (Lib._toArray c) as [l0|] eqn:Hm;
        [injection H as _ <- _; exact Hc|].
      destruct (Lib.toArray (Lib.nextObject coll array_sort fuel) fuel
                  (Lib.source c, w) []) as [[r1 [s1 w1]]|] eqn:E;
        [|discriminate].
      pose proof (toArray_keeps _
                    (fun st : Lib.state sorter => Lib.stage_rewind (fst st))
                    (nextObject_rewind coll sorter array_sort fuel)
                    _ _ _ _ _ E) as Hk.
      cbn [fst] in Hk.
      destruct r1 as [e|l1]; injection H as _ <- _;
        cbn [Lib.source Lib.set_source]; now rewrite Hk. }
    split; [exact Hsrc|].
    intros l -> fuel'.
    destruct (toArray_success_memoized coll sorter array_sort _ _ _ _ _ _ H)
      as (He' & Hm').
    unfold Lib.Cursor_toArray, Lib.Cursor_rewind, Lib.set_source.
    cbn [Lib._error Lib._toArray]. now rewrite He', Hm'.
  - intros n m order c1 [ -> | [ -> | -> ] ]; cbn; now rewrite Hc.
Qed.

Lemma rewind_restores_chain_witness :
  let c := Lib.Cursor_limit
             (Lib.new_Cursor Examples.where_spec Examples.view_functions
                (sorter := unit) (AVal VUndefined) (AVal VUndefined)) 2 in
  Lib.stage_rewind (Lib.source c) = Lib.source c /\
  exists seen c' w',
    Lib.Cursor_each Examples.shop Examples.sort_none 8 c [] =
      Some (seen, (c', w')) /\
    List.length seen = 3%nat /\ c' <> c /\ Lib.Cursor_rewind c' = c.
Proof.
  intros c. split; [reflexivity|].
  destruct (Lib.Cursor_each Examples.shop Examples.sort_none 8 c [])
    as [[seen [c' w']]|] eqn:E; [|discriminate E].
  exists seen, c', w'. split; [reflexivity|].
  destruct (rewind_restores_chain Examples.shop unit Examples.order_none
              Examples.sort_none c eq_refl) as (Heach & _).
  pose proof (Heach 8%nat [] seen c' w' E) as Hr.
  vm_compute in E. injection E as <- <- <-.
  split; [reflexivity|]. split; [discriminate | exact Hr].
Defined.

(** X18: [count] on a cursor without a stage asks the storage for its
    index once and reads no item; the list is remembered, so that later
    [count] and [index] calls reach no storage at all.  A failing [index]
    is reported and not remembered.  With a stage on the cursor [count]
    drains the cursor like [toArray] and leaves the list behind for the
    next [toArray]. *)
Theorem count_remembers_what_it_fetched :
  forall (coll : collection) (sorter : Type)
         (array_sort : sorter -> list value -> list value)
         (c : Lib.Cursor sorter) (w : list call) (fuel : nat),
    Lib._error c = None ->
    (Lib.is_source (Lib.source c) = true -> Lib._index c = None ->
     match index coll with
     | inr ids =>
         exists c1,
           Lib.Cursor_count coll array_sort fuel c w =
             Some (inr (List.length ids), (c1, w ++ [Index])) /\
           forall fuel' w1,
             Lib.Cursor_count coll array_sort fuel' c1 w1 =
               Some (inr (List.length ids), (c1, w1)) /\
             Lib.Cursor_index coll c1 w1 = (inr ids, (c1, w1))
     | inl e =>
         Lib.Cursor_count coll array_sort fuel c w =
           Some (inl e, (c, w ++ [Index]))
     end) /\
    (Lib.is_source (Lib.source c) = false ->
     forall n c1 w1,
       Lib.Cursor_count coll array_sort fuel c w = Some (inr n, (c1, w1)) ->
       exists l,
         List.length l = n /\
         forall fuel',
           Lib.Cursor_toArray coll array_sort fuel' c1 w1 =
           Some (inr l, (c1, w1))).
Proof.
  intros coll sorter array_sort c w fuel He. split.
  - intros Hs Hi. unfold Lib.Cursor_count, Lib.Cursor_index.
    rewrite He, Hs, Hi.
    destruct (index coll) as [e|ids]; [reflexivity|].
    eexists. split; [reflexivity|].
    intros fuel' w1. unfold Lib.Cursor_count, Lib.Cursor_index.
    cbn [Lib._error Lib.source Lib._index]. rewrite Hs. split; reflexivity.
  - intros Hs n c1 w1 H. unfold Lib.Cursor_count in H. rewrite He, Hs in H.
    destruct (Lib.Cursor_toArray coll array_sort fuel c w)
      as [[[e|l] cw]|] eqn:E; try discriminate.
    injection H as <- ->. exists l. split; [reflexivity|]. intros fuel'.
    destruct (toArray_success_memoized coll sorter array_sort _ _ _ _ _ _ E)
      as (He' & Hm').
    unfold Lib.Cursor_toArray. now rewrite He', Hm'.
Qed.

Lemma count_remembers_what_it_fetched_witness :
  let c := Lib.new_Cursor Examples.where_spec Examples.view_functions
             (sorter := unit) (AVal VUndefined) (AVal VUndefined) in
  Lib._error c = None /\
  exists c1,
    Lib.Cursor_count Examples.shop Examples.sort_none 1 c [] =
      Some (inr 5%nat, (c1, [Index])) /\
    Lib.Cursor_count Examples.shop Examples.sort_none 1 c1 [Index] =
      Some (inr 5%nat, (c1, [Index])).
Proof.
  intros c. split; [reflexivity|].
  destruct (count_remembers_what_it_fetched Examples.shop unit
              Examples.sort_none c [] 1 eq_refl) as (Hplain & _).
  destruct (Hplain eq_refl eq_refl) as (c1 & H1 & H2).
  exists c1. split; [exact H1 | exact (proj1 (H2 1%nat [Index]))].
Defined.

(** ** core/cursor.js: [offset] and [limit] as filters *)

Lemma core_eachSeries_reads_all (coll : collection) (cond : value -> bool) :
  forall l b w c,
    Core.condition c = cond ->
    (forall i, In i l -> exists d, read coll i = inr d) ->
    Core.eachSeries l (Core.toArray_each coll c) (b, w) =
    (None, (b ++ filter cond (map (item_of coll) l), w ++ map Read l)).
Proof.
  induction l as [|i l IH]; intros b w c Hc Hl;
    cbn [Core.eachSeries List.map filter].
  - now rewrite !app_nil_r.
  - destruct (Hl i (or_introl eq_refl)) as (d & Hd).
    assert (Hio : item_of coll i = d) by (unfold item_of; now rewrite Hd).
    unfold Core.toArray_each at 1. rewrite Hd, Hc, Hio.
    assert (Hl' : forall i', In i' l -> exists d', read coll i' = inr d').
    { intros i' Hin. apply Hl. now right. }
    destruct (cond d); rewrite (IH _ _ c Hc Hl'), <- !app_assoc;
      reflexivity.
Qed.

(** X19: in core/cursor.js [offset] and [limit] are filters that
    [toArray] applies in a fixed order, first the offset and then the
    limit, whichever was called first: both call orders give the same
    page, items [n+1 .. n+m] of the matching items.  A negative offset
    counts from the end of the list.  The page is remembered, and [count]
    afterwards still answers with the number of all keys, from memory. *)
Theorem core_pagination_ignores_call_order :
  forall (coll : collection) (cond : value -> bool) (ids : list string)
         (n m : Z) (c : Core.Cursor),
    index coll = inr ids ->
    (forall i, In i ids -> exists d, read coll i = inr d) ->
    c = Core.Cursor_limit (Core.Cursor_offset (Core.new_Cursor cond) n) m \/
    c = Core.Cursor_offset (Core.Cursor_limit (Core.new_Cursor cond) m) n ->
    let found := filter cond (map (item_of coll) ids) in
    let page := Core.splice_first m (Core.splice_from n found) in
    (exists c1,
        Core.Cursor_toArray coll c [] =
          (Core.Answer None (Some page), c1, Index :: map Read ids) /\
        forall w1,
          Core.Cursor_toArray coll c1 w1 =
            (Core.Answer None (Some page), c1, w1) /\
          Core.Cursor_count coll c1 w1 =
            (Core.Answer None (Some (List.length ids)), c1, w1)) /\
    ((0 <= n)%Z -> page = firstn (Z.to_nat m) (skipn (Z.to_nat n) found)) /\
    ((n < 0)%Z ->
     page = firstn (Z.to_nat m)
              (skipn (List.length found - Z.to_nat (- n)) found)).
Proof.
  intros coll cond ids n m c Hi Hr Hc found page.
  split; [|split].
  - assert (Hc' : Core.condition c = cond /\ Core._keys c = None /\
                  Core._values c = None /\
                  Core.f_sort (Core.cfilters c) = None /\
                  Core.f_offset (Core.cfilters c) = Some (Core.splice_from n) /\
                  Core.f_limit (Core.cfilters c) = Some (Core.splice_first m)).
    { destruct Hc as [->| ->]; repeat split. }
    destruct Hc' as (Hcond & Hk & Hv & Hfs & Hfo & Hfl).
    unfold Core.Cursor_toArray at 1, Core.Cursor_keys.
    rewrite Hv, Hk, Hi. cbn [Core.err Core.result].
    match goal with
    | |- context [Core.eachSeries _ (Core.toArray_each coll ?c0) _] =>
        rewrite (core_eachSeries_reads_all coll cond ids [] _ c0 Hcond Hr)
    end.
    unfold Core.toArray_end.
    cbn [Core.cfilters Core.condition Core._keys Core._values].
    rewrite Hfs, Hfo, Hfl. cbn [Core.apply_filter app]. fold found. fold page.
    eexists. split; [reflexivity|].
    intros w1. unfold Core.Cursor_toArray, Core.Cursor_count, Core.Cursor_keys.
    cbn [Core._values Core._keys Core.err Core.result option_map].
    split; reflexivity.
  - intros Hn. unfold page, Core.splice_first, Core.splice_from.
    destruct (n <? 0)%Z eqn:E; [apply Z.ltb_lt in E; lia|].
    f_equal.
    destruct (Z.min_spec n (Z.of_nat (List.length found))) as [[_ ->]|[Hle ->]];
      [reflexivity|].
    rewrite Nat2Z.id.
    rewrite !skipn_all2; [reflexivity | lia | lia].
  - intros Hn. unfold page, Core.splice_first, Core.splice_from.
    destruct (n <? 0)%Z eqn:E; [|apply Z.ltb_ge in E; lia].
    f_equal. f_equal. lia.
Qed.

Lemma core_pagination_ignores_call_order_witness :
  let c1 := Core.Cursor_limit
              (Core.Cursor_offset (Core.new_Cursor (fun _ => true)) 1) 2 in
  let c2 := Core.Cursor_offset
              (Core.Cursor_limit (Core.new_Cursor (fun _ => true)) 2) 1 in
  (forall i, In i ["a"; "b"; "c"; "d"; "e"] ->
             exists d, read Examples.shop i = inr d) /\
  Core.result (fst (fst (Core.Cursor_toArray Examples.shop c1 []))) =
    Some [Examples.doc "bean" 2; Examples.doc "corn" 3] /\
  Core.result (fst (fst (Core.Cursor_toArray Examples.shop c2 []))) =
    Some [Examples.doc "bean" 2; Examples.doc "corn" 3].
Proof.
  intros c1 c2.
  assert (Hr : forall i, In i ["a"; "b"; "c"; "d"; "e"] ->
                         exists d, read Examples.shop i = inr d).
  { intros id [<-|[<-|[<-|[<-|[<-|[]]]]]]; eexists; reflexivity. }
  split; [exact Hr|].
  destruct (core_pagination_ignores_call_order Examples.shop (fun _ => true)
              _ 1 2 c1 eq_refl Hr (or_introl eq_refl))
    as ((d1 & H1 & _) & _).
  destruct (core_pagination_ignores_call_order Examples.shop (fun _ => true)
              _ 1 2 c2 eq_refl Hr (or_intror eq_refl))
    as ((d2 & H2 & _) & _).
  rewrite H1, H2. split; reflexivity.
Defined.

(** ** core/base.js: parameters of classes and instances *)

Lemma keys_has (o : obj) (k : string) : Update.mem k (keys o) = has o k.
Proof.
  unfold has. induction o as [|[k' v] o IH]; cbn [keys lookup]; [reflexivity|].
  unfold Update.mem in *. cbn [existsb].
  destruct (String.eqb k k') eqn:E; [reflexivity|]. cbn [orb].
  rewrite <- IH. clear IH.
  induction (keys o) as [|a l IHl]; cbn [filter existsb]; [reflexivity|].
  destruct (String.eqb k' a) eqn:Ea; cbn [negb existsb].
  - apply String.eqb_eq in Ea. subst a. now rewrite E.
  - now rewrite IHl.
Qed.

Lemma get_absent (o : obj) (k : string) :
  has o k = false -> get o k = VUndefined.
Proof.
  unfold has, get. now destruct (lookup o k).
Qed.

Lemma assign_all_get (opts : obj) (args : value) (k : string) :
  get (Base.assign_all opts args) k =
  if has (Base.enumerate args) k then get (Base.enumerate args) k
  else get opts k.
Proof.
  unfold Base.assign_all. rewrite <- keys_has.
  apply (fold_step_get
           (fun o key => set o key (get (Base.enumerate args) key))
           (fun _ key => get (Base.enumerate args) key)).
  - intros it key. apply get_set_same.
  - intros it key k0 Hne. now apply get_set_other.
  - apply keys_NoDup.
Qed.

Lemma copy_get (o : obj) (k : string) : get (Base.copy (VObj o)) k = get o k.
Proof.
  unfold Base.copy. rewrite assign_all_get. cbn [Base.enumerate props].
  destruct (has o k) eqn:E; [reflexivity|]. now rewrite (get_absent o k E).
Qed.

(** X20: an instance reads a parameter from the options it was built
    with and, where these do not name it, from the defaults of its class;
    a class made by [inherit] has the defaults its parent had at that
    time. *)
Theorem build_merges_defaults_and_options :
  forall (parent : Base.class) (defaults opts : obj) (k : string),
    Base.options parent = Some defaults ->
    Fields.all_plain (keys defaults) -> Fields.all_plain (keys opts) ->
    Fields.plain k ->
    let reads child given := fst (Base.prototype_get (Base.build child given) k)
    in
    reads parent (VObj opts) =
      (if has opts k then get opts k else get defaults k)
    /\ reads parent VUndefined = get defaults k
    /\ fst (Base.child_get (Base.inherit parent) k) = get defaults k
    /\ reads (Base.inherit parent) (VObj opts) = reads parent (VObj opts)
    /\ forall val,
        reads (Base.inherit (Base.child_set parent k val)) VUndefined = val.
Proof.
  intros parent defaults opts k Hp _ _ _ reads.
  assert (Hbuild : forall child d given,
             Base.options child = Some d ->
             reads child given =
             if truthy given
             then (if has (Base.enumerate given) k
                   then get (Base.enumerate given) k
                   else get d k)
             else get d k).
  { intros child d given Hd. unfold reads, Base.build, Base.prototype_set.
    rewrite Hd. cbn [Base.options_value truthy Base.this_options Base.opts_of].
    destruct (truthy given); cbn [Base.prototype_get Base.this_options
                                    Base.opts_of fst];
      rewrite ?assign_all_get; cbn [Base.enumerate props];
      destruct (has d k) eqn:E; try reflexivity;
      now rewrite (get_absent d k E). }
  assert (Hin : Base.options (Base.inherit parent) =
                Some (Base.copy (VObj defaults))).
  { unfold Base.inherit. now rewrite Hp. }
  split; [|split; [|split; [|split]]].
  - now rewrite (Hbuild parent defaults (VObj opts) Hp).
  - now rewrite (Hbuild parent defaults VUndefined Hp).
  - unfold Base.child_get. rewrite Hin. cbn [fst Base.opts_of].
    apply copy_get.
  - rewrite (Hbuild _ _ (VObj opts) Hin).
    rewrite (Hbuild parent defaults (VObj opts) Hp).
    cbn [truthy]. now rewrite copy_get.
  - intros val.
    rewrite (Hbuild (Base.inherit (Base.child_set parent k val))
               (Base.copy (VObj (set defaults k val))) VUndefined).
    + cbn [truthy]. rewrite copy_get. apply get_set_same.
    + unfold Base.inherit, Base.child_set. now rewrite Hp.
Qed.

Lemma build_merges_defaults_and_options_witness :
  let KagoDB := Base.inherit Base.KagoDB in
  let MyKago := Base.child_set (Base.child_set KagoDB "storage" (VStr "yaml"))
                  "path" (VStr "data") in
  let kago := Base.build MyKago (VObj [("path", VStr "tmp")]) in
  Fields.plain "path" /\ Fields.plain "storage" /\
  fst (Base.prototype_get kago "path") = VStr "tmp" /\
  fst (Base.prototype_get kago "storage") = VStr "yaml".
Proof.
  intros KagoDB MyKago kago.
  assert (Hd : Fields.all_plain
                 (keys [("storage", VStr "yaml"); ("path", VStr "data")])).
  { intros k [<-|[<-|[]]]; reflexivity. }
  assert (Ho : Fields.all_plain (keys [("path", VStr "tmp")])).
  { intros k [<-|[]]; reflexivity. }
  split; [reflexivity|]. split; [reflexivity|]. split.
  - exact (proj1 (build_merges_defaults_and_options MyKago _
                    [("path", VStr "tmp")] "path" eq_refl Hd Ho eq_refl)).
  - exact (proj1 (build_merges_defaults_and_options MyKago _
                    [("path", VStr "tmp")] "storage" eq_refl Hd Ho eq_refl)).
Defined.

(** X21: [set(name, value)] on an instance makes [get(name)] answer the
    value and changes no other parameter; with the empty name it changes
    nothing, and so does [set] with one falsy argument or with another
    number of arguments.  [set] on a class has no such guard: it stores
    the value under the empty name as under any other. *)
Theorem set_then_get :
  forall (this : Base.instance) (key : string) (val : value),
    Fields.plain key ->
    let reads t k := fst (Base.prototype_get t k) in
    (key <> "" ->
     reads (Base.prototype_set this (Base.Pair key val)) key = val) /\
    (forall k, k <> key ->
       reads (Base.prototype_set this (Base.Pair key val)) k = reads this k) /\
    (forall k, reads (Base.prototype_set this (Base.Pair "" val)) k =
               reads this k) /\
    (forall k args,
        args = Base.Other \/
        (exists v, args = Base.Single v /\ truthy v = false) ->
        reads (Base.prototype_set this args) k = reads this k) /\
    (forall child,
        fst (Base.child_get (Base.child_set child key val) key) = val /\
        fst (Base.child_get (Base.child_set child "" val) "") = val).
Proof.
  intros this key val _ reads.
  split; [|split; [|split; [|split]]].
  - intros Hne. unfold reads, Base.prototype_set. cbn [truthy].
    destruct (String.eqb key "") eqn:E;
      [apply String.eqb_eq in E; contradiction|].
    cbn [negb Base.prototype_get Base.this_options Base.opts_of fst].
    apply get_set_same.
  - intros k Hne. unfold reads, Base.prototype_set.
    destruct (truthy (VStr key));
      cbn [Base.prototype_get Base.this_options Base.opts_of fst];
      [|reflexivity].
    apply get_set_other. congruence.
  - intros k. reflexivity.
  - intros k args [->|(v & -> & Hv)]; unfold reads, Base.prototype_set;
      [reflexivity|]. now rewrite Hv.
  - intros child. unfold Base.child_get, Base.child_set. cbn [fst Base.options
      Base.opts_of].
    split; apply get_set_same.
Qed.

Lemma set_then_get_witness :
  let kago := Base.build (Base.inherit Base.KagoDB) VUndefined in
  Fields.plain "path" /\
  fst (Base.prototype_get
         (Base.prototype_set kago (Base.Pair "path" (VStr "data"))) "path") =
  VStr "data".
Proof.
  intros kago. split; [reflexivity|].
  exact (proj1 (set_then_get kago "path" (VStr "data") eq_refl)
           ltac:(discriminate)).
Defined.

(** ** deny.js *)



(** ** webapi.js: where a request ends up *)

Section WebapiFacts.

Variable S : Type.
Variable db : Webapi.kagodb S.
Variable JSON_parse : string -> error + value.
Variable print : value -> string.
Variable bodyParser : Webapi.job S.
Variable other_methods : string -> option (Webapi.job S).

Local Abbreviation api :=
  (Webapi.api S db JSON_parse print bodyParser other_methods).
Local Abbreviation methods :=
  (Webapi.methods S db JSON_parse other_methods).

(** A queue of jobs that ends in [api.error(code)] does not hand the
    request on. *)
Lemma run_ends_in_error_job (code : Z) (queue : list (Webapi.job S)) :
  forall req s,
    fst (Webapi.run S (map Some queue ++ [Some (Webapi.error_job S code)])
           req s) <> Webapi.Passed.
Proof.
  induction queue as [|j queue IH]; intros req s; cbn [map app Webapi.run].
  - unfold Webapi.error_job. cbn. discriminate.
  - destruct (j req s) as [[req'|e|r|] s']; cbn [fst];
      [apply IH | discriminate | discriminate | discriminate].
Qed.

Lemma verb_other (v : string) (j : Webapi.job S) (req : Webapi.request)
  (s : S) :
  Webapi.toLowerCase (Webapi.method req) <> v ->
  Webapi.verb S v j req s = (Webapi.Next req, s).
Proof.
  intros H. unfold Webapi.verb.
  destruct (String.eqb (Webapi.toLowerCase (Webapi.method req)) v) eqn:E;
    [apply String.eqb_eq in E; contradiction | reflexivity].
Qed.

Lemma verb_same (v : string) (j : Webapi.job S) (req : Webapi.request)
  (s : S) :
  Webapi.toLowerCase (Webapi.method req) = v ->
  Webapi.verb S v j req s = j req s.
Proof.
  intros H. unfold Webapi.verb. now rewrite H, String.eqb_refl.
Qed.

(** A handler that finds no identifier leaves the request to the jobs
    after it. *)
Lemma no_id_passes (req : Webapi.request) (s : S) :
  truthy (Webapi.param req "id") = false ->
  Webapi.write S db JSON_parse req s = (Webapi.Next req, s) /\
  Webapi.erase S db req s = (Webapi.Next req, s) /\
  Webapi.read S db req s = (Webapi.Next req, s).
Proof.
  intros H. unfold Webapi.write, Webapi.erase, Webapi.read. now rewrite H.
Qed.

(** The jobs before [api.dispatch] when neither [put] nor [delete]
    takes the request. *)
Lemma api_reaches_dispatch (req req' : Webapi.request) (s s' : S) :
  bodyParser req s = (Webapi.Next req', s') ->
  truthy (Webapi.param req' "id") = false \/
  (Webapi.toLowerCase (Webapi.method req') <> "put" /\
   Webapi.toLowerCase (Webapi.method req') <> "delete") ->
  api req s =
  Webapi.run S
    [Some (Webapi.dispatch S print methods);
     Some (Webapi.verb S "head" (Webapi.read S db));
     Some (Webapi.verb S "get" (Webapi.read S db));
     Some (Webapi.NOOP S);
     Some (Webapi.error_job S 400)] req' s'.
Proof.
  intros Hb Hr. unfold Webapi.api. cbn [Webapi.run]. rewrite Hb.
  unfold Webapi.NOOP at 1 2.
  assert (Hput : Webapi.verb S "put" (Webapi.write S db JSON_parse) req' s' =
                 (Webapi.Next req', s')).
  { destruct Hr as [Hid|[Hp _]]; [|now apply verb_other].
    unfold Webapi.verb.
    destruct (String.eqb _ "put"); [|reflexivity].
    apply (no_id_passes req' s' Hid). }
  assert (Hdel : Webapi.verb S "delete" (Webapi.erase S db) req' s' =
                 (Webapi.Next req', s')).
  { destruct Hr as [Hid|[_ Hd]]; [|now apply verb_other].
    unfold Webapi.verb.
    destruct (String.eqb _ "delete"); [|reflexivity].
    apply (no_id_passes req' s' Hid). }
  now rewrite Hput, Hdel.
Qed.

End WebapiFacts.

(** X23: a [PUT] or [DELETE] request that names an identifier is
    handled by [write] or [erase], whatever its [method] parameter says.
    [write] stores a content only if it is, after [api.parse], an array
    or an object other than [null] with at least one key; any other
    content is answered with 400 and the storage is not called.  The
    answer is [{success: true}], or 500 when the storage reports an
    error. *)
Theorem api_put_and_delete :
  forall (S : Type) (db : Webapi.kagodb S)
         (JSON_parse : string -> error + value) (print : value -> string)
         (bodyParser : Webapi.job S)
         (other_methods : string -> option (Webapi.job S))
         (req req' : Webapi.request) (s s' : S),
    bodyParser req s = (Webapi.Next req', s') ->
    truthy (Webapi.param req' "id") = true ->
    let api := Webapi.api S db JSON_parse print bodyParser other_methods in
    let id := Webapi.param req' "id" in
    let verb := Webapi.toLowerCase (Webapi.method req') in
    let given := if truthy (Webapi.param req' "content")
                 then Webapi.param req' "content"
                 else Webapi.body req' in
    (verb = "put" ->
     (forall content,
         Webapi.api_parse JSON_parse given = inr content ->
         truthy content = true -> typeof content = "object" ->
         own_keys content <> [] ->
         api req s =
         (Webapi.Answered
            (match fst (Webapi.db_write db id content s') with
             | Some _ => Webapi.Code 500
             | None => Webapi.Payload Webapi.success
             end),
          snd (Webapi.db_write db id content s'))) /\
     ((forall content,
          Webapi.api_parse JSON_parse given = inr content ->
          truthy content = false \/ typeof content <> "object" \/
          own_keys content = []) ->
      api req s = (Webapi.Answered (Webapi.Code 400), s'))) /\
    (verb = "delete" ->
     api req s =
     (Webapi.Answered
        (match fst (Webapi.db_erase db id s') with
         | Some _ => Webapi.Code 500
         | None => Webapi.Payload Webapi.success
         end),
      snd (Webapi.db_erase db id s'))).
Proof.
  intros S db JSON_parse print bodyParser other_methods req req' s s'
    Hb Hid api id verb given.
  split.
  - intros Hv.
    assert (Hrun : api req s =
                   match Webapi.write S db JSON_parse req' s' with
                   | (Webapi.Sent r, s2) => (Webapi.Answered r, s2)
                   | (_, s2) => (Webapi.Silent, s2)
                   end /\
                   Webapi.write S db JSON_parse req' s' =
                   match Webapi.api_parse JSON_parse given with
                   | inl _ => (Webapi.Sent (Webapi.Code 400), s')
                   | inr content =>
                       if negb (truthy content)
                          || negb (String.eqb "object" (typeof content))
                       then (Webapi.Sent (Webapi.Code 400), s')
                       else
                         match own_keys content with
                         | [] => (Webapi.Sent (Webapi.Code 400), s')
                         | _ =>
                             (Webapi.answer
                                (fst (Webapi.db_write db id content s'))
                                Webapi.success,
                              snd (Webapi.db_write db id content s'))
                         end
                   end).
    { assert (Hw : Webapi.write S db JSON_parse req' s' =
                   match Webapi.api_parse JSON_parse given with
                   | inl _ => (Webapi.Sent (Webapi.Code 400), s')
                   | inr content =>
                       if negb (truthy content)
                          || negb (String.eqb "object" (typeof content))
                       then (Webapi.Sent (Webapi.Code 400), s')
                       else
                         match own_keys content with
                         | [] => (Webapi.Sent (Webapi.Code 400), s')
                         | _ =>
                             (Webapi.answer
                                (fst (Webapi.db_write db id content s'))
                                Webapi.success,
                              snd (Webapi.db_write db id content s'))
                         end
                   end).
      { unfold Webapi.write, Webapi.parse_content. rewrite Hid. cbn [negb].
        fold verb. rewrite Hv. rewrite String.eqb_refl, andb_true_r.
        unfold given.
        destruct (truthy (Webapi.param req' "content")); cbn [negb];
          destruct (Webapi.api_parse JSON_parse _) as [e|content];
          try reflexivity;
          destruct (negb (truthy content)
                    || negb (String.eqb "object" (typeof content)));
          try reflexivity;
          destruct (own_keys content); try reflexivity;
          fold id; destruct (Webapi.db_write db id content s');
          reflexivity. }
      split; [|exact Hw].
      unfold api, Webapi.api. cbn [Webapi.run]. rewrite Hb.
      unfold Webapi.NOOP at 1 2.
      rewrite (verb_same S "put" _ req' s' Hv). rewrite Hw.
      destruct (Webapi.api_parse JSON_parse given) as [e|content];
        [reflexivity|].
      destruct (negb (truthy content)
                || negb (String.eqb "object" (typeof content)));
        [reflexivity|].
      destruct (own_keys content); [reflexivity|].
      unfold Webapi.answer.
      destruct (fst (Webapi.db_write db id content s')); reflexivity. }
    destruct Hrun as (Hrun & Hw). rewrite Hrun, Hw.
    split.
    + intros content Hp Ht Hty Hk. rewrite Hp, Ht, Hty. cbn.
      destruct (own_keys content); [contradiction|].
      unfold Webapi.answer.
      destruct (fst (Webapi.db_write db id content s')); reflexivity.
    + intros Hbad.
      destruct (Webapi.api_parse JSON_parse given) as [e|content];
        [reflexivity|].
      destruct (Hbad content eq_refl) as [Ht|[Hty|Hk]].
      * now rewrite Ht.
      * destruct (String.eqb "object" (typeof content)) eqn:E;
          [apply String.eqb_eq in E; congruence|].
        now rewrite orb_true_r.
      * rewrite Hk.
        now destruct (negb (truthy content)
                      || negb (String.eqb "object" (typeof content))).
  - intros Hv. unfold api, Webapi.api. cbn [Webapi.run]. rewrite Hb.
    unfold Webapi.NOOP at 1 2.
    rewrite (verb_other S "put" _ req' s')
      by (fold verb; rewrite Hv; discriminate).
    rewrite (verb_same S "delete" _ req' s' Hv).
    unfold Webapi.erase. rewrite Hid. cbn [negb]. fold id.
    destruct (Webapi.db_erase db id s') as [[e|] s2]; reflexivity.
Qed.

(** X24: unless [put] or [delete] took the request, the [method]
    parameter picks the handler, under every request method: the answer
    of the handler it names is the answer of the api.  So a [GET] request
    with [method=erase] erases the item. *)
Theorem api_method_parameter_picks_handler :
  forall (S : Type) (db : Webapi.kagodb S)
         (JSON_parse : string -> error + value) (print : value -> string)
         (bodyParser : Webapi.job S)
         (other_methods : string -> option (Webapi.job S))
         (req req' : Webapi.request) (s s' : S) (name : string),
    bodyParser req s = (Webapi.Next req', s') ->
    truthy (Webapi.param req' "id") = false \/
    (Webapi.toLowerCase (Webapi.method req') <> "put" /\
     Webapi.toLowerCase (Webapi.method req') <> "delete") ->
    Webapi.param req' "method" = VStr name -> name <> "" ->
    let api := Webapi.api S db JSON_parse print bodyParser other_methods in
    (forall handler r s2,
        Webapi.methods S db JSON_parse other_methods name = Some handler ->
        handler req' s' = (Webapi.Sent r, s2) ->
        api req s = (Webapi.Answered r, s2)) /\
    (name = "erase" -> truthy (Webapi.param req' "id") = true ->
     api req s =
     (Webapi.Answered
        (match fst (Webapi.db_erase db (Webapi.param req' "id") s') with
         | Some _ => Webapi.Code 500
         | None => Webapi.Payload Webapi.success
         end),
      snd (Webapi.db_erase db (Webapi.param req' "id") s'))).
Proof.
  intros S db JSON_parse print bodyParser other_methods req req' s s' name
    Hb Hr Hm Hne api.
  assert (Hgen : forall handler r s2,
             Webapi.methods S db JSON_parse other_methods name = Some handler ->
             handler req' s' = (Webapi.Sent r, s2) ->
             api req s = (Webapi.Answered r, s2)).
  { intros handler r s2 Hh Hs. unfold api.
    rewrite (api_reaches_dispatch S db JSON_parse print bodyParser
               other_methods req req' s s' Hb Hr).
    cbn [Webapi.run]. unfold Webapi.dispatch at 1. rewrite Hm.
    cbn [truthy].
    destruct (String.eqb name "") eqn:E;
      [apply String.eqb_eq in E; contradiction|].
    cbn [negb]. rewrite Hh, Hs. reflexivity. }
  split; [exact Hgen|].
  intros -> Hid.
  destruct (Webapi.db_erase db (Webapi.param req' "id") s') as [err s2] eqn:E.
  apply (Hgen (Webapi.erase S db)); [reflexivity|].
  unfold Webapi.erase. rewrite Hid. cbn [negb]. rewrite E.
  now destruct err.
Qed.

(** X25: the api never hands a request on with [next()]: a request that
    no handler takes is answered with 400, and the storage is not
    called for it. *)
Theorem api_answers_what_it_cannot_route :
  forall (S : Type) (db : Webapi.kagodb S)
         (JSON_parse : string -> error + value) (print : value -> string)
         (bodyParser : Webapi.job S)
         (other_methods : string -> option (Webapi.job S))
         (req : Webapi.request) (s : S),
    let api := Webapi.api S db JSON_parse print bodyParser other_methods in
    fst (api req s) <> Webapi.Passed /\
    forall req' s',
      bodyParser req s = (Webapi.Next req', s') ->
      (truthy (Webapi.param req' "method") = false \/
       exists name,
         Webapi.param req' "method" = VStr name /\
         Webapi.methods S db JSON_parse other_methods name = None) ->
      (truthy (Webapi.param req' "id") = false \/
       ~ In (Webapi.toLowerCase (Webapi.method req'))
            ["put"; "delete"; "head"; "get"]) ->
      api req s = (Webapi.Answered (Webapi.Code 400), s').
Proof.
  intros S db JSON_parse print bodyParser other_methods req s api.
  split.
  - unfold api, Webapi.api.
    apply (run_ends_in_error_job S 400
             [bodyParser; Webapi.NOOP S; Webapi.NOOP S;
              Webapi.verb S "put" (Webapi.write S db JSON_parse);
              Webapi.verb S "delete" (Webapi.erase S db);
              Webapi.dispatch S print
                (Webapi.methods S db JSON_parse other_methods);
              Webapi.verb S "head" (Webapi.read S db);
              Webapi.verb S "get" (Webapi.read S db);
              Webapi.NOOP S]).
  - intros req' s' Hb Hm Hr. unfold api.
    rewrite (api_reaches_dispatch S db JSON_parse print bodyParser
               other_methods req req' s s' Hb).
    + cbn [Webapi.run].
      assert (Hd : Webapi.dispatch S print
                     (Webapi.methods S db JSON_parse other_methods) req' s' =
                   (Webapi.Next req', s')).
      { unfold Webapi.dispatch. destruct Hm as [Hm|(name & Hm & Hn)].
        - now rewrite Hm.
        - rewrite Hm, Hn. now destruct (negb (truthy (VStr name))). }
      rewrite Hd.
      assert (Hread : forall v,
                 In v ["head"; "get"] ->
                 Webapi.verb S v (Webapi.read S db) req' s' =
                 (Webapi.Next req', s')).
      { intros v Hv. destruct Hr as [Hid|Hnv].
        - unfold Webapi.verb. destruct (String.eqb _ v); [|reflexivity].
          apply (no_id_passes S db JSON_parse req' s' Hid).
        - apply verb_other. intros Heq. apply Hnv. rewrite Heq.
          cbn in Hv. cbn. tauto. }
      rewrite (Hread "head") by (cbn; tauto).
      rewrite (Hread "get") by (cbn; tauto).
      reflexivity.
    + destruct Hr as [Hid|Hnv]; [now left|right].
      split; intros Heq; apply Hnv; rewrite Heq; cbn; tauto.
Qed.

Lemma api_put_and_delete_witness :
  let no_json := fun _ : string => inl (Error "Unexpected token" None) in
  let api := Webapi.api Memory.world Samples.memory_db no_json
               (fun _ => "") (Webapi.NOOP Memory.world) (fun _ => None) in
  let wd := ([], {| Memory.namespace := None;
                    Memory._memory_store := None |}) in
  let put := Samples.request_of "PUT"
               [("id", VStr "apple"); ("method", VStr "erase")]
               (Examples.doc "apple" 1) in
  let get_ := Samples.request_of "GET" [("id", VStr "apple")] VUndefined in
  truthy (Webapi.param put "id") = true /\
  fst (api put wd) = Webapi.Answered (Webapi.Payload Webapi.success) /\
  fst (api get_ (snd (api put wd))) =
    Webapi.Answered (Webapi.Payload (Examples.doc "apple" 1)).
Proof.
  intros no_json api wd put get_. split; [reflexivity|].
  destruct (api_put_and_delete Memory.world Samples.memory_db no_json
              (fun _ => "") (Webapi.NOOP Memory.world) (fun _ => None)
              put put wd wd eq_refl eq_refl) as (Hput & _).
  destruct (Hput eq_refl) as (Hok & _).
  pose proof (Hok (Examples.doc "apple" 1) eq_refl eq_refl eq_refl
                ltac:(discriminate)) as H.
  fold api in H. rewrite H. split; reflexivity.
Defined.

Lemma api_method_parameter_picks_handler_witness :
  let no_json := fun _ : string => inl (Error "Unexpected token" None) in
  let api := Webapi.api Memory.world Samples.memory_db no_json
               (fun _ => "") (Webapi.NOOP Memory.world) (fun _ => None) in
  let wd := ([], {| Memory.namespace := None;
                    Memory._memory_store :=
                      Some (Memory.Own [("apple", Examples.doc "apple" 1)]) |})
  in
  let req := Samples.request_of "GET"
               [("id", VStr "apple"); ("method", VStr "erase")] VUndefined in
  (Webapi.toLowerCase (Webapi.method req) <> "put" /\
   Webapi.toLowerCase (Webapi.method req) <> "delete") /\
  fst (api req wd) = Webapi.Answered (Webapi.Payload Webapi.success) /\
  fst (Memory.exist Samples.ident "apple" wd) = true /\
  fst (Memory.exist Samples.ident "apple" (snd (api req wd))) = false.
Proof.
  intros no_json api wd req.
  assert (Hv : Webapi.toLowerCase (Webapi.method req) <> "put" /\
               Webapi.toLowerCase (Webapi.method req) <> "delete").
  { split; discriminate. }
  split; [exact Hv|].
  destruct (api_method_parameter_picks_handler Memory.world Samples.memory_db
              no_json (fun _ => "") (Webapi.NOOP Memory.world) (fun _ => None)
              req req wd wd "erase" eq_refl (or_intror Hv) eq_refl
              ltac:(discriminate)) as (_ & Herase).
  pose proof (Herase eq_refl eq_refl) as H. fold api in H. rewrite H.
  split; [reflexivity|]. split; reflexivity.
Defined.

(** X26: a [GET] or [HEAD] request that names an identifier and no
    method asks the storage whether the item exists and reads it only if
    it does: the answer is the item, 404 when the item does not exist,
    and 500 when [exist] or [read] reports an error. *)
Theorem api_get_reads_existing_item :
  forall (S : Type) (db : Webapi.kagodb S)
         (JSON_parse : string -> error + value) (print : value -> string)
         (bodyParser : Webapi.job S)
         (other_methods : string -> option (Webapi.job S))
         (req req' : Webapi.request) (s s' : S),
    bodyParser req s = (Webapi.Next req', s') ->
    In (Webapi.toLowerCase (Webapi.method req')) ["head"; "get"] ->
    truthy (Webapi.param req' "id") = true ->
    truthy (Webapi.param req' "method") = false ->
    let id := Webapi.param req' "id" in
    let s1 := snd (Webapi.db_exist db id s') in
    Webapi.api S db JSON_parse print bodyParser other_methods req s =
    match fst (Webapi.db_exist db id s') with
    | inl _ => (Webapi.Answered (Webapi.Code 500), s1)
    | inr false => (Webapi.Answered (Webapi.Code 404), s1)
    | inr true =>
        (Webapi.Answered
           (match fst (Webapi.db_read db id s1) with
            | inl _ => Webapi.Code 500
            | inr item => Webapi.Payload item
            end),
         snd (Webapi.db_read db id s1))
    end.
Proof.
  intros S db JSON_parse print bodyParser other_methods req req' s s'
    Hb Hv Hid Hm id s1.
  assert (Hnot : Webapi.toLowerCase (Webapi.method req') <> "put" /\
                 Webapi.toLowerCase (Webapi.method req') <> "delete").
  { destruct Hv as [<-|[<-|[]]]; split; discriminate. }
  rewrite (api_reaches_dispatch S db JSON_parse print bodyParser other_methods
             req req' s s' Hb (or_intror Hnot)).
  cbn [Webapi.run]. unfold Webapi.dispatch at 1. rewrite Hm. cbn [negb].
  assert (Hread : Webapi.read S db req' s' =
                  match fst (Webapi.db_exist db id s') with
                  | inl _ => (Webapi.Sent (Webapi.Code 500), s1)
                  | inr false => (Webapi.Sent (Webapi.Code 404), s1)
                  | inr true =>
                      (Webapi.Sent
                         (match fst (Webapi.db_read db id s1) with
                          | inl _ => Webapi.Code 500
                          | inr item => Webapi.Payload item
                          end),
                       snd (Webapi.db_read db id s1))
                  end).
  { unfold Webapi.read. rewrite Hid. cbn [negb]. fold id. unfold s1.
    destruct (Webapi.db_exist db id s') as [[e|[|]] s2]; cbn [fst snd];
      try reflexivity.
    destruct (Webapi.db_read db id s2) as [[e|item] s3]; reflexivity. }
  destruct Hv as [Hv|[Hv|[]]].
  - rewrite (verb_same S "head" _ req' s' (eq_sym Hv)), Hread.
    destruct (fst (Webapi.db_exist db id s')) as [e|[|]]; reflexivity.
  - rewrite (verb_other S "head" _ req' s')
      by (rewrite <- Hv; discriminate).
    rewrite (verb_same S "get" _ req' s' (eq_sym Hv)), Hread.
    destruct (fst (Webapi.db_exist db id s')) as [e|[|]]; reflexivity.
Qed.

Lemma api_get_reads_existing_item_witness :
  let no_json := fun _ : string => inl (Error "Unexpected token" None) in
  let api := Webapi.api Memory.world Samples.memory_db no_json
               (fun _ => "") (Webapi.NOOP Memory.world) (fun _ => None) in
  let wd := ([], {| Memory.namespace := None;
                    Memory._memory_store :=
                      Some (Memory.Own [("apple", Examples.doc "apple" 1)]) |})
  in
  In (Webapi.toLowerCase "GET") ["head"; "get"] /\
  fst (api (Samples.request_of "GET" [("id", VStr "apple")] VUndefined) wd) =
    Webapi.Answered (Webapi.Payload (Examples.doc "apple" 1)) /\
  fst (api (Samples.request_of "GET" [("id", VStr "pear")] VUndefined) wd) =
    Webapi.Answered (Webapi.Code 404).
Proof.
  intros no_json api wd.
  assert (Hv : In (Webapi.toLowerCase "GET") ["head"; "get"])
    by (right; left; reflexivity).
  split; [exact Hv|]. unfold api. split.
  - rewrite (api_get_reads_existing_item Memory.world Samples.memory_db
               no_json (fun _ => "") (Webapi.NOOP Memory.world)
               (fun _ => None)
               (Samples.request_of "GET" [("id", VStr "apple")] VUndefined)
               (Samples.request_of "GET" [("id", VStr "apple")] VUndefined)
               wd wd eq_refl Hv eq_refl eq_refl).
    reflexivity.
  - rewrite (api_get_reads_existing_item Memory.world Samples.memory_db
               no_json (fun _ => "") (Webapi.NOOP Memory.world)
               (fun _ => None)
               (Samples.request_of "GET" [("id", VStr "pear")] VUndefined)
               (Samples.request_of "GET" [("id", VStr "pear")] VUndefined)
               wd wd eq_refl Hv eq_refl eq_refl).
    reflexivity.
Defined.

(** ** lib/core/cursor.js: every pull comes back *)

Lemma halts_more {U : Type} (pull1 pull2 : Lib.pull U) (n : nat) (u : U) :
  (forall x r, pull1 x = Some r -> pull2 x = Some r) ->
  Halting.halts_in pull1 n u -> Halting.halts_in pull2 n u.
Proof.
  intros Hext H.
  induction H as [n u o u' Hn Ho | n u item u' Hn Ht H IH].
  - eapply Halting.halts_stop; [apply Hext; exact Hn | exact Ho].
  - eapply Halting.halts_step; [apply Hext; exact Hn | exact Ht | exact IH].
Qed.

Lemma halts_weaken {U : Type} (next : Lib.pull U) (n : nat) (u : U) :
  Halting.halts_in next n u ->
  forall m, (n <= m)%nat -> Halting.halts_in next m u.
Proof.
  intros H.
  induction H as [n u o u' Hn Ho | n u item u' Hn Ht H IH]; intros m Hm;
    (destruct m as [|m]; [lia|]).
  - eapply Halting.halts_stop; [exact Hn | exact Ho].
  - eapply Halting.halts_step; [exact Hn | exact Ht | apply IH; lia].
Qed.

Section HaltFacts.

Context {U : Type}.
Variable next : Lib.pull U.

Lemma toArray_halts (n : nat) (u : U) :
  Halting.halts_in next n u ->
  forall fuel buf,
    (n <= fuel)%nat -> exists r, Lib.toArray next fuel u buf = Some r.
Proof.
  intros H.
  induction H as [n u o u' Hn Ho | n u item u' Hn Ht H IH]; intros fuel buf Hf;
    (destruct fuel as [|fuel]; [lia|]); cbn [Lib.toArray]; rewrite Hn.
  - destruct o as [e|item]; [eexists; reflexivity|].
    cbn in Ho. rewrite Ho. eexists; reflexivity.
  - rewrite Ht. cbn [negb]. apply IH. lia.
Qed.

Lemma Condition_halts (g : value -> bool) (n : nat) (u : U) :
  Halting.halts_in next n u ->
  forall fuel,
    (n <= fuel)%nat ->
    Halting.halts_in (Lib.Condition_nextObject next fuel g) n u.
Proof.
  intros H.
  induction H as [n u o u' Hn Ho | n u item u' Hn Ht H IH]; intros fuel Hf;
    (destruct fuel as [|fuel]; [lia|]).
  - destruct o as [e|item].
    + eapply Halting.halts_stop with (o := Failed e);
        [cbn [Lib.Condition_nextObject]; rewrite Hn; reflexivity | exact I].
    + cbn in Ho.
      eapply Halting.halts_stop with (o := Got VUndefined);
        [cbn [Lib.Condition_nextObject]; rewrite Hn, Ho; reflexivity
        | reflexivity].
  - destruct (g item) eqn:Eg.
    + eapply Halting.halts_step with (item := item);
        [cbn [Lib.Condition_nextObject]; rewrite Hn, Ht, Eg; reflexivity
        | exact Ht | apply IH; lia].
    + assert (Hpull : Lib.Condition_nextObject next (S fuel) g u =
                      Lib.Condition_nextObject next fuel g u').
      { cbn [Lib.Condition_nextObject]. now rewrite Hn, Ht, Eg. }
      assert (Hup : forall m x,
                 Halting.halts_in (Lib.Condition_nextObject next fuel g) m x ->
                 Halting.halts_in (Lib.Condition_nextObject next (S fuel) g)
                   m x).
      { intros m x. apply halts_more. intros y r Hy.
        apply (Condition_more_fuel next next (fun _ _ E => E) fuel (S fuel)
                 g y r Hy). lia. }
      pose proof (IH fuel ltac:(lia)) as H1.
      inversion H1 as [n0 x o x' Hx Ho E0 E1 | n0 x it x' Hx Hit Hrest E0 E1];
        subst.
      * eapply Halting.halts_stop; [rewrite Hpull; exact Hx | exact Ho].
      * eapply Halting.halts_step; [rewrite Hpull; exact Hx | exact Hit |].
        apply Hup. apply (halts_weaken _ _ _ Hrest). lia.
Qed.

Lemma Projection_halts (p : value -> value) (n : nat) (u : U) :
  Halting.halts_in next n u ->
  Halting.halts_in (Lib.Projection_nextObject next p) n u.
Proof.
  intros H.
  induction H as [n u o u' Hn Ho | n u item u' Hn Ht H IH].
  - destruct o as [e|item].
    + eapply Halting.halts_stop with (o := Failed e);
        [unfold Lib.Projection_nextObject; rewrite Hn; reflexivity | exact I].
    + cbn in Ho.
      eapply Halting.halts_stop with (o := Got VUndefined);
        [unfold Lib.Projection_nextObject; rewrite Hn, Ho; reflexivity
        | reflexivity].
  - assert (Hp : Lib.Projection_nextObject next p u =
                 Some (Got (p item), u')).
    { unfold Lib.Projection_nextObject. now rewrite Hn, Ht. }
    destruct (truthy (p item)) eqn:Ep.
    + eapply Halting.halts_step; [exact Hp | exact Ep | exact IH].
    + eapply Halting.halts_stop; [exact Hp | exact Ep].
Qed.

Lemma Limit_halts (n : nat) (u : U) :
  Halting.halts_in next n u ->
  forall rest, Halting.halts_in (Lib.Limit_nextObject next) n (rest, u).
Proof.
  intros H.
  induction H as [n u o u' Hn Ho | n u item u' Hn Ht H IH]; intros rest;
    destruct (0 <? rest)%Z eqn:Er.
  - eapply Halting.halts_stop with (o := o);
      [unfold Lib.Limit_nextObject; rewrite Er, Hn; reflexivity | exact Ho].
  - eapply Halting.halts_stop with (o := Got VUndefined);
      [unfold Lib.Limit_nextObject; rewrite Er; reflexivity | reflexivity].
  - eapply Halting.halts_step with (item := item);
      [unfold Lib.Limit_nextObject; rewrite Er, Hn; reflexivity
      | exact Ht | apply IH].
  - eapply Halting.halts_stop with (o := Got VUndefined);
      [unfold Lib.Limit_nextObject; rewrite Er; reflexivity | reflexivity].
Qed.

Lemma Offset_through_halts (offset : Z) (ready : bool) (n : nat) (u : U) :
  (ready || (offset <=? 0)%Z)%bool = true ->
  Halting.halts_in next n u ->
  Halting.halts_in (Lib.Offset_nextObject next offset) n (ready, u).
Proof.
  intros Hr H.
  induction H as [n u o u' Hn Ho | n u item u' Hn Ht H IH].
  - eapply Halting.halts_stop with (o := o);
      [unfold Lib.Offset_nextObject; rewrite Hr, Hn; reflexivity | exact Ho].
  - eapply Halting.halts_step with (item := item);
      [unfold Lib.Offset_nextObject; rewrite Hr, Hn; reflexivity
      | exact Ht | exact IH].
Qed.

Lemma Offset_iterator_halts (n : nat) (u : U) :
  Halting.halts_in next n u ->
  forall k,
  exists o b u',
    Lib.Offset_iterator next k u = Some (o, (b, u')) /\
    (Halting.stops o \/
     exists item m,
       o = Got item /\ truthy item = true /\ b = true /\
       (S m < n)%nat /\ Halting.halts_in next m u').
Proof.
  intros H.
  induction H as [n u o u' Hn Ho | n u item u' Hn Ht H IH]; intros k.
  - destruct o as [e|item].
    + exists (Failed e), false, u'. split; [|left; exact I].
      destruct k; cbn [Lib.Offset_iterator]; now rewrite Hn.
    + cbn in Ho. exists (Got VUndefined), false, u'.
      split; [|left; reflexivity].
      destruct k; cbn [Lib.Offset_iterator]; now rewrite Hn, Ho.
  - destruct k as [|k].
    + inversion H as [n0 x o x' Hx Ho E0 E1 | n0 x it x' Hx Hit Hrest E0 E1];
        subst.
      * exists o, true, x'. split; [|left; exact Ho].
        cbn [Lib.Offset_iterator]. now rewrite Hn, Ht, Hx.
      * exists (Got it), true, x'. split.
        -- cbn [Lib.Offset_iterator]. now rewrite Hn, Ht, Hx.
        -- right. exists it, n0. repeat split; try assumption. lia.
    + destruct (IH k) as (o & b & x' & Hit & Hcase).
      exists o, b, x'. split.
      * cbn [Lib.Offset_iterator]. now rewrite Hn, Ht.
      * destruct Hcase as [Hs|(it & m & -> & Htr & -> & Hm & Hh)];
          [now left|].
        right. exists it, m. repeat split; try assumption. lia.
Qed.

Lemma Offset_halts (offset : Z) (n : nat) (u : U) :
  Halting.halts_in next n u ->
  forall ready,
    Halting.halts_in (Lib.Offset_nextObject next offset) n (ready, u).
Proof.
  intros H ready.
  destruct (ready || (offset <=? 0)%Z)%bool eqn:Er;
    [now apply Offset_through_halts|].
  destruct (Offset_iterator_halts n u H (Z.to_nat (offset - 1)))
    as (o & b & u' & Hit & Hcase).
  assert (Hpull : Lib.Offset_nextObject next offset (ready, u) =
                  Some (o, (b, u'))).
  { unfold Lib.Offset_nextObject. now rewrite Er. }
  destruct n as [|n]; [inversion H|].
  destruct Hcase as [Hs|(it & m & -> & Htr & -> & Hm & Hh)].
  - eapply Halting.halts_stop; [exact Hpull | exact Hs].
  - eapply Halting.halts_step; [exact Hpull | exact Htr |].
    apply (halts_weaken _ m); [|lia].
    now apply Offset_through_halts.
Qed.

Lemma halts_embedded {V : Type} (pull2 : Lib.pull V) (pack : U -> V)
  (n : nat) (u : U) :
  (forall x, pull2 (pack x) =
             match next x with
             | None => None
             | Some (o, x') => Some (o, pack x')
             end) ->
  Halting.halts_in next n u -> Halting.halts_in pull2 n (pack u).
Proof.
  intros Hp H.
  induction H as [n u o u' Hn Ho | n u item u' Hn Ht H IH].
  - eapply Halting.halts_stop; [rewrite Hp, Hn; reflexivity | exact Ho].
  - eapply Halting.halts_step;
      [rewrite Hp, Hn; reflexivity | exact Ht | exact IH].
Qed.

End HaltFacts.

Section ChainHalts.

Variable coll : collection.
Variable sorter : Type.
Variable array_sort : sorter -> list value -> list value.

Local Abbreviation next := (Lib.nextObject coll array_sort).

Lemma source_list_halts (f : nat) (l : list string) (w : list call) :
  Halting.halts_in (next (S f)) (S (List.length l)) (Lib.Source (Some l), w).
Proof.
  revert w. induction l as [|id l IH]; intros w.
  - eapply Halting.halts_stop with (o := Got VUndefined); reflexivity.
  - destruct (read coll id) as [e|item] eqn:Er.
    + eapply Halting.halts_stop with (o := Failed e); [|exact I].
      cbn. now rewrite Er.
    + assert (Hp : next (S f) (Lib.Source (Some (id :: l)), w) =
                   Some (Got item, (Lib.Source (Some l), w ++ [Read id]))).
      { cbn. now rewrite Er. }
      destruct (truthy item) eqn:Et.
      * eapply Halting.halts_step; [exact Hp | exact Et | apply IH].
      * eapply Halting.halts_stop; [exact Hp | exact Et].
Qed.

Lemma source_halts (f : nat) (slist : option (list string)) (w : list call) :
  exists n, Halting.halts_in (next (S f)) n (Lib.Source slist, w).
Proof.
  destruct slist as [l|]; [eexists; apply source_list_halts|].
  destruct (index coll) as [e|l] eqn:Ei.
  - exists 1%nat. eapply Halting.halts_stop with (o := Failed e); [|exact I].
    cbn. now rewrite Ei.
  - exists (S (List.length l)).
    pose proof (source_list_halts f l (w ++ [Index])) as H.
    assert (Hfirst : next (S f) (Lib.Source None, w) =
                     next (S f) (Lib.Source (Some l), w ++ [Index])).
    { cbn. now rewrite Ei. }
    inversion H as [n0 x o x' Hx Ho E0 E1 | n0 x it x' Hx Hit Hrest E0 E1];
      subst.
    + eapply Halting.halts_stop; [rewrite Hfirst; exact Hx | exact Ho].
    + eapply Halting.halts_step;
        [rewrite Hfirst; exact Hx | exact Hit | exact Hrest].
Qed.

Lemma sort_buffer_halts (f : nat) (s : Lib.stage sorter) (by_ : sorter)
  (l : list value) (w : list call) :
  Halting.halts_in (next (S f)) (S (List.length l))
    (Lib.Sort s (inr by_) (Some l), w).
Proof.
  induction l as [|item l IH].
  - eapply Halting.halts_stop with (o := Got VUndefined); reflexivity.
  - destruct (truthy item) eqn:Et.
    + eapply Halting.halts_step with (item := item);
        [reflexivity | exact Et | exact IH].
    + eapply Halting.halts_stop with (o := Got item); [reflexivity | exact Et].
Qed.

(** Whatever the stages and whatever the storage answers, a chain of
    stages is drained by finitely many pulls, every one of which comes
    back. *)
Lemma stage_halts (s : Lib.stage sorter) :
  forall w, exists n F,
    forall f, (F <= f)%nat -> Halting.halts_in (next f) n (s, w).
Proof.
  induction s as [slist | src IH cnd | src IH prj | src IH sb buf
                 | src IH off rdy | src IH lim rst]; intros w.
  - destruct (source_halts 0 slist w) as (n0 & H0).
    exists n0, 1%nat. intros f Hf.
    apply (halts_more (next 1) (next f)); [|exact H0].
    intros x r Hx.
    apply (nextObject_more_fuel coll sorter array_sort 1 f x r Hx Hf).
  - destruct cnd as [g|v].
    + destruct (IH w) as (n & F & H).
      exists n, (S (Nat.max F n)). intros f Hf.
      destruct f as [|f]; [lia|].
      apply (halts_embedded (Lib.Condition_nextObject (next f) f g)
               (next (S f))
               (fun x => (Lib.Condition (fst x) (AFun g), snd x)) n (src, w)).
      * intros [s x]. cbn. unfold Lib.rewrap.
        now destruct (Lib.Condition_nextObject
                        (Lib.nextObject coll array_sort f) f g (s, x))
          as [[o [s1 x1]]|].
      * apply Condition_halts; [apply H; lia | lia].
    + exists 1%nat, 1%nat. intros f Hf. destruct f as [|f]; [lia|].
      eapply Halting.halts_stop
        with (o := Failed (Error "invalid condition: " (Some v)));
        [reflexivity | exact I].
  - destruct prj as [p|v].
    + destruct (IH w) as (n & F & H).
      exists n, (S F). intros f Hf. destruct f as [|f]; [lia|].
      apply (halts_embedded (Lib.Projection_nextObject (next f) p)
               (next (S f))
               (fun x => (Lib.Projection (fst x) (AFun p), snd x)) n (src, w)).
      * intros [s x]. cbn. unfold Lib.rewrap.
        now destruct (Lib.Projection_nextObject
                        (Lib.nextObject coll array_sort f) p (s, x))
          as [[o [s1 x1]]|].
      * apply Projection_halts. apply H. lia.
    + exists 1%nat, 1%nat. intros f Hf. destruct f as [|f]; [lia|].
      eapply Halting.halts_stop
        with (o := Failed (Error "invalid projection: " (Some v)));
        [reflexivity | exact I].
  - destruct sb as [e|by_].
    { exists 1%nat, 1%nat. intros f Hf. destruct f as [|f]; [lia|].
      eapply Halting.halts_stop with (o := Failed e); [reflexivity | exact I]. }
    destruct buf as [l|].
    { exists (S (List.length l)), 1%nat. intros f Hf.
      destruct f as [|f]; [lia|]. apply sort_buffer_halts. }
    destruct (IH w) as (n & F & H).
    set (f0 := Nat.max F n).
    destruct (toArray_halts (next f0) n (src, w) (H f0 ltac:(lia)) f0 []
                ltac:(lia)) as ([r [s1 w1]] & Hr).
    assert (Hall : forall f, (f0 <= f)%nat ->
                     Lib.toArray (next f) f (src, w) [] = Some (r, (s1, w1))).
    { intros f Hf.
      apply (toArray_more_fuel (next f0) (next f)
               (fun x y Hx => nextObject_more_fuel coll sorter array_sort
                                f0 f x y Hx Hf)
               f0 f (src, w) [] _ Hr Hf). }
    destruct r as [e|l].
    { exists 1%nat, (S f0). intros f Hf. destruct f as [|f]; [lia|].
      eapply Halting.halts_stop with (o := Failed e); [|exact I].
      cbn [Lib.nextObject]. now rewrite (Hall f ltac:(lia)). }
    destruct (array_sort by_ l) as [|item l'] eqn:Es.
    { exists 1%nat, (S f0). intros f Hf. destruct f as [|f]; [lia|].
      eapply Halting.halts_stop with (o := Got VUndefined); [|reflexivity].
      cbn [Lib.nextObject]. now rewrite (Hall f ltac:(lia)), Es. }
    exists (S (S (List.length l'))), (S f0). intros f Hf.
    destruct f as [|f]; [lia|].
    assert (Hp : next (S f) (Lib.Sort src (inr by_) None, w) =
                 Some (Got item, (Lib.Sort s1 (inr by_) (Some l'), w1))).
    { cbn [Lib.nextObject]. now rewrite (Hall f ltac:(lia)), Es. }
    destruct (truthy item) eqn:Et.
    + eapply Halting.halts_step;
        [exact Hp | exact Et | apply sort_buffer_halts].
    + eapply Halting.halts_stop; [exact Hp | exact Et].
  - destruct (IH w) as (n & F & H).
    exists n, (S F). intros f Hf. destruct f as [|f]; [lia|].
    apply (halts_embedded (Lib.Offset_nextObject (next f) off)
             (next (S f))
             (fun x => (Lib.Offset (fst (snd x)) off (fst x), snd (snd x)))
             n (rdy, (src, w))).
    + intros [r [s x]]. cbn [Lib.nextObject fst snd].
      unfold Lib.rewrap, Lib.with_field, Lib.state.
      match goal with
      | |- _ = match ?t with _ => _ end =>
          destruct t as [[o [r1 [s1 x1]]]|]; reflexivity
      end.
    + apply Offset_halts. apply H. lia.
  - destruct (IH w) as (n & F & H).
    exists n, (S F). intros f Hf. destruct f as [|f]; [lia|].
    apply (halts_embedded (Lib.Limit_nextObject (next f))
             (next (S f))
             (fun x => (Lib.Limit (fst (snd x)) lim (fst x), snd (snd x)))
             n (rst, (src, w))).
    + intros [r [s x]]. cbn [Lib.nextObject fst snd].
      unfold Lib.rewrap, Lib.with_field, Lib.state.
      match goal with
      | |- _ = match ?t with _ => _ end =>
          destruct t as [[o [r1 [s2 x2]]]|]; reflexivity
      end.
    + apply Limit_halts. apply H. lia.
Qed.

Lemma each_iterator_halts (f0 n : nat) (st : Lib.state sorter) :
  Halting.halts_in (next f0) n st ->
  forall fuel seen,
    (f0 + n <= fuel)%nat ->
    exists r, Lib.each_iterator coll array_sort fuel st seen = Some r.
Proof.
  intros H.
  induction H as [n u o u' Hn Ho | n u item u' Hn Ht H IH]; intros fuel seen Hf;
    (destruct fuel as [|fuel]; [lia|]); cbn [Lib.each_iterator];
    rewrite (nextObject_more_fuel coll sorter array_sort f0 fuel _ _ Hn)
      by lia.
  - destruct o as [e|item]; [eexists; reflexivity|].
    cbn in Ho. rewrite Ho. eexists; reflexivity.
  - rewrite Ht. apply IH. lia.
Qed.

End ChainHalts.

(** X27: whatever stages were put on a cursor, in whatever state they
    are, and whatever the storage answers to [index] and to each [read],
    the callback of [toArray], of [each] (for its last call) and of
    [count] is reached: with enough fuel the operation returns, and more
    fuel does not change what [toArray] returns. *)
Theorem cursor_operations_return :
  forall (coll : collection) (sorter : Type)
         (array_sort : sorter -> list value -> list value)
         (c : Lib.Cursor sorter) (w : list call),
  exists F r,
    Lib.Cursor_toArray coll array_sort F c w = Some r /\
    forall fuel,
      (F <= fuel)%nat ->
      Lib.Cursor_toArray coll array_sort fuel c w = Some r /\
      (exists seen, Lib.Cursor_each coll array_sort fuel c w = Some seen) /\
      (exists n, Lib.Cursor_count coll array_sort fuel c w = Some n).
Proof.
  intros coll sorter array_sort c w.
  destruct (stage_halts coll sorter array_sort (Lib.source c) w)
    as (n & F0 & H).
  set (F := (F0 + n)%nat).
  assert (Harr : exists r, Lib.Cursor_toArray coll array_sort F c w = Some r).
  { unfold Lib.Cursor_toArray.
    destruct (Lib._error c); [eexists; reflexivity|].
    destruct (Lib._toArray c); [eexists; reflexivity|].
    destruct (toArray_halts (Lib.nextObject coll array_sort F) n
                (Lib.source c, w) (H F ltac:(lia)) F [] ltac:(lia))
      as ([[e|l] [s1 w1]] & Hr); rewrite Hr; eexists; reflexivity. }
  destruct Harr as (r & Hr).
  exists F, r. split; [exact Hr|].
  intros fuel Hf.
  assert (Hr' : Lib.Cursor_toArray coll array_sort fuel c w = Some r).
  { apply (Cursor_toArray_more_fuel coll sorter array_sort F fuel c w r Hr).
    exact Hf. }
  split; [exact Hr'|]. split.
  - unfold Lib.Cursor_each.
    destruct (Lib._error c); [eexists; reflexivity|].
    destruct (each_iterator_halts coll sorter array_sort F0 n
                (Lib.source c, w) (H F0 ltac:(lia)) fuel [] ltac:(lia))
      as ([seen [s1 w1]] & Hs).
    rewrite Hs. eexists; reflexivity.
  - unfold Lib.Cursor_count.
    destruct (Lib._error c); [eexists; reflexivity|].
    destruct (Lib.is_source (Lib.source c)).
    + destruct (Lib.Cursor_index coll c w) as [[e|l] cw]; eexists; reflexivity.
    + rewrite Hr'. destruct r as [[e|l] cw]; eexists; reflexivity.
Qed.
